(** * gapsounds: the vector-to-composition engine

    A shallow embedding of the two revisions of [MusicEngine]
    ([musicEngine.ts] and [services/musicEngine.ts]) and the properties
    of melody generation, tempo derivation, the transport loop and the
    playback state machine; then the landmark service
    ([wikipediaService.ts]) and the handlers of the component that drives
    the engine ([App.tsx]).

    Numbers.  A JavaScript number is embedded as a real number or [NaN]:
    rounding of IEEE doubles and the two infinities are outside the model.
    [undefined], which the code only ever feeds to arithmetic, is
    identified with [NaN] (its numeric coercion).

    Time.  The audio context is taken to be running, so that the
    [await Tone.start()] at the head of [load] and [play] is skipped and
    [play] runs to its end at the call.  [load] is embedded at the moment
    every callback that will fire has fired.  The transport's clock is the
    caller of [tick]. *)

From stdpp Require Import gmap strings list fin_maps.
From Stdlib Require Import Reals Lra Lia ZArith.

Local Open Scope R_scope.

(** ** JavaScript numbers and the [Math] functions the engine calls *)

Module JS.

Inductive num : Type :=
| Fin (r : R)
| NaN.

Definition lift1 (f : R -> R) (x : num) : num :=
  match x with Fin a => Fin (f a) | NaN => NaN end.

Definition lift2 (f : R -> R -> R) (x y : num) : num :=
  match x, y with Fin a, Fin b => Fin (f a b) | _, _ => NaN end.

Definition add : num -> num -> num := lift2 Rplus.
Definition mul : num -> num -> num := lift2 Rmult.

(** [Math.tanh], [Math.floor], [Math.abs].  [Math.tanh] is taken as the
    real [tanh], which stays strictly between -1 and 1; in double
    precision it reaches exactly 1 and -1 for arguments beyond about 19
    (values of the vector beyond about 1.27 in [getVoiceMelody]).  The
    theorems that need [tanh] to stay below 1 bound the value read. *)
Definition tanh : num -> num := lift1 Rtrigo_def.tanh.
Definition floor : num -> num := lift1 (fun a => IZR (Zfloor a)).
Definition abs : num -> num := lift1 Rabs.

(** [Math.min] and [Math.max]: [NaN] as soon as one argument is [NaN]. *)
Definition min : num -> num -> num := lift2 Rmin.
Definition max : num -> num -> num := lift2 Rmax.

(** [Math.sqrt]: [NaN] below zero. *)
Definition sqrt (x : num) : num :=
  match x with
  | Fin a => if Rle_dec 0 a then Fin (R_sqrt.sqrt a) else NaN
  | NaN => NaN
  end.

(** Truncation towards zero, as the [%] operator uses it. *)
Definition Ztrunc (a : R) : Z :=
  if Rle_dec 0 a then Zfloor a else (- Zfloor (- a))%Z.

(** [x % y]: the remainder has the sign of the dividend; [NaN] for a zero
    divisor. *)
Definition rem (x y : num) : num :=
  match x, y with
  | Fin a, Fin b =>
      if Req_dec_T b 0 then NaN else Fin (a - b * IZR (Ztrunc (a / b)))
  | _, _ => NaN
  end.

(** [x > y]: false as soon as one side is [NaN]. *)
Definition gt (x y : num) : bool :=
  match x, y with
  | Fin a, Fin b => if Rlt_dec b a then true else false
  | _, _ => false
  end.

(** A number literal that is a natural number (loop counters, indices). *)
Definition of_nat (n : nat) : num := Fin (INR n).

(** [a[i]] on a typed array: [undefined] out of range, which every use
    in the engine coerces to [NaN]. *)
Definition get (a : list num) (i : nat) : num := nth i a NaN.

(** [a[i % a.length]]: for an empty array the index is [NaN] and the read
    is [undefined]. *)
Definition get_mod (a : list num) (i : nat) : num :=
  match length a with
  | O => NaN
  | S _ => get a (i mod length a)
  end.

(** [a.slice(b, e)] for [0 <= b <= e]: both ends are clamped to the
    length. *)
Definition slice (b e : nat) (a : list num) : list num :=
  firstn (e - b) (skipn b a).

(** [x] used as an array index: an element is found only for an integer
    within range. *)
Definition index {A : Type} (l : list A) (x : num) : option A :=
  match x with
  | Fin a =>
      if Req_dec_T a (IZR (Zfloor a)) then
        if Rle_dec 0 a then nth_error l (Z.to_nat (Zfloor a)) else None
      else None
  | NaN => None
  end.

End JS.

(** ** The objects of the audio library, as far as the engine drives them

    An instrument is known by the calls the engine made on it, oldest
    first.  A note name such as [Eb3] is the pair of its two parts, the
    pitch class looked up in the scale and the octave number, which the
    code concatenates. *)

Module Tone.

Definition note : Type := option string * JS.num.

Inductive call : Type :=
| releaseAll (time : option R)
| triggerAttackRelease (n : note) (duration : option string) (time : R)
    (velocity : JS.num).

Record Sampler : Type := mkSampler {
  urls : string * string;
  loaded : bool;
  sampler_calls : list call
}.

Record PolySynth : Type := mkPolySynth {
  synth_kind : string;
  synth_calls : list call
}.

(** The loop owns the [step] counter its callback closes over. *)
Record Loop : Type := mkLoop { step : nat }.

Record Transport : Type := mkTransport {
  started : bool;
  bpm : JS.num
}.

Definition do_call (c : call) (calls : list call) : list call := calls ++ [c].

Definition sampler_do (c : call) (s : Sampler) : Sampler :=
  {| urls := urls s; loaded := loaded s;
     sampler_calls := do_call c (sampler_calls s) |}.

Definition synth_do (c : call) (s : PolySynth) : PolySynth :=
  {| synth_kind := synth_kind s; synth_calls := do_call c (synth_calls s) |}.

(** The notes an instrument holds after a history of calls: a trigger adds
    a note, [releaseAll] releases every one of them.  (The release a
    trigger schedules for itself after the note's duration is a matter of
    audio time and is not counted.) *)
Definition after_call (held : list note) (c : call) : list note :=
  match c with
  | releaseAll _ => []
  | triggerAttackRelease n _ _ _ => held ++ [n]
  end.

Definition sounding (calls : list call) : list note :=
  foldl after_call [] calls.

End Tone.

(** ** The engine's state, shared by the two revisions *)

Inductive CompositionPhase : Type := start | traversal | end_ | idle.

Record NoteEvent : Type := mkNoteEvent {
  noteIndex : JS.num;
  octaveShift : JS.num;
  gate : bool;
  velocity : JS.num
}.

(** An observer is known by a number; [notified] is the list of calls the
    observers received, oldest first.  [transport] is the library's global
    transport. *)
Record MusicEngine : Type := mkEngine {
  samplers : gmap string Tone.Sampler;
  fallbacks : gmap string Tone.PolySynth;
  loop : option Tone.Loop;
  loadedStates : gmap string bool;
  isInitialized : bool;
  currentMelodies : list (list NoteEvent);
  currentPhase : CompositionPhase;
  onPhaseChange : option nat;
  transport : Tone.Transport;
  notified : list (nat * CompositionPhase)
}.

Definition set_samplers (x : gmap string Tone.Sampler) (e : MusicEngine) :=
  mkEngine x (fallbacks e) (loop e) (loadedStates e) (isInitialized e)
    (currentMelodies e) (currentPhase e) (onPhaseChange e) (transport e)
    (notified e).

Definition set_fallbacks (x : gmap string Tone.PolySynth) (e : MusicEngine) :=
  mkEngine (samplers e) x (loop e) (loadedStates e) (isInitialized e)
    (currentMelodies e) (currentPhase e) (onPhaseChange e) (transport e)
    (notified e).

Definition set_loop (x : option Tone.Loop) (e : MusicEngine) :=
  mkEngine (samplers e) (fallbacks e) x (loadedStates e) (isInitialized e)
    (currentMelodies e) (currentPhase e) (onPhaseChange e) (transport e)
    (notified e).

Definition set_loadedStates (x : gmap string bool) (e : MusicEngine) :=
  mkEngine (samplers e) (fallbacks e) (loop e) x (isInitialized e)
    (currentMelodies e) (currentPhase e) (onPhaseChange e) (transport e)
    (notified e).

Definition set_isInitialized (x : bool) (e : MusicEngine) :=
  mkEngine (samplers e) (fallbacks e) (loop e) (loadedStates e) x
    (currentMelodies e) (currentPhase e) (onPhaseChange e) (transport e)
    (notified e).

Definition set_currentMelodies (x : list (list NoteEvent)) (e : MusicEngine) :=
  mkEngine (samplers e) (fallbacks e) (loop e) (loadedStates e)
    (isInitialized e) x (currentPhase e) (onPhaseChange e) (transport e)
    (notified e).

Definition set_currentPhase (x : CompositionPhase) (e : MusicEngine) :=
  mkEngine (samplers e) (fallbacks e) (loop e) (loadedStates e)
    (isInitialized e) (currentMelodies e) x (onPhaseChange e) (transport e)
    (notified e).

Definition set_onPhaseChange (x : option nat) (e : MusicEngine) :=
  mkEngine (samplers e) (fallbacks e) (loop e) (loadedStates e)
    (isInitialized e) (currentMelodies e) (currentPhase e) x (transport e)
    (notified e).

Definition set_transport (x : Tone.Transport) (e : MusicEngine) :=
  mkEngine (samplers e) (fallbacks e) (loop e) (loadedStates e)
    (isInitialized e) (currentMelodies e) (currentPhase e) (onPhaseChange e)
    x (notified e).

Definition set_notified (x : list (nat * CompositionPhase)) (e : MusicEngine) :=
  mkEngine (samplers e) (fallbacks e) (loop e) (loadedStates e)
    (isInitialized e) (currentMelodies e) (currentPhase e) (onPhaseChange e)
    (transport e) x.

(** [if (this.onPhaseChange) this.onPhaseChange(phase)] *)
Definition emit (phase : CompositionPhase) (e : MusicEngine) : MusicEngine :=
  match onPhaseChange e with
  | Some cb => set_notified (notified e ++ [(cb, phase)]) e
  | None => e
  end.

Definition setPhaseCallback (cb : nat) (e : MusicEngine) : MusicEngine :=
  set_onPhaseChange (Some cb) e.

(** [Tone.Transport.stop(); Tone.Transport.cancel()] and
    [Tone.Transport.start()] *)
Definition Transport_stop (e : MusicEngine) : MusicEngine :=
  set_transport (Tone.mkTransport false (Tone.bpm (transport e))) e.

Definition Transport_start (e : MusicEngine) : MusicEngine :=
  set_transport (Tone.mkTransport true (Tone.bpm (transport e))) e.

Definition Transport_set_bpm (x : JS.num) (e : MusicEngine) : MusicEngine :=
  set_transport (Tone.mkTransport (Tone.started (transport e)) x) e.

(** The constants of the loop callback and of the melody generator. *)
Definition voices : list string := ["bass"; "tenor"; "alto"; "soprano"]%string.
Definition baseOctaves : list JS.num := [JS.Fin 1; JS.Fin 2; JS.Fin 3; JS.Fin 4].
Definition scale : list string := ["C"; "D"; "Eb"; "F"; "G"; "Ab"; "Bb"]%string.

(** [for (const v of vector) sumSqr += v * v], from [sumSqr = 0]. *)
Definition sumSqr (vector : list JS.num) : JS.num :=
  foldl (fun acc v => JS.add acc (JS.mul v v)) (JS.Fin 0) vector.

(** [forEach((v, i) => ...)] over a callback that can throw. *)
Fixpoint forEach {A St : Type} (f : A -> nat -> St -> option St)
    (l : list A) (i : nat) (s : St) : option St :=
  match l with
  | [] => Some s
  | v :: l' =>
      match f v i s with
      | Some s' => forEach f l' (S i) s'
      | None => None
      end
  end.

(** The state after [new MusicEngine()], but for the fallbacks, which
    each revision builds its own way. *)
Definition blank : MusicEngine :=
  {| samplers := ∅; fallbacks := ∅; loop := None;
     loadedStates :=
       <["bass"%string := false]> (<["tenor"%string := false]>
         (<["alto"%string := false]> (<["soprano"%string := false]> ∅)));
     isInitialized := false; currentMelodies := [];
     currentPhase := idle; onPhaseChange := None;
     transport := Tone.mkTransport false (JS.Fin 120);
     notified := [] |}.

(** How one sample load ends: [onload] fires, [onerror] fires, or neither
    ever does. *)
Inductive load_event : Type := onload | onerror | pending.

(** ** [services/musicEngine.ts], the revision the application imports *)

Module Services.

Definition VOICE_CONFIGS : list (string * (string * string)) :=
  [("bass", ("A1", "double-bass/A1.mp3"));
   ("tenor", ("A2", "cello/A2.mp3"));
   ("alto", ("A3", "viola/A3.mp3"));
   ("soprano", ("A4", "violin/A4.mp3"))]%string.

Definition durations : list string := ["2n"; "4n"; "8n"; "16n"]%string.

Definition initFallbacks (e : MusicEngine) : MusicEngine :=
  let f := fallbacks e in
  let f := <["bass"%string := Tone.mkPolySynth "FMSynth" []]> f in
  let f := <["tenor"%string := Tone.mkPolySynth "Synth" []]> f in
  let f := <["alto"%string := Tone.mkPolySynth "AMSynth" []]> f in
  let f := <["soprano"%string := Tone.mkPolySynth "DuoSynth" []]> f in
  set_fallbacks f e.

(** [new MusicEngine()] *)
Definition new : MusicEngine := initFallbacks blank.

(** One entry of [Object.entries(VOICE_CONFIGS)] in [load]: the sampler is
    stored under its key, and the callback that fires, if one does, writes
    the readiness flag.  The result tells whether the entry's promise is
    resolved. *)
Definition load_entry (outcome : string -> load_event)
    (entry : string * (string * string)) (e : MusicEngine) : MusicEngine * bool :=
  let '(key, config) := entry in
  let sampler ev := Tone.mkSampler config ev [] in
  match outcome key with
  | onload =>
      (set_loadedStates (<[key := true]> (loadedStates e))
         (set_samplers (<[key := sampler true]> (samplers e)) e), true)
  | onerror =>
      (set_loadedStates (<[key := false]> (loadedStates e))
         (set_samplers (<[key := sampler false]> (samplers e)) e), true)
  | pending =>
      (set_samplers (<[key := sampler false]> (samplers e)) e, false)
  end.

Fixpoint load_entries (outcome : string -> load_event)
    (entries : list (string * (string * string))) (e : MusicEngine)
    : MusicEngine * bool :=
  match entries with
  | [] => (e, true)
  | entry :: rest =>
      let '(e1, r1) := load_entry outcome entry e in
      let '(e2, r2) := load_entries outcome rest e1 in
      (e2, r1 && r2)
  end.

(** [load()]: the state once every callback that fires has fired, and
    whether [Promise.all] is resolved.  No path rejects. *)
Definition load (outcome : string -> load_event) (e : MusicEngine)
    : MusicEngine * bool :=
  load_entries outcome VOICE_CONFIGS (set_isInitialized true e).

Definition getVoiceMelody (vectorSlice : list JS.num) (voiceIdx : nat)
    (stepCount : option nat) : list NoteEvent :=
  map (fun i =>
         let val := JS.get_mod vectorSlice i in
         let amplified := JS.tanh (JS.mul val (JS.Fin 15)) in
         let pitchIndex :=
           JS.rem (JS.abs (JS.floor (JS.mul amplified (JS.Fin 14))))
                  (JS.of_nat (length scale)) in
         let octaveShift := JS.floor (JS.mul amplified (JS.Fin 2)) in
         {| noteIndex := pitchIndex;
            octaveShift := octaveShift;
            gate := JS.gt (JS.abs (JS.mul val (JS.Fin 25)))
                          (JS.add (JS.Fin 0.4)
                                  (JS.mul (JS.of_nat voiceIdx) (JS.Fin 0.1)));
            velocity := JS.min (JS.Fin 1)
                               (JS.max (JS.Fin 0.25)
                                       (JS.add (JS.Fin 0.5)
                                               (JS.mul val (JS.Fin 5)))) |})
      (seq 0 (default 16%nat stepCount)).

Definition stop (e : MusicEngine) : MusicEngine :=
  let e := Transport_stop e in
  let e := match loop e with
           | Some _ => set_loop None e
           | None => e
           end in
  let e := set_currentPhase idle e in
  emit idle e.

(** The note name the callback builds for [noteData] on voice [i]. *)
Definition finalNote (noteData : NoteEvent) (i : nat) : Tone.note :=
  (JS.index scale (JS.rem (noteIndex noteData) (JS.of_nat (length scale))),
   JS.add (JS.get baseOctaves i) (octaveShift noteData)).

(** [if (sampler && sampler.loaded) ... else if (synth) ...]: the note goes
    to the voice's sampler when it is loaded, else to its fallback at 0.4
    of the velocity. *)
Definition route (time : R) (noteData : NoteEvent) (v : string) (i : nat)
    (e : MusicEngine) : MusicEngine :=
  let sampler := samplers e !! v in
  let synth := fallbacks e !! v in
  if match sampler with Some s => Tone.loaded s | None => false end then
    set_samplers
      (alter (Tone.sampler_do
                (Tone.triggerAttackRelease (finalNote noteData i)
                   (durations !! i) time (velocity noteData))) v (samplers e)) e
  else
    match synth with
    | Some _ =>
        set_fallbacks
          (alter (Tone.synth_do
                    (Tone.triggerAttackRelease (finalNote noteData i)
                       (durations !! i) time
                       (JS.mul (velocity noteData) (JS.Fin 0.4))))
                 v (fallbacks e)) e
    | None => e
    end.

(** The body of the loop callback for one voice; [None] is the
    [TypeError] of reading a property of [undefined]. *)
Definition voice_callback (time : R) (step : nat) (v : string) (i : nat)
    (e : MusicEngine) : option MusicEngine :=
  melody ← currentMelodies e !! i;
  noteData ← match length melody with
             | O => None
             | S _ => melody !! (step mod length melody)%nat
             end;
  if gate noteData || (step mod 4 =? 0)%nat
  then Some (route time noteData v i e)
  else Some e.

Definition callback (time : R) (l : Tone.Loop) (e : MusicEngine)
    : option MusicEngine :=
  e' ← forEach (voice_callback time (Tone.step l)) voices 0%nat e;
  Some (set_loop (Some (Tone.mkLoop (S (Tone.step l)))) e').

(** One tick of the transport: the callback of the live loop runs when the
    transport is started. *)
Definition tick (time : R) (e : MusicEngine) : option MusicEngine :=
  match loop e with
  | Some l => if Tone.started (transport e) then callback time l e else Some e
  | None => Some e
  end.

Definition play (vector : list JS.num) (phase : CompositionPhase)
    (e : MusicEngine) : MusicEngine :=
  let e := stop e in
  let e := set_currentPhase phase e in
  let e := emit phase e in
  let e := set_currentMelodies
             [getVoiceMelody (JS.slice 0 96 vector) 0 None;
              getVoiceMelody (JS.slice 96 192 vector) 1 None;
              getVoiceMelody (JS.slice 192 288 vector) 2 None;
              getVoiceMelody (JS.slice 288 384 vector) 3 None] e in
  let mag := JS.sqrt (sumSqr vector) in
  let targetBpm := JS.add (JS.Fin 60) (JS.mul mag (JS.Fin 250)) in
  let e := Transport_set_bpm
             (JS.min (JS.Fin 160) (JS.max (JS.Fin 50) targetBpm)) e in
  let e := set_loop (Some (Tone.mkLoop 0)) e in
  Transport_start e.

Definition reset (outcome : string -> load_event) (e : MusicEngine)
    : MusicEngine * bool :=
  let e := stop e in
  let e := set_samplers ∅ e in
  let e := set_loadedStates (loadedStates blank) e in
  load outcome e.

End Services.

(** ** [musicEngine.ts], the revision with local samples *)

Module Root.

Definition VOICE_CONFIGS : list (string * (string * string)) :=
  [("bass", ("A#1", "/samples/bass-electric-As1.mp3"));
   ("tenor", ("A2", "/samples/cello-A2.mp3"));
   ("alto", ("A3", "/samples/french-horn-A3.mp3"));
   ("soprano", ("A4", "/samples/violin-A4.mp3"))]%string.

Definition durations : list string := ["4n"; "4n"; "8n"; "16n"]%string.

Definition initFallbacks (e : MusicEngine) : MusicEngine :=
  let f := fallbacks e in
  let f := <["bass"%string := Tone.mkPolySynth "FMSynth" []]> f in
  let f := <["tenor"%string := Tone.mkPolySynth "Synth" []]> f in
  let f := <["alto"%string := Tone.mkPolySynth "AMSynth" []]> f in
  let f := <["soprano"%string := Tone.mkPolySynth "DuoSynth" []]> f in
  set_fallbacks f e.

(** [new MusicEngine()] *)
Definition new : MusicEngine := initFallbacks blank.

Definition load_entry (outcome : string -> load_event)
    (entry : string * (string * string)) (e : MusicEngine) : MusicEngine * bool :=
  let '(key, config) := entry in
  let sampler ev := Tone.mkSampler config ev [] in
  match outcome key with
  | onload =>
      (set_loadedStates (<[key := true]> (loadedStates e))
         (set_samplers (<[key := sampler true]> (samplers e)) e), true)
  | onerror =>
      (set_loadedStates (<[key := false]> (loadedStates e))
         (set_samplers (<[key := sampler false]> (samplers e)) e), true)
  | pending =>
      (set_samplers (<[key := sampler false]> (samplers e)) e, false)
  end.

Fixpoint load_entries (outcome : string -> load_event)
    (entries : list (string * (string * string))) (e : MusicEngine)
    : MusicEngine * bool :=
  match entries with
  | [] => (e, true)
  | entry :: rest =>
      let '(e1, r1) := load_entry outcome entry e in
      let '(e2, r2) := load_entries outcome rest e1 in
      (e2, r1 && r2)
  end.

Definition load (outcome : string -> load_event) (e : MusicEngine)
    : MusicEngine * bool :=
  load_entries outcome VOICE_CONFIGS (set_isInitialized true e).

Definition getVoiceMelody (vectorSlice : list JS.num) (voiceIdx : nat)
    (stepCount : option nat) : list NoteEvent :=
  map (fun i =>
         let val := JS.get_mod vectorSlice i in
         let amplified := JS.tanh (JS.mul val (JS.Fin 15)) in
         {| noteIndex :=
              JS.rem (JS.abs (JS.floor (JS.mul amplified (JS.Fin 14))))
                     (JS.of_nat (length scale));
            octaveShift := JS.floor (JS.mul amplified (JS.Fin 2));
            gate := JS.gt (JS.abs (JS.mul val (JS.Fin 25)))
                          (JS.add (JS.Fin 0.5)
                                  (JS.mul (JS.of_nat voiceIdx) (JS.Fin 0.1)));
            velocity := JS.min (JS.Fin 1)
                               (JS.max (JS.Fin 0.25)
                                       (JS.add (JS.Fin 0.5)
                                               (JS.mul val (JS.Fin 5)))) |})
      (seq 0 (default 16%nat stepCount)).

Definition stop (e : MusicEngine) : MusicEngine :=
  let e := Transport_stop e in
  let e := set_samplers
             (Tone.sampler_do (Tone.releaseAll None) <$> samplers e) e in
  let e := set_fallbacks
             (Tone.synth_do (Tone.releaseAll None) <$> fallbacks e) e in
  let e := match loop e with
           | Some _ => set_loop None e
           | None => e
           end in
  let e := set_currentPhase idle e in
  emit idle e.

Definition finalNote (noteData : NoteEvent) (i : nat) : Tone.note :=
  (JS.index scale (JS.rem (noteIndex noteData) (JS.of_nat (length scale))),
   JS.add (JS.get baseOctaves i) (octaveShift noteData)).

(** [if (sampler && this.loadedStates[v]) ... else if (synth) ...]: the
    instrument the note goes to first releases all it holds; the fallback
    plays at half the velocity. *)
Definition route (time : R) (noteData : NoteEvent) (v : string) (i : nat)
    (e : MusicEngine) : MusicEngine :=
  let sampler := samplers e !! v in
  let synth := fallbacks e !! v in
  if match sampler with
     | Some _ => default false (loadedStates e !! v)
     | None => false
     end then
    let released :=
      alter (Tone.sampler_do (Tone.releaseAll (Some time))) v (samplers e) in
    set_samplers
      (alter (Tone.sampler_do
                (Tone.triggerAttackRelease (finalNote noteData i)
                   (durations !! i) time (velocity noteData))) v released) e
  else
    match synth with
    | Some _ =>
        let released :=
          alter (Tone.synth_do (Tone.releaseAll (Some time))) v
                (fallbacks e) in
        set_fallbacks
          (alter (Tone.synth_do
                    (Tone.triggerAttackRelease (finalNote noteData i)
                       (durations !! i) time
                       (JS.mul (velocity noteData) (JS.Fin 0.5))))
                 v released) e
    | None => e
    end.

Definition voice_callback (time : R) (step : nat) (v : string) (i : nat)
    (e : MusicEngine) : option MusicEngine :=
  melody ← currentMelodies e !! i;
  noteData ← match length melody with
             | O => None
             | S _ => melody !! (step mod length melody)%nat
             end;
  if gate noteData || (step mod 16 =? 0)%nat
  then Some (route time noteData v i e)
  else Some e.

Definition callback (time : R) (l : Tone.Loop) (e : MusicEngine)
    : option MusicEngine :=
  e' ← forEach (voice_callback time (Tone.step l)) voices 0%nat e;
  Some (set_loop (Some (Tone.mkLoop (S (Tone.step l)))) e').

Definition tick (time : R) (e : MusicEngine) : option MusicEngine :=
  match loop e with
  | Some l => if Tone.started (transport e) then callback time l e else Some e
  | None => Some e
  end.

Definition play (vector : list JS.num) (phase : CompositionPhase)
    (e : MusicEngine) : MusicEngine :=
  let e := stop e in
  let e := set_currentPhase phase e in
  let e := emit phase e in
  let e := set_currentMelodies
             [getVoiceMelody (JS.slice 0 96 vector) 0 None;
              getVoiceMelody (JS.slice 96 192 vector) 1 None;
              getVoiceMelody (JS.slice 192 288 vector) 2 None;
              getVoiceMelody (JS.slice 288 384 vector) 3 None] e in
  let e := Transport_set_bpm
             (JS.min (JS.Fin 160)
                (JS.max (JS.Fin 50)
                   (JS.add (JS.Fin 60)
                      (JS.mul (JS.sqrt (sumSqr vector)) (JS.Fin 250))))) e in
  let e := set_loop (Some (Tone.mkLoop 0)) e in
  Transport_start e.

Definition reset (outcome : string -> load_event) (e : MusicEngine)
    : MusicEngine * bool :=
  let e := stop e in
  let e := set_samplers ∅ e in
  let e := set_loadedStates (loadedStates blank) e in
  load outcome e.

End Root.

(** Several ticks in a row; [None] as soon as one of them throws. *)
Fixpoint run (tick : R -> MusicEngine -> option MusicEngine)
    (times : list R) (e : MusicEngine) : option MusicEngine :=
  match times with
  | [] => Some e
  | t :: rest =>
      match tick t e with
      | Some e' => run tick rest e'
      | None => None
      end
  end.

(** ** The specification's formulas, over the reals *)

Module Spec.

Definition clamp (x lo hi : R) : R := Rmin hi (Rmax lo x).

(** Euclidean magnitude: the square root of the sum of squares. *)
Definition magnitude (v : list R) : R :=
  sqrt (fold_right (fun x acc => x * x + acc) 0 v).

Definition tempo (v : list R) : R := clamp (60 + magnitude v * 250) 50 160.

Definition scaleDegreeIndex (val : R) : Z :=
  (Z.abs (Zfloor (tanh (val * 15) * 14)) mod 7)%Z.

Definition octaveShift (val : R) : Z := Zfloor (tanh (val * 15) * 2).

Definition velocity (val : R) : R := clamp (0.5 + val * 5) 0.25 1.

Definition threshold (base : R) (voiceIndex : nat) : R :=
  base + INR voiceIndex * 0.1.

End Spec.

(** ** Predicates and auxiliary definitions of the development *)

(** What one revision's generator yields at step [i] for a slice of reals:
    the fields the two revisions compute alike. *)
Definition step_as_specified (melody : list NoteEvent) (rs : list R)
    (i : nat) : Prop :=
  let val := nth (i mod 96) rs 0 in
  exists ev : NoteEvent,
    melody !! i = Some ev /\
    noteIndex ev = JS.Fin (IZR (Spec.scaleDegreeIndex val)) /\
    (0 <= Spec.scaleDegreeIndex val <= 6)%Z /\
    octaveShift ev = JS.Fin (IZR (Spec.octaveShift val)) /\
    velocity ev = JS.Fin (Spec.velocity val) /\
    0.25 <= Spec.velocity val <= 1.

(** The all-zeros vector. *)
Definition zeros (n : nat) : list JS.num := repeat (JS.Fin 0) n.

(** The two vectors hold the same number at the 16 indices from [b] on. *)
Definition agree_on (v w : list JS.num) (b : nat) : Prop :=
  forall i : nat, (i < 16)%nat -> JS.get v (b + i) = JS.get w (b + i).

(** A vector that is zero but at index 16, outside every window. *)
Definition off_window : list R := repeat 0 16 ++ 0.1 :: repeat 0 367.

(** The gate of step [i] with base threshold [base]. *)
Definition gate_with (base : R) (vectorSlice : list JS.num) (voiceIdx i : nat)
    : bool :=
  JS.gt (JS.abs (JS.mul (JS.get_mod vectorSlice i) (JS.Fin 25)))
        (JS.add (JS.Fin base) (JS.mul (JS.of_nat voiceIdx) (JS.Fin 0.1))).

(** What the observer [cb] received between two states. *)
Definition received_since (e e' : MusicEngine) (l : list (nat * CompositionPhase))
    : Prop :=
  notified e' = notified e ++ l.

(** Width other than 384, or a [NaN] among the elements. *)
Definition malformed (v : list JS.num) : Prop :=
  length v <> 384%nat \/ In JS.NaN v.

(** The transport state the engine keeps: the current phase, the current
    melodies, the tempo and the loop. *)
Definition transport_state (e : MusicEngine)
    : CompositionPhase * list (list NoteEvent) * JS.num * option Tone.Loop :=
  (currentPhase e, currentMelodies e, Tone.bpm (transport e), loop e).

(** The four properties of a state after [play] that hold for every
    vector: phase, observer, and the shape of the melodies. *)
Definition played (phase : CompositionPhase) (e e' : MusicEngine) : Prop :=
  currentPhase e' = phase /\
  length (currentMelodies e') = 4%nat /\
  Forall (fun melody => length melody = 16%nat) (currentMelodies e') /\
  (forall cb : nat, onPhaseChange e = Some cb ->
     received_since e e' [(cb, idle); (cb, phase)]).

(** What [play] does on any vector, for a revision given by its [stop],
    [play] and [getVoiceMelody]: the [stop] it starts with leaves the
    transport stopped and no loop, and [play] goes on from that state
    with the phase, its notification, the melodies, the tempo, a fresh
    loop and the start of the transport; the melodies are the four that
    [getVoiceMelody] gives, a step whose element is missing or [NaN]
    getting [NaN] data and a closed gate; on a vector of reals the tempo
    is the clamped magnitude. *)
Definition plays_unchecked
    (stop : MusicEngine -> MusicEngine)
    (play : list JS.num -> CompositionPhase -> MusicEngine -> MusicEngine)
    (getVoiceMelody : list JS.num -> nat -> option nat -> list NoteEvent)
    (v : list JS.num) (phase : CompositionPhase) (e : MusicEngine) : Prop :=
  let e' := play v phase e in
  (Tone.started (transport (stop e)) = false /\ loop (stop e) = None /\
   e' = Transport_start
          (set_loop (Some (Tone.mkLoop 0))
             (Transport_set_bpm
                (JS.min (JS.Fin 160)
                   (JS.max (JS.Fin 50)
                      (JS.add (JS.Fin 60)
                         (JS.mul (JS.sqrt (sumSqr v)) (JS.Fin 250)))))
                (set_currentMelodies
                   [getVoiceMelody (JS.slice 0 96 v) 0%nat None;
                    getVoiceMelody (JS.slice 96 192 v) 1%nat None;
                    getVoiceMelody (JS.slice 192 288 v) 2%nat None;
                    getVoiceMelody (JS.slice 288 384 v) 3%nat None]
                   (emit phase (set_currentPhase phase (stop e))))))) /\
  played phase e e' /\
  currentMelodies e'
  = [getVoiceMelody (JS.slice 0 96 v) 0%nat None;
     getVoiceMelody (JS.slice 96 192 v) 1%nat None;
     getVoiceMelody (JS.slice 192 288 v) 2%nat None;
     getVoiceMelody (JS.slice 288 384 v) 3%nat None] /\
  (forall (voiceIdx i : nat) (vectorSlice : list JS.num) (ev : NoteEvent),
     getVoiceMelody vectorSlice voiceIdx None !! i = Some ev ->
     JS.get_mod vectorSlice i = JS.NaN ->
     noteIndex ev = JS.NaN /\ octaveShift ev = JS.NaN /\
     gate ev = false /\ velocity ev = JS.NaN) /\
  loop e' = Some (Tone.mkLoop 0) /\
  Tone.started (transport e') = true /\
  (forall rs : list R, v = map JS.Fin rs ->
     transport_state e'
     = (phase, currentMelodies e', JS.Fin (Spec.tempo rs),
        Some (Tone.mkLoop 0))).

(** The notes a voice's two instruments hold. *)
Definition sampler_holds (e : MusicEngine) (v : string) : list Tone.note :=
  match samplers e !! v with
  | Some s => Tone.sounding (Tone.sampler_calls s)
  | None => []
  end.

Definition fallback_holds (e : MusicEngine) (v : string) : list Tone.note :=
  match fallbacks e !! v with
  | Some s => Tone.sounding (Tone.synth_calls s)
  | None => []
  end.

(** No instrument of the engine holds a note. *)
Definition silent (e : MusicEngine) : Prop :=
  forall v : string, sampler_holds e v = [] /\ fallback_holds e v = [].

(** No instrument of the engine holds more than one note. *)
Definition exclusive (e : MusicEngine) : Prop :=
  forall v : string,
    (length (sampler_holds e v) <= 1)%nat /\
    (length (fallback_holds e v) <= 1)%nat.

(** The test of [route]: the sampler exists and its readiness flag is
    set. *)
Definition Root_ready (e : MusicEngine) (v : string) : bool :=
  match samplers e !! v with
  | Some _ => default false (loadedStates e !! v)
  | None => false
  end.

(** The two calls [route] makes on the instrument it picks. *)
Definition Root_sampler_calls (time : R) (noteData : NoteEvent) (i : nat)
    : list Tone.call :=
  [Tone.releaseAll (Some time);
   Tone.triggerAttackRelease (Root.finalNote noteData i) (Root.durations !! i)
     time (velocity noteData)].

Definition Root_fallback_calls (time : R) (noteData : NoteEvent) (i : nat)
    : list Tone.call :=
  [Tone.releaseAll (Some time);
   Tone.triggerAttackRelease (Root.finalNote noteData i) (Root.durations !! i)
     time (JS.mul (velocity noteData) (JS.Fin 0.5))].

(** The test of [route]: the sampler exists and is loaded. *)
Definition Services_ready (e : MusicEngine) (v : string) : bool :=
  match samplers e !! v with
  | Some s => Tone.loaded s
  | None => false
  end.

(** The one call [route] makes on the instrument it picks. *)
Definition Services_sampler_call (time : R) (noteData : NoteEvent) (i : nat)
    : Tone.call :=
  Tone.triggerAttackRelease (Services.finalNote noteData i)
    (Services.durations !! i) time (velocity noteData).

Definition Services_fallback_call (time : R) (noteData : NoteEvent) (i : nat)
    : Tone.call :=
  Tone.triggerAttackRelease (Services.finalNote noteData i)
    (Services.durations !! i) time (JS.mul (velocity noteData) (JS.Fin 0.4)).

(** The event the callback reads for voice [i] at [step]. *)
Definition note_at (e : MusicEngine) (step i : nat) : option NoteEvent :=
  melody ← currentMelodies e !! i;
  match length melody with
  | O => None
  | S _ => melody !! (step mod length melody)%nat
  end.

(** What the callback does for one voice once the event is read. *)
Definition Services_fire (time : R) (step : nat) (noteData : NoteEvent)
    (v : string) (i : nat) (e : MusicEngine) : MusicEngine :=
  if gate noteData || (step mod 4 =? 0)%nat
  then Services.route time noteData v i e
  else e.

(** The state a tick leaves when the four events are there to be read. *)
Definition Services_ticked (time : R) (step : nat)
    (nd0 nd1 nd2 nd3 : NoteEvent) (e : MusicEngine) : MusicEngine :=
  set_loop (Some (Tone.mkLoop (S step)))
    (Services_fire time step nd3 "soprano" 3
       (Services_fire time step nd2 "alto" 2
          (Services_fire time step nd1 "tenor" 1
             (Services_fire time step nd0 "bass" 0 e)))).

(** The callback's passes over the voices that trigger, one after the
    other. *)
Fixpoint Services_route_all (time : R)
    (l : list (string * nat * NoteEvent)) (e : MusicEngine) : MusicEngine :=
  match l with
  | [] => e
  | (v, i, noteData) :: l' =>
      Services_route_all time l' (Services.route time noteData v i e)
  end.

Definition is_onload (o : load_event) : bool :=
  match o with onload => true | _ => false end.

Definition settled (o : load_event) : bool :=
  match o with pending => false | _ => true end.

(** The write a callback makes to the readiness flags. *)
Definition flag_update (o : load_event) (key : string)
    (flags : gmap string bool) : gmap string bool :=
  match o with
  | onload => <[key := true]> flags
  | onerror => <[key := false]> flags
  | pending => flags
  end.

Definition pulse_entries (nd0 nd1 nd2 nd3 : NoteEvent)
    : list (string * nat * NoteEvent) :=
  [("bass"%string, 0%nat, nd0); ("tenor"%string, 1%nat, nd1);
   ("alto"%string, 2%nat, nd2); ("soprano"%string, 3%nat, nd3)].

(** The load of the alto sample fails, the other three succeed. *)
Definition alto_fails (k : string) : load_event :=
  if String.eqb k "alto" then onerror else onload.

(** Every voice has an event to read at every step. *)
Definition tuned (e : MusicEngine) : Prop :=
  forall step i : nat, (i < 4)%nat -> is_Some (note_at e step i).

(** The loop is live at [step]. *)
Definition live_at (e : MusicEngine) (step : nat) : Prop :=
  loop e = Some (Tone.mkLoop step) /\ Tone.started (transport e) = true.

Definition Root_fire (time : R) (step : nat) (noteData : NoteEvent)
    (v : string) (i : nat) (e : MusicEngine) : MusicEngine :=
  if gate noteData || (step mod 16 =? 0)%nat
  then Root.route time noteData v i e
  else e.

(** Every gate of the current melodies is closed. *)
Definition gates_closed (e : MusicEngine) : Prop :=
  forall (step i : nat) (noteData : NoteEvent),
    note_at e step i = Some noteData -> gate noteData = false.

(** The steps from [step] on, [n] of them, on which the pulse of every
    fourth step falls. *)
Definition pulses (step n : nat) : nat :=
  length (List.filter (fun s => (s mod 4 =? 0)%nat) (seq step n)).

Definition Root_ticked (time : R) (step : nat)
    (nd0 nd1 nd2 nd3 : NoteEvent) (e : MusicEngine) : MusicEngine :=
  set_loop (Some (Tone.mkLoop (S step)))
    (Root_fire time step nd3 "soprano" 3
       (Root_fire time step nd2 "alto" 2
          (Root_fire time step nd1 "tenor" 1
             (Root_fire time step nd0 "bass" 0 e)))).

Fixpoint Root_route_all (time : R)
    (l : list (string * nat * NoteEvent)) (e : MusicEngine) : MusicEngine :=
  match l with
  | [] => e
  | (v, i, noteData) :: l' =>
      Root_route_all time l' (Root.route time noteData v i e)
  end.

(** The event the generators compute from a real [val], written with the
    specification's formulas; [base] is the revision's gate base. *)
Definition real_event (base : R) (voiceIdx : nat) (val : R) : NoteEvent :=
  {| noteIndex := JS.Fin (IZR (Spec.scaleDegreeIndex val));
     octaveShift := JS.Fin (IZR (Spec.octaveShift val));
     gate := JS.gt (JS.Fin (Rabs (val * 25)))
                   (JS.Fin (Spec.threshold base voiceIdx));
     velocity := JS.Fin (Spec.velocity val) |}.

(** The event the generators compute from [NaN] or a missing element. *)
Definition nan_event : NoteEvent :=
  {| noteIndex := JS.NaN; octaveShift := JS.NaN; gate := false;
     velocity := JS.NaN |}.

(** The two revisions, and what a caller or the transport's clock can do
    to an engine. *)
Inductive revision : Type := services | root.

Inductive action : Type :=
| call_load (outcome : string -> load_event)
| call_reset (outcome : string -> load_event)
| call_play (vector : list JS.num) (phase : CompositionPhase)
| call_stop
| call_setPhaseCallback (cb : nat)
| clock_tick (time : R).

Definition fresh (r : revision) : MusicEngine :=
  match r with services => Services.new | root => Root.new end.

(** One action on an engine of revision [r]; [None] when the loop callback
    throws. *)
Definition perform (r : revision) (a : action) (e : MusicEngine)
    : option MusicEngine :=
  match a, r with
  | call_load outcome, services => Some (Services.load outcome e).1
  | call_load outcome, root => Some (Root.load outcome e).1
  | call_reset outcome, services => Some (Services.reset outcome e).1
  | call_reset outcome, root => Some (Root.reset outcome e).1
  | call_play vector phase, services => Some (Services.play vector phase e)
  | call_play vector phase, root => Some (Root.play vector phase e)
  | call_stop, services => Some (Services.stop e)
  | call_stop, root => Some (Root.stop e)
  | call_setPhaseCallback cb, _ => Some (setPhaseCallback cb e)
  | clock_tick time, services => Services.tick time e
  | clock_tick time, root => Root.tick time e
  end.

Fixpoint perform_all (r : revision) (l : list action) (e : MusicEngine)
    : option MusicEngine :=
  match l with
  | [] => Some e
  | a :: l' =>
      match perform r a e with
      | Some e' => perform_all r l' e'
      | None => None
      end
  end.

(** The loop, the transport and the phase agree: without a loop the phase
    is idle and the transport stopped; with one the transport runs and
    every voice has an event to read at every step. *)
Definition consistent (e : MusicEngine) : Prop :=
  match loop e with
  | None => currentPhase e = idle /\ Tone.started (transport e) = false
  | Some _ => Tone.started (transport e) = true /\ tuned e
  end.

(** The observer [cb] is the registered one and the last phase it was
    told, if it was told any, is the current one. *)
Definition in_sync (cb : nat) (e : MusicEngine) : Prop :=
  onPhaseChange e = Some cb /\
  ((notified e = [] /\ currentPhase e = idle) \/
   exists earlier, notified e = earlier ++ [(cb, currentPhase e)]).

Definition registers (a : action) : bool :=
  match a with call_setPhaseCallback _ => true | _ => false end.

(** The fields no tick writes. *)
Definition untouched (e e' : MusicEngine) : Prop :=
  currentMelodies e' = currentMelodies e /\
  currentPhase e' = currentPhase e /\
  notified e' = notified e /\
  onPhaseChange e' = onPhaseChange e /\
  transport e' = transport e /\
  loadedStates e' = loadedStates e /\
  isInitialized e' = isInitialized e.

(** What [reset] leaves of an engine, in terms of a stop function whose
    result [stopped] it starts from. *)
Definition rebuilt (outcome : string -> load_event) (stopped e' : MusicEngine)
    : Prop :=
  currentPhase e' = idle /\ loop e' = None /\
  Tone.started (transport e') = false /\
  fallbacks e' = fallbacks stopped /\
  (forall k : string, In k voices ->
     loadedStates e' !! k = Some (is_onload (outcome k)) /\
     exists config : string * string,
       samplers e' !! k
       = Some (Tone.mkSampler config (is_onload (outcome k)) [])) /\
  (forall k : string, ~ In k voices -> samplers e' !! k = None).


(** The four events the callback reads at [step]. *)
Definition events_at (e : MusicEngine) (step : nat)
    (nd0 nd1 nd2 nd3 : NoteEvent) : Prop :=
  note_at e step 0 = Some nd0 /\ note_at e step 1 = Some nd1 /\
  note_at e step 2 = Some nd2 /\ note_at e step 3 = Some nd3.

(** The calls made so far on the two instruments of a voice. *)
Definition sampler_history (e : MusicEngine) (k : string) : list Tone.call :=
  match samplers e !! k with
  | Some s => Tone.sampler_calls s
  | None => []
  end.

Definition fallback_history (e : MusicEngine) (k : string) : list Tone.call :=
  match fallbacks e !! k with
  | Some s => Tone.synth_calls s
  | None => []
  end.

(** The calls one tick at [step] makes for voice [k], number [i], reading
    the event [noteData]: on the sampler (first component) and on the
    fallback (second component). *)
Definition voice_calls (r : revision) (time : R) (step : nat)
    (noteData : NoteEvent) (k : string) (i : nat) (e : MusicEngine)
    : list Tone.call * list Tone.call :=
  match r with
  | services =>
      if gate noteData || (step mod 4 =? 0)%nat then
        if Services_ready e k then
          ([Services_sampler_call time noteData i], [])
        else
          match fallbacks e !! k with
          | Some _ => ([], [Services_fallback_call time noteData i])
          | None => ([], [])
          end
      else ([], [])
  | root =>
      if gate noteData || (step mod 16 =? 0)%nat then
        if Root_ready e k then (Root_sampler_calls time noteData i, [])
        else
          match fallbacks e !! k with
          | Some _ => ([], Root_fallback_calls time noteData i)
          | None => ([], [])
          end
      else ([], [])
  end.

(** Every melody has the sixteen events [play] generates. *)
Definition sixteen_steps (e : MusicEngine) : Prop :=
  Forall (fun melody : list NoteEvent => length melody = 16%nat)
         (currentMelodies e).

(** What the calls for a voice depend on. *)
Definition same_voice (k : string) (e e' : MusicEngine) : Prop :=
  samplers e' !! k = samplers e !! k /\
  fallbacks e' !! k = fallbacks e !! k /\
  loadedStates e' !! k = loadedStates e !! k.

(** ** The landmark service ([types.ts], [wikipediaService.ts])

    Strings are sequences of characters; text outside ASCII, whose length
    JavaScript counts in UTF-16 code units, is outside the model.  The
    network is the pair of functions [fetch_geo] and [fetch_extracts]
    from what varies in the request to the parsed body of the answer,
    [None] when [fetch] or [json] rejects. *)

Record WikiArticle : Type := mkWikiArticle {
  pageid : JS.num;
  title : string;
  dist : JS.num;
  lat : JS.num;
  lon : JS.num;
  extract : option string
}.

Record Location : Type := mkLocation {
  latitude : JS.num;
  longitude : JS.num
}.

(** [a === b] on numbers. *)
Definition strict_eq (a b : JS.num) : bool :=
  match a, b with
  | JS.Fin x, JS.Fin y => if Req_dec_T x y then true else false
  | _, _ => false
  end.

(** [a || b] on an optional string: [undefined] and the empty string are
    falsy. *)
Definition or_else (a : option string) (b : string) : string :=
  match a with
  | Some (String c s) => String c s
  | _ => b
  end.

Module Wiki.

(** The body of the geosearch answer, as far as the code reads it:
    [data.query] and [data.query.geosearch], each possibly missing. *)
Record GeoQuery : Type := mkGeoQuery {
  geosearch : option (list WikiArticle)
}.

Record GeoData : Type := mkGeoData {
  geo_query : option GeoQuery
}.

(** The body of the extracts answer: [extractData.query.pages], an object
    keyed by page id whose entries may carry an [extract]. *)
Record Page : Type := mkPage {
  page_extract : option string
}.

Record ExtractQuery : Type := mkExtractQuery {
  pages : option (JS.num -> option Page)
}.

Record ExtractData : Type := mkExtractData {
  extract_query : option ExtractQuery
}.

Definition placeholder : string := "No information available.".

(** The callback of the final [articles.map]; [None] is the [TypeError]
    of reading [pages] of a missing [query], or an entry of missing
    [pages]. *)
Definition with_extract (extractData : ExtractData) (article : WikiArticle)
    : option WikiArticle :=
  query ← extract_query extractData;
  entries ← pages query;
  let found := match entries (pageid article) with
               | Some page => page_extract page
               | None => None
               end in
  Some {| pageid := pageid article; title := title article;
          dist := dist article; lat := lat article; lon := lon article;
          extract := Some (or_else found placeholder) |}.

(** [getNearbyLandmarks]; [None] when the promise it returns rejects.
    The second request carries the page ids, in order. *)
Definition getNearbyLandmarks
    (fetch_geo : Location -> option GeoData)
    (fetch_extracts : list JS.num -> option ExtractData)
    (loc : Location) : option (list WikiArticle) :=
  data ← fetch_geo loc;
  match geo_query data with
  | None => Some []
  | Some query =>
      match geosearch query with
      | None => Some []
      | Some articles =>
          let pageIds := map pageid articles in
          extractData ← fetch_extracts pageIds;
          mapM (with_extract extractData) articles
      end
  end.

End Wiki.

(** ** The component's handlers ([App.tsx])

    The component's state is the record [AppState], together with the
    engine it imports from [services/musicEngine.ts].  A handler runs on
    the state the previous one left (the component has rendered in
    between) and to its end before the next one starts.  [playingPhase]
    is what [setPlayingPhase], the observer the component registers when
    it mounts, was last called with, [idle] before any call.
    [getEmbedding] and [calculateDifference], of the embedding service,
    are parameters; [None] is a rejected promise or a throw. *)

Module Selection.
Record t : Type := mk {
  start : option WikiArticle;
  end_ : option WikiArticle
}.
End Selection.

Module Embeddings.
Record t : Type := mk {
  start : option (list JS.num);
  end_ : option (list JS.num);
  diff : option (list JS.num)
}.
End Embeddings.

Record AppState : Type := mkAppState {
  selection : Selection.t;
  engineInitialized : bool;
  isGenerating : bool;
  error : option string;
  embeddings : Embeddings.t;
  engine : MusicEngine
}.

Definition setSelection (x : Selection.t) (w : AppState) : AppState :=
  {| selection := x; engineInitialized := engineInitialized w;
     isGenerating := isGenerating w; error := error w;
     embeddings := embeddings w; engine := engine w |}.

Definition setEngineInitialized (x : bool) (w : AppState) : AppState :=
  {| selection := selection w; engineInitialized := x;
     isGenerating := isGenerating w; error := error w;
     embeddings := embeddings w; engine := engine w |}.

Definition setIsGenerating (x : bool) (w : AppState) : AppState :=
  {| selection := selection w; engineInitialized := engineInitialized w;
     isGenerating := x; error := error w;
     embeddings := embeddings w; engine := engine w |}.

Definition setError (x : option string) (w : AppState) : AppState :=
  {| selection := selection w; engineInitialized := engineInitialized w;
     isGenerating := isGenerating w; error := x;
     embeddings := embeddings w; engine := engine w |}.

Definition setEmbeddings (x : Embeddings.t) (w : AppState) : AppState :=
  {| selection := selection w; engineInitialized := engineInitialized w;
     isGenerating := isGenerating w; error := error w;
     embeddings := x; engine := engine w |}.

(** A call on the imported engine. *)
Definition on_engine (f : MusicEngine -> MusicEngine) (w : AppState)
    : AppState :=
  {| selection := selection w; engineInitialized := engineInitialized w;
     isGenerating := isGenerating w; error := error w;
     embeddings := embeddings w; engine := f (engine w) |}.

(** The observer the component registers, and the state it writes. *)
Definition setPlayingPhase : nat := 0%nat.

Definition told (shown : CompositionPhase) (n : nat * CompositionPhase)
    : CompositionPhase :=
  if (n.1 =? setPlayingPhase)%nat then n.2 else shown.

Definition playingPhase (w : AppState) : CompositionPhase :=
  foldl told idle (notified (engine w)).

Definition is_idle (phase : CompositionPhase) : bool :=
  match phase with idle => true | _ => false end.

Definition phase_eqb (a b : CompositionPhase) : bool :=
  match a, b with
  | start, start | traversal, traversal | end_, end_ | idle, idle => true
  | _, _ => false
  end.

Definition no_embeddings : Embeddings.t := Embeddings.mk None None None.

(** [handleInitAudio]; the flag tells whether its promise settles, which
    it does when that of [engine.load] does. *)
Definition handleInitAudio (outcome : string -> load_event) (w : AppState)
    : AppState * bool :=
  let loaded := Services.load outcome (engine w) in
  let w := on_engine (fun _ => loaded.1) w in
  if loaded.2 then (setEngineInitialized true w, true) else (w, false).

(** The text [handleCompose] embeds for an article. *)
Definition text_of (article : WikiArticle) : string :=
  match extract article with
  | Some (String c s) =>
      if (30 <? String.length (String c s))%nat then String c s
      else title article
  | _ => title article
  end.

Section Handlers.

Variable getEmbedding : string -> option (list JS.num).
Variable calculateDifference :
  list JS.num -> list JS.num -> option (list JS.num).

Definition handleCompose (outcome : string -> load_event) (w : AppState)
    : AppState :=
  match Selection.start (selection w), Selection.end_ (selection w) with
  | Some first, Some second =>
      let shown := playingPhase w in
      let ready := engineInitialized w in
      let w := setError None (setIsGenerating true w) in
      let '(w, settled) :=
        if ready then (w, true) else handleInitAudio outcome w in
      if settled then
        match getEmbedding (text_of first), getEmbedding (text_of second) with
        | Some embA, Some embB =>
            match calculateDifference embA embB with
            | Some diff =>
                let w := setEmbeddings
                           (Embeddings.mk (Some embA) (Some embB) (Some diff))
                           w in
                let w := if is_idle shown then w
                         else on_engine Services.stop w in
                setIsGenerating false w
            | None =>
                setIsGenerating false
                  (setError (Some "Semantic analysis failed."%string) w)
            end
        | _, _ =>
            setIsGenerating false
              (setError (Some "Semantic analysis failed."%string) w)
        end
      else w
  | _, _ => w
  end.

End Handlers.

(** The vector [togglePlayback] picks for a phase. *)
Definition vector_for (phase : CompositionPhase) (x : Embeddings.t)
    : option (list JS.num) :=
  match phase with
  | start => Embeddings.start x
  | end_ => Embeddings.end_ x
  | _ => Embeddings.diff x
  end.

Definition togglePlayback (outcome : string -> load_event)
    (phase : CompositionPhase) (w : AppState) : AppState :=
  if phase_eqb (playingPhase w) phase then on_engine Services.stop w
  else
    let vec := vector_for phase (embeddings w) in
    match vec with
    | Some vec =>
        let '(w, settled) :=
          if engineInitialized w then (w, true)
          else handleInitAudio outcome w in
        if settled then on_engine (Services.play vec phase) w else w
    | None => w
    end.

Definition handleSelect (l : WikiArticle) (w : AppState) : AppState :=
  let shown := playingPhase w in
  let chosen := selection w in
  let w :=
    match Selection.start chosen with
    | None => setSelection (Selection.mk (Some l) (Selection.end_ chosen)) w
    | Some first =>
        if strict_eq (pageid first) (pageid l)
        then setSelection (Selection.mk None (Selection.end_ chosen)) w
        else
          match Selection.end_ chosen with
          | None =>
              setSelection (Selection.mk (Selection.start chosen) (Some l)) w
          | Some second =>
              if strict_eq (pageid second) (pageid l)
              then setSelection (Selection.mk (Selection.start chosen) None) w
              else setSelection (Selection.mk (Some l) None) w
          end
    end in
  let w := setEmbeddings no_embeddings w in
  if is_idle shown then w else on_engine Services.stop w.

(** What the user and the clock can do. *)
Inductive click : Type :=
| click_article (l : WikiArticle)
| click_compose (outcome : string -> load_event)
| click_play (phase : CompositionPhase) (outcome : string -> load_event)
| click_stop
| click_resync (outcome : string -> load_event)
| click_clear
| transport_tick (time : R).

Section Session.

Variable getEmbedding : string -> option (list JS.num).
Variable calculateDifference :
  list JS.num -> list JS.num -> option (list JS.num).

(** One event; [None] when the loop callback throws. *)
Definition handle (c : click) (w : AppState) : option AppState :=
  match c with
  | click_article l => Some (handleSelect l w)
  | click_compose outcome =>
      Some (handleCompose getEmbedding calculateDifference outcome w)
  | click_play phase outcome => Some (togglePlayback outcome phase w)
  | click_stop => Some (on_engine Services.stop w)
  | click_resync outcome =>
      Some (on_engine (fun e => (Services.reset outcome e).1) w)
  | click_clear => Some (setEmbeddings no_embeddings w)
  | transport_tick time =>
      e ← Services.tick time (engine w);
      Some (on_engine (fun _ => e) w)
  end.

Fixpoint session (clicks : list click) (w : AppState) : option AppState :=
  match clicks with
  | [] => Some w
  | c :: clicks' =>
      match handle c w with
      | Some w' => session clicks' w'
      | None => None
      end
  end.

End Session.

(** The phases the component has a play button for. *)
Definition offered (c : click) : bool :=
  match c with
  | click_play phase _ => negb (is_idle phase)
  | _ => true
  end.

(** The component as it mounts: nothing selected or embedded, the audio
    not initialized, and [setPlayingPhase] registered on the engine the
    module built. *)
Definition mounted (w : AppState) : Prop :=
  selection w = Selection.mk None None /\
  embeddings w = no_embeddings /\
  engineInitialized w = false /\
  engine w = setPhaseCallback setPlayingPhase Services.new.

(** What is shown is what plays: the displayed phase is the engine's, it
    is idle exactly when there is no loop, and the loop, the transport
    and the melodies agree. *)
Definition stepped (e : MusicEngine) : Prop :=
  in_sync setPlayingPhase e /\
  consistent e /\
  (currentPhase e = idle -> loop e = None).

Definition in_step (w : AppState) : Prop := stepped (engine w).

Definition mount : AppState :=
  {| selection := Selection.mk None None; engineInitialized := false;
     isGenerating := false; error := None; embeddings := no_embeddings;
     engine := setPhaseCallback setPlayingPhase Services.new |}.

(** The four melodies [play] generates from a vector. *)
Definition melodies_of (v : list JS.num) : list (list NoteEvent) :=
  [Services.getVoiceMelody (JS.slice 0 96 v) 0 None;
   Services.getVoiceMelody (JS.slice 96 192 v) 1 None;
   Services.getVoiceMelody (JS.slice 192 288 v) 2 None;
   Services.getVoiceMelody (JS.slice 288 384 v) 3 None].

(** Every sample settles, loaded or failed. *)
Definition all_settle (outcome : string -> load_event) : Prop :=
  forall k : string, In k voices -> outcome k <> pending.

(** Two articles and two answers of the network, for examples. *)
Definition tower : WikiArticle :=
  mkWikiArticle (JS.Fin 1) "Tower" (JS.Fin 120) (JS.Fin 51.5) (JS.Fin 0) None.

Definition bridge : WikiArticle :=
  mkWikiArticle (JS.Fin 2) "Bridge" (JS.Fin 300) (JS.Fin 51.5) (JS.Fin 0)
    None.

Definition geo_answer (_ : Location) : option Wiki.GeoData :=
  Some (Wiki.mkGeoData (Some (Wiki.mkGeoQuery (Some [tower; bridge])))).

Definition extracts_answer (_ : list JS.num) : option Wiki.ExtractData :=
  Some (Wiki.mkExtractData
          (Some (Wiki.mkExtractQuery (Some (fun _ => None))))).

(** Every voice has its fallback synth. *)
Definition fallbacks_present (e : MusicEngine) : Prop :=
  forall k : string, In k voices -> is_Some (fallbacks e !! k).

(** The pulse's period, and the calls one trigger makes, by revision. *)
Definition pulse_every (r : revision) : nat :=
  match r with services => 4%nat | root => 16%nat end.

Definition calls_per_trigger (r : revision) : nat :=
  match r with services => 1%nat | root => 2%nat end.

(** ** Facts about the number model *)

Section NumberFacts.

Lemma Zfloor_IZR_div (a b : Z) :
  (0 < b)%Z -> Zfloor (IZR a / IZR b) = (a / b)%Z.
Proof.
  intros Hb. apply Zfloor_eq.
  assert (Hb' : 0 < IZR b) by (apply IZR_lt; lia).
  pose proof (Z.div_mod a b ltac:(lia)) as Hdm.
  pose proof (Z.mod_pos_bound a b Hb) as [Hlo Hhi].
  assert (Ha : IZR a = IZR b * IZR (a / b) + IZR (a mod b)).
  { rewrite <- mult_IZR, <- plus_IZR. f_equal. exact Hdm. }
  apply IZR_le in Hlo. apply IZR_lt in Hhi.
  split.
  - apply Rmult_le_reg_l with (IZR b); [exact Hb'|].
    replace (IZR b * (IZR a / IZR b)) with (IZR a) by (field; lra). lra.
  - apply Rmult_lt_reg_l with (IZR b); [exact Hb'|].
    replace (IZR b * (IZR a / IZR b)) with (IZR a) by (field; lra). lra.
Qed.

Lemma rem_nonneg_int (a b : Z) :
  (0 <= a)%Z -> (0 < b)%Z ->
  JS.rem (JS.Fin (IZR a)) (JS.Fin (IZR b)) = JS.Fin (IZR (a mod b)).
Proof.
  intros Ha Hb. unfold JS.rem.
  assert (Hb' : 0 < IZR b) by (apply IZR_lt; lia).
  destruct (Req_dec_T (IZR b) 0) as [E|_]; [lra|].
  f_equal. unfold JS.Ztrunc.
  destruct (Rle_dec 0 (IZR a / IZR b)) as [_|Hneg].
  - rewrite Zfloor_IZR_div by exact Hb.
    rewrite <- mult_IZR, <- minus_IZR. f_equal.
    symmetry. apply Z.mod_eq. lia.
  - exfalso. apply Hneg. apply Rmult_le_pos.
    + apply IZR_le. exact Ha.
    + apply Rlt_le, Rinv_0_lt_compat. exact Hb'.
Qed.

Lemma abs_floor (x : R) :
  JS.abs (JS.floor (JS.Fin x)) = JS.Fin (IZR (Z.abs (Zfloor x))).
Proof. simpl. f_equal. symmetry. apply abs_IZR. Qed.

Lemma scale_length : JS.of_nat (length scale) = JS.Fin (IZR 7).
Proof. unfold JS.of_nat. simpl length. f_equal. simpl. lra. Qed.

Lemma clamp_bounds (x lo hi : R) :
  lo <= hi -> lo <= Spec.clamp x lo hi <= hi.
Proof.
  intros H. unfold Spec.clamp, Rmin, Rmax.
  destruct (Rle_dec lo x); destruct (Rle_dec hi _); lra.
Qed.

Lemma clamp_mono (x y lo hi : R) :
  x <= y -> Spec.clamp x lo hi <= Spec.clamp y lo hi.
Proof.
  intros H. unfold Spec.clamp, Rmax.
  destruct (Rle_dec lo x), (Rle_dec lo y); unfold Rmin;
    repeat match goal with
           | |- context [Rle_dec ?a ?b] => destruct (Rle_dec a b)
           end; lra.
Qed.

Lemma gt_Fin (a b : R) : JS.gt (JS.Fin a) (JS.Fin b) = true <-> a > b.
Proof.
  simpl. destruct (Rlt_dec b a); split; intros;
    first [reflexivity | discriminate | lra].
Qed.

Lemma gt_Fin_false (a b : R) : JS.gt (JS.Fin a) (JS.Fin b) = false <-> a <= b.
Proof.
  simpl. destruct (Rlt_dec b a); split; intros;
    first [reflexivity | discriminate | lra].
Qed.

(** Reading a slice of reals. *)
Lemma get_mod_reals (rs : list R) (i : nat) :
  rs <> [] ->
  JS.get_mod (map JS.Fin rs) i = JS.Fin (nth (i mod length rs) rs 0).
Proof.
  intros Hne. unfold JS.get_mod, JS.get. rewrite length_map.
  destruct rs as [|r rs']; [congruence|].
  change (length (r :: rs')) with (S (length rs')).
  cbv match.
  set (k := (i mod S (length rs'))%nat).
  change (JS.NaN) with (JS.NaN).
  rewrite <- (map_nth JS.Fin (r :: rs') 0 k).
  apply nth_indep. rewrite length_map. simpl.
  subst k. apply Nat.mod_upper_bound. lia.
Qed.

(** [sumSqr] on reals is the sum of squares. *)
Lemma sumSqr_reals_from (rs : list R) (acc : R) :
  foldl (fun acc v => JS.add acc (JS.mul v v)) (JS.Fin acc) (map JS.Fin rs)
  = JS.Fin (acc + fold_right (fun x s => x * x + s) 0 rs).
Proof.
  revert acc. induction rs as [|r rs IH]; intros acc; simpl.
  - f_equal. lra.
  - rewrite IH. f_equal. lra.
Qed.

Lemma sumSqr_reals (rs : list R) :
  sumSqr (map JS.Fin rs) = JS.Fin (fold_right (fun x s => x * x + s) 0 rs).
Proof.
  unfold sumSqr. rewrite sumSqr_reals_from. f_equal. lra.
Qed.

Lemma sum_squares_nonneg (rs : list R) :
  0 <= fold_right (fun x s => x * x + s) 0 rs.
Proof.
  induction rs as [|r rs IH]; simpl; [lra|]. nra.
Qed.

Lemma sqrt_sumSqr_reals (rs : list R) :
  JS.sqrt (sumSqr (map JS.Fin rs)) = JS.Fin (Spec.magnitude rs).
Proof.
  rewrite sumSqr_reals. unfold JS.sqrt, Spec.magnitude.
  destruct (Rle_dec 0 _) as [_|H]; [reflexivity|].
  exfalso. apply H, sum_squares_nonneg.
Qed.

End NumberFacts.

(** ** Melody generation *)

Section Melody.

Lemma lookup_map_seq {A : Type} (f : nat -> A) (s n i : nat) :
  (i < n)%nat -> map f (seq s n) !! i = Some (f (s + i)%nat).
Proof.
  revert s i. induction n as [|n IH]; intros s i Hi; [lia|].
  destruct i as [|i]; simpl.
  - f_equal. f_equal. lia.
  - rewrite IH by lia. f_equal. f_equal. lia.
Qed.

Lemma noteIndex_real (val : R) :
  JS.rem
    (JS.abs (JS.floor (JS.mul (JS.tanh (JS.mul (JS.Fin val) (JS.Fin 15)))
                              (JS.Fin 14))))
    (JS.of_nat (length scale))
  = JS.Fin (IZR (Spec.scaleDegreeIndex val)).
Proof.
  rewrite scale_length.
  change (JS.mul (JS.tanh (JS.mul (JS.Fin val) (JS.Fin 15))) (JS.Fin 14))
    with (JS.Fin (tanh (val * 15) * 14)).
  rewrite abs_floor. rewrite rem_nonneg_int by lia. reflexivity.
Qed.

Lemma velocity_real (val : R) :
  JS.min (JS.Fin 1)
    (JS.max (JS.Fin 0.25) (JS.add (JS.Fin 0.5) (JS.mul (JS.Fin val) (JS.Fin 5))))
  = JS.Fin (Spec.velocity val).
Proof. reflexivity. Qed.

Lemma scaleDegreeIndex_range (val : R) :
  (0 <= Spec.scaleDegreeIndex val <= 6)%Z.
Proof.
  unfold Spec.scaleDegreeIndex.
  pose proof (Z.mod_pos_bound (Z.abs (Zfloor (tanh (val * 15) * 14))) 7
                ltac:(lia)).
  lia.
Qed.

Lemma velocity_range (val : R) : 0.25 <= Spec.velocity val <= 1.
Proof. unfold Spec.velocity. apply clamp_bounds. lra. Qed.

Lemma Services_step (rs : list R) (voiceIdx i : nat) :
  length rs = 96%nat -> (i < 16)%nat ->
  step_as_specified (Services.getVoiceMelody (map JS.Fin rs) voiceIdx None) rs i.
Proof.
  intros Hlen Hi. unfold step_as_specified, Services.getVoiceMelody.
  simpl default. rewrite lookup_map_seq by exact Hi. simpl Nat.add.
  eexists. split; [reflexivity|]. cbn [noteIndex octaveShift velocity].
  rewrite get_mod_reals by (intros ->; discriminate). rewrite Hlen.
  rewrite noteIndex_real, velocity_real.
  repeat split; try reflexivity;
    first [apply scaleDegreeIndex_range | apply velocity_range].
Qed.

Lemma Root_step (rs : list R) (voiceIdx i : nat) :
  length rs = 96%nat -> (i < 16)%nat ->
  step_as_specified (Root.getVoiceMelody (map JS.Fin rs) voiceIdx None) rs i.
Proof.
  intros Hlen Hi. unfold step_as_specified, Root.getVoiceMelody.
  simpl default. rewrite lookup_map_seq by exact Hi. simpl Nat.add.
  eexists. split; [reflexivity|]. cbn [noteIndex octaveShift velocity].
  rewrite get_mod_reals by (intros ->; discriminate). rewrite Hlen.
  rewrite noteIndex_real, velocity_real.
  repeat split; try reflexivity;
    first [apply scaleDegreeIndex_range | apply velocity_range].
Qed.

(** C2.  For a slice of 96 reals and a voice index in [0,3], the melody
    generator called with the default step count (in either revision)
    returns exactly 16 note events, and the event of step [i], computed
    from [val = slice[i mod 96]], has scale degree
    [|floor(tanh(val*15)*14)| mod 7], which lies in [0,6], octave shift
    [floor(tanh(val*15)*2)] and velocity [clamp(0.5+val*5, 0.25, 1)],
    which lies in [0.25,1]. *)
Theorem getVoiceMelody_sixteen_events (rs : list R) (voiceIndex : nat)
    (Hlen : length rs = 96%nat) (Hvoice : (voiceIndex <= 3)%nat) :
  (length (Services.getVoiceMelody (map JS.Fin rs) voiceIndex None) = 16%nat /\
   forall i : nat, (i < 16)%nat ->
     step_as_specified
       (Services.getVoiceMelody (map JS.Fin rs) voiceIndex None) rs i) /\
  (length (Root.getVoiceMelody (map JS.Fin rs) voiceIndex None) = 16%nat /\
   forall i : nat, (i < 16)%nat ->
     step_as_specified
       (Root.getVoiceMelody (map JS.Fin rs) voiceIndex None) rs i).
Proof.
  split; split.
  - unfold Services.getVoiceMelody. rewrite length_map, length_seq. reflexivity.
  - intros i Hi. apply Services_step; assumption.
  - unfold Root.getVoiceMelody. rewrite length_map, length_seq. reflexivity.
  - intros i Hi. apply Root_step; assumption.
Qed.

Lemma getVoiceMelody_sixteen_events_witness :
  length (repeat 0 96) = 96%nat /\
  length (Services.getVoiceMelody (map JS.Fin (repeat 0 96)) 2 None) = 16%nat.
Proof.
  split; [reflexivity|].
  apply (getVoiceMelody_sixteen_events (repeat 0 96) 2); [reflexivity | lia].
Defined.

End Melody.

(** ** Gating *)

Section Gate.

Lemma Services_gate_lookup (rs : list R) (voiceIdx i : nat) :
  length rs = 96%nat -> (i < 16)%nat ->
  exists ev : NoteEvent,
    Services.getVoiceMelody (map JS.Fin rs) voiceIdx None !! i = Some ev /\
    gate ev = JS.gt (JS.Fin (Rabs (nth (i mod 96) rs 0 * 25)))
                    (JS.Fin (Spec.threshold 0.4 voiceIdx)).
Proof.
  intros Hlen Hi. unfold Services.getVoiceMelody. simpl default.
  rewrite lookup_map_seq by exact Hi. simpl Nat.add.
  eexists. split; [reflexivity|]. cbn [gate].
  rewrite get_mod_reals by (intros ->; discriminate). rewrite Hlen.
  reflexivity.
Qed.

Lemma Root_gate_lookup (rs : list R) (voiceIdx i : nat) :
  length rs = 96%nat -> (i < 16)%nat ->
  exists ev : NoteEvent,
    Root.getVoiceMelody (map JS.Fin rs) voiceIdx None !! i = Some ev /\
    gate ev = JS.gt (JS.Fin (Rabs (nth (i mod 96) rs 0 * 25)))
                    (JS.Fin (Spec.threshold 0.5 voiceIdx)).
Proof.
  intros Hlen Hi. unfold Root.getVoiceMelody. simpl default.
  rewrite lookup_map_seq by exact Hi. simpl Nat.add.
  eexists. split; [reflexivity|]. cbn [gate].
  rewrite get_mod_reals by (intros ->; discriminate). rewrite Hlen.
  reflexivity.
Qed.

Lemma zeros_slices :
  JS.slice 0 96 (zeros 384) = map JS.Fin (repeat 0 96) /\
  JS.slice 96 192 (zeros 384) = map JS.Fin (repeat 0 96) /\
  JS.slice 192 288 (zeros 384) = map JS.Fin (repeat 0 96) /\
  JS.slice 288 384 (zeros 384) = map JS.Fin (repeat 0 96).
Proof. repeat split; vm_compute; reflexivity. Qed.

Lemma Services_zero_melody_silent (voiceIdx : nat) (ev : NoteEvent) :
  In ev (Services.getVoiceMelody (map JS.Fin (repeat 0 96)) voiceIdx None) ->
  gate ev = false.
Proof.
  unfold Services.getVoiceMelody. intros Hin.
  apply in_map_iff in Hin as (i & <- & _). cbn [gate].
  rewrite get_mod_reals by discriminate.
  rewrite nth_repeat. apply gt_Fin_false.
  replace (0 * 25) with 0 by lra. rewrite Rabs_R0.
  pose proof (pos_INR voiceIdx). lra.
Qed.

Lemma Root_zero_melody_silent (voiceIdx : nat) (ev : NoteEvent) :
  In ev (Root.getVoiceMelody (map JS.Fin (repeat 0 96)) voiceIdx None) ->
  gate ev = false.
Proof.
  unfold Root.getVoiceMelody. intros Hin.
  apply in_map_iff in Hin as (i & <- & _). cbn [gate].
  rewrite get_mod_reals by discriminate.
  rewrite nth_repeat. apply gt_Fin_false.
  replace (0 * 25) with 0 by lra. rewrite Rabs_R0.
  pose proof (pos_INR voiceIdx). lra.
Qed.

Lemma Services_play_melodies (vector : list JS.num) (phase : CompositionPhase)
    (e : MusicEngine) :
  currentMelodies (Services.play vector phase e) =
  [Services.getVoiceMelody (JS.slice 0 96 vector) 0 None;
   Services.getVoiceMelody (JS.slice 96 192 vector) 1 None;
   Services.getVoiceMelody (JS.slice 192 288 vector) 2 None;
   Services.getVoiceMelody (JS.slice 288 384 vector) 3 None].
Proof. reflexivity. Qed.

Lemma Root_play_melodies (vector : list JS.num) (phase : CompositionPhase)
    (e : MusicEngine) :
  currentMelodies (Root.play vector phase e) =
  [Root.getVoiceMelody (JS.slice 0 96 vector) 0 None;
   Root.getVoiceMelody (JS.slice 96 192 vector) 1 None;
   Root.getVoiceMelody (JS.slice 192 288 vector) 2 None;
   Root.getVoiceMelody (JS.slice 288 384 vector) 3 None].
Proof. reflexivity. Qed.

Lemma Root_play_zeros_silent (phase : CompositionPhase) (e : MusicEngine)
    (melody : list NoteEvent) (ev : NoteEvent) :
  In melody (currentMelodies (Root.play (zeros 384) phase e)) ->
  In ev melody -> gate ev = false.
Proof.
  intros Hm Hev. rewrite Root_play_melodies in Hm.
  destruct zeros_slices as (H0 & H1 & H2 & H3).
  rewrite H0, H1, H2, H3 in Hm. simpl in Hm.
  destruct Hm as [<-|[<-|[<-|[<-|[]]]]];
    eapply Root_zero_melody_silent; exact Hev.
Qed.

Lemma Services_play_zeros_silent (phase : CompositionPhase) (e : MusicEngine)
    (melody : list NoteEvent) (ev : NoteEvent) :
  In melody (currentMelodies (Services.play (zeros 384) phase e)) ->
  In ev melody -> gate ev = false.
Proof.
  intros Hm Hev. rewrite Services_play_melodies in Hm.
  destruct zeros_slices as (H0 & H1 & H2 & H3).
  rewrite H0, H1, H2, H3 in Hm. simpl in Hm.
  destruct Hm as [<-|[<-|[<-|[<-|[]]]]];
    eapply Services_zero_melody_silent; exact Hev.
Qed.

(** C4, as the code has it.  For a slice of 96 reals, a voice index in
    [0,3] and a step [i] with [val = slice[i mod 96]], the generated
    event's gate is true exactly when [|val * 25|] exceeds
    [base + voiceIndex * 0.1], where the base is 0.4 in
    [services/musicEngine.ts] and 0.5 in [musicEngine.ts]; either
    threshold rises with the voice index; and in both revisions, for the
    all-zeros vector, every event of every voice's melody has a false
    gate. *)
Theorem gate_threshold_by_revision (rs : list R) (voiceIndex i : nat)
    (Hlen : length rs = 96%nat) (Hvoice : (voiceIndex <= 3)%nat)
    (Hstep : (i < 16)%nat) :
  (exists ev : NoteEvent,
     Services.getVoiceMelody (map JS.Fin rs) voiceIndex None !! i = Some ev /\
     (gate ev = true <->
      Rabs (nth (i mod 96) rs 0 * 25) > 0.4 + INR voiceIndex * 0.1)) /\
  (exists ev : NoteEvent,
     Root.getVoiceMelody (map JS.Fin rs) voiceIndex None !! i = Some ev /\
     (gate ev = true <->
      Rabs (nth (i mod 96) rs 0 * 25) > 0.5 + INR voiceIndex * 0.1)) /\
  Spec.threshold 0.4 voiceIndex < Spec.threshold 0.4 (S voiceIndex) /\
  Spec.threshold 0.5 voiceIndex < Spec.threshold 0.5 (S voiceIndex) /\
  (forall (phase : CompositionPhase) (e : MusicEngine)
          (melody : list NoteEvent) (ev : NoteEvent),
     In melody (currentMelodies (Services.play (zeros 384) phase e)) \/
     In melody (currentMelodies (Root.play (zeros 384) phase e)) ->
     In ev melody -> gate ev = false).
Proof.
  split; [|split; [|split; [|split]]].
  - destruct (Services_gate_lookup rs voiceIndex i Hlen Hstep) as (ev & Hev & Hg).
    exists ev. split; [exact Hev|]. rewrite Hg. apply gt_Fin.
  - destruct (Root_gate_lookup rs voiceIndex i Hlen Hstep) as (ev & Hev & Hg).
    exists ev. split; [exact Hev|]. rewrite Hg. apply gt_Fin.
  - unfold Spec.threshold. rewrite S_INR. lra.
  - unfold Spec.threshold. rewrite S_INR. lra.
  - intros phase e melody ev [Hm|Hm] Hev.
    + exact (Services_play_zeros_silent phase e melody ev Hm Hev).
    + exact (Root_play_zeros_silent phase e melody ev Hm Hev).
Qed.

Lemma gate_threshold_by_revision_witness :
  exists ev : NoteEvent,
    Services.getVoiceMelody (map JS.Fin (repeat 0 96)) 3 None !! 5%nat = Some ev /\
    (gate ev = true <->
     Rabs (nth (5 mod 96) (repeat 0 96) 0 * 25) > 0.4 + INR 3 * 0.1).
Proof.
  apply (gate_threshold_by_revision (repeat 0 96) 3 5);
    [reflexivity | lia | lia].
Defined.

(** C4 as the claim states it fails in [musicEngine.ts]: on a slice of 96
    times 0.018, voice 0, step 0, [|val * 25| = 0.45] exceeds
    [0.4 + 0 * 0.1] and the gate is false. *)
Lemma Root_gate_closed_above_claimed_threshold :
  exists ev : NoteEvent,
    Root.getVoiceMelody (map JS.Fin (repeat 0.018 96)) 0 None !! 0%nat
      = Some ev /\
    Rabs (nth (0 mod 96) (repeat 0.018 96) 0 * 25) > 0.4 + INR 0 * 0.1 /\
    gate ev = false.
Proof.
  destruct (Root_gate_lookup (repeat 0.018 96) 0 0 eq_refl ltac:(lia))
    as (ev & Hev & Hg).
  exists ev. split; [exact Hev|].
  change (nth (0 mod 96) (repeat 0.018 96) 0) with 0.018 in *.
  assert (Rabs (0.018 * 25) = 0.45) as Habs
    by (rewrite Rabs_pos_eq; lra).
  split.
  - rewrite Habs. simpl INR. lra.
  - rewrite Hg, Habs. apply gt_Fin_false. unfold Spec.threshold.
    simpl INR. lra.
Qed.

End Gate.

(** ** Tempo *)

Section Tempo.

Lemma Services_play_bpm (v : list R) (phase : CompositionPhase)
    (e : MusicEngine) :
  Tone.bpm (transport (Services.play (map JS.Fin v) phase e))
  = JS.Fin (Spec.tempo v).
Proof.
  unfold Services.play. cbn [Transport_start Transport_set_bpm set_loop
    set_transport transport Tone.bpm].
  rewrite sqrt_sumSqr_reals. reflexivity.
Qed.

Lemma Root_play_bpm (v : list R) (phase : CompositionPhase)
    (e : MusicEngine) :
  Tone.bpm (transport (Root.play (map JS.Fin v) phase e))
  = JS.Fin (Spec.tempo v).
Proof.
  unfold Root.play. cbn [Transport_start Transport_set_bpm set_loop
    set_transport transport Tone.bpm].
  rewrite sqrt_sumSqr_reals. reflexivity.
Qed.

Lemma sum_squares_zeros (n : nat) :
  fold_right (fun x s => x * x + s) 0 (repeat 0 n) = 0.
Proof. induction n as [|n IH]; simpl; [reflexivity|]. rewrite IH. lra. Qed.

Lemma magnitude_zeros (n : nat) : Spec.magnitude (repeat 0 n) = 0.
Proof. unfold Spec.magnitude. rewrite sum_squares_zeros. apply sqrt_0. Qed.

Lemma magnitude_single (x : R) (n : nat) :
  0 <= x -> Spec.magnitude (x :: repeat 0 n) = x.
Proof.
  intros Hx. unfold Spec.magnitude. simpl. rewrite sum_squares_zeros.
  replace (x * x + 0) with (x * x) by lra. apply sqrt_square. exact Hx.
Qed.

Lemma tempo_of_magnitude (v : list R) (m : R) :
  Spec.magnitude v = m -> Spec.tempo v = Spec.clamp (60 + m * 250) 50 160.
Proof. intros <-. reflexivity. Qed.

Lemma clamp_inside (x lo hi : R) : lo <= x <= hi -> Spec.clamp x lo hi = x.
Proof.
  intros [H1 H2]. unfold Spec.clamp, Rmax.
  destruct (Rle_dec lo x); [|lra]. unfold Rmin.
  destruct (Rle_dec hi x); lra.
Qed.

(** C3.  For a vector of reals (of width 384 or any other), the tempo
    [play] sets, in either revision, is [clamp(60 + |v| * 250, 50, 160)]
    with [|v|] the Euclidean magnitude.  It lies in [50,160], does not
    decrease when the magnitude grows, is exactly 60 for the all-zeros
    vector of width 384 and exactly 160 for a vector of magnitude 0.4. *)
Theorem tempo_is_clamped_magnitude (v : list R) (phase : CompositionPhase)
    (e : MusicEngine) :
  Tone.bpm (transport (Services.play (map JS.Fin v) phase e))
    = JS.Fin (Spec.clamp (60 + Spec.magnitude v * 250) 50 160) /\
  Tone.bpm (transport (Root.play (map JS.Fin v) phase e))
    = JS.Fin (Spec.clamp (60 + Spec.magnitude v * 250) 50 160) /\
  50 <= Spec.tempo v <= 160 /\
  (forall w : list R,
     Spec.magnitude v <= Spec.magnitude w -> Spec.tempo v <= Spec.tempo w) /\
  Tone.bpm (transport (Services.play (zeros 384) phase e)) = JS.Fin 60 /\
  Tone.bpm (transport (Root.play (zeros 384) phase e)) = JS.Fin 60 /\
  (Spec.magnitude v = 0.4 ->
   Tone.bpm (transport (Services.play (map JS.Fin v) phase e)) = JS.Fin 160 /\
   Tone.bpm (transport (Root.play (map JS.Fin v) phase e)) = JS.Fin 160).
Proof.
  assert (Hz : Spec.tempo (repeat 0 384) = 60).
  { rewrite (tempo_of_magnitude _ 0) by apply magnitude_zeros.
    rewrite clamp_inside; lra. }
  assert (Hzeros : zeros 384 = map JS.Fin (repeat 0 384)).
  { unfold zeros. rewrite map_repeat. reflexivity. }
  repeat split.
  - apply Services_play_bpm.
  - apply Root_play_bpm.
  - apply clamp_bounds. lra.
  - apply clamp_bounds. lra.
  - intros w Hvw. unfold Spec.tempo. apply clamp_mono. lra.
  - rewrite Hzeros, Services_play_bpm, Hz. reflexivity.
  - rewrite Hzeros, Root_play_bpm, Hz. reflexivity.
  - rewrite Services_play_bpm, (tempo_of_magnitude v 0.4 H).
    f_equal. unfold Spec.clamp, Rmax, Rmin.
    repeat match goal with
           | |- context [Rle_dec ?a ?b] => destruct (Rle_dec a b)
           end; lra.
  - rewrite Root_play_bpm, (tempo_of_magnitude v 0.4 H).
    f_equal. unfold Spec.clamp, Rmax, Rmin.
    repeat match goal with
           | |- context [Rle_dec ?a ?b] => destruct (Rle_dec a b)
           end; lra.
Qed.

Lemma tempo_is_clamped_magnitude_witness :
  Spec.magnitude (0.4 :: repeat 0 383) = 0.4 /\
  Tone.bpm (transport (Services.play (map JS.Fin (0.4 :: repeat 0 383))
                         start Services.new)) = JS.Fin 160.
Proof.
  assert (Hm : Spec.magnitude (0.4 :: repeat 0 383) = 0.4)
    by (apply magnitude_single; lra).
  split; [exact Hm|].
  apply (tempo_is_clamped_magnitude (0.4 :: repeat 0 383) start Services.new).
  exact Hm.
Defined.

End Tempo.

(** ** What the melodies read of the vector *)

Section Windows.

Lemma slice_length (b : nat) (a : list JS.num) :
  length a = 384%nat -> (b + 96 <= 384)%nat ->
  length (JS.slice b (b + 96) a) = 96%nat.
Proof.
  intros Ha Hb. unfold JS.slice.
  rewrite length_firstn, length_skipn, Ha. lia.
Qed.

Lemma slice_get_mod (b i : nat) (a : list JS.num) :
  length a = 384%nat -> (b + 96 <= 384)%nat -> (i < 16)%nat ->
  JS.get_mod (JS.slice b (b + 96) a) i = JS.get a (b + i).
Proof.
  intros Ha Hb Hi. unfold JS.get_mod.
  rewrite (slice_length b a Ha Hb). cbv match.
  rewrite Nat.mod_small by lia.
  unfold JS.get, JS.slice. rewrite nth_firstn.
  replace (b + 96 - b)%nat with 96%nat by lia.
  destruct (Nat.ltb_spec i 96); [|lia].
  apply nth_skipn.
Qed.

Lemma Services_melody_window (v w : list JS.num) (b e voiceIdx : nat) :
  length v = 384%nat -> length w = 384%nat ->
  e = (b + 96)%nat -> (e <= 384)%nat ->
  agree_on v w b ->
  Services.getVoiceMelody (JS.slice b e v) voiceIdx None
  = Services.getVoiceMelody (JS.slice b e w) voiceIdx None.
Proof.
  intros Hv Hw -> Hb Hagree. unfold Services.getVoiceMelody.
  apply map_ext_in. intros i Hi. apply in_seq in Hi. simpl in Hi.
  rewrite !slice_get_mod by (assumption || lia).
  rewrite (Hagree i) by lia. reflexivity.
Qed.

Lemma Root_melody_window (v w : list JS.num) (b e voiceIdx : nat) :
  length v = 384%nat -> length w = 384%nat ->
  e = (b + 96)%nat -> (e <= 384)%nat ->
  agree_on v w b ->
  Root.getVoiceMelody (JS.slice b e v) voiceIdx None
  = Root.getVoiceMelody (JS.slice b e w) voiceIdx None.
Proof.
  intros Hv Hw -> Hb Hagree. unfold Root.getVoiceMelody.
  apply map_ext_in. intros i Hi. apply in_seq in Hi. simpl in Hi.
  rewrite !slice_get_mod by (assumption || lia).
  rewrite (Hagree i) by lia. reflexivity.
Qed.

Lemma sum_squares_app (l1 l2 : list R) :
  fold_right (fun x s => x * x + s) 0 (l1 ++ l2)
  = fold_right (fun x s => x * x + s) 0 l1
    + fold_right (fun x s => x * x + s) 0 l2.
Proof. induction l1 as [|x l1 IH]; simpl; [lra|]. rewrite IH. lra. Qed.

Lemma magnitude_one_nonzero (x : R) (a b : nat) :
  0 <= x -> Spec.magnitude (repeat 0 a ++ x :: repeat 0 b) = x.
Proof.
  intros Hx. unfold Spec.magnitude. rewrite sum_squares_app.
  change (fold_right (fun x s => x * x + s) 0 (x :: repeat 0 b))
    with (x * x + fold_right (fun x s => x * x + s) 0 (repeat 0 b)).
  rewrite !sum_squares_zeros.
  replace (0 + (x * x + 0)) with (x * x) by lra.
  apply sqrt_square. exact Hx.
Qed.

Lemma magnitude_off_window : Spec.magnitude off_window = 0.1.
Proof. apply magnitude_one_nonzero. lra. Qed.

Lemma off_window_agrees (b : nat) :
  b = 0%nat \/ b = 96%nat \/ b = 192%nat \/ b = 288%nat ->
  agree_on (zeros 384) (map JS.Fin off_window) b.
Proof.
  intros Hb i Hi.
  destruct Hb as [-> | [-> | [-> | ->]]];
    do 16 (destruct i as [|i]; [reflexivity|]); lia.
Qed.

(** C9.  Two vectors of width 384 that hold the same numbers at indices
    0-15, 96-111, 192-207 and 288-303 give [play] the same four melodies,
    in either revision; the other 80 elements of a slice reach the tempo
    only: the all-zeros vector and one that differs from it at index 16
    get the same melodies and different tempos. *)
Theorem melodies_read_first_sixteen (v w : list JS.num)
    (phase phase' : CompositionPhase) (e e' : MusicEngine)
    (Hv : length v = 384%nat) (Hw : length w = 384%nat)
    (H0 : agree_on v w 0) (H1 : agree_on v w 96)
    (H2 : agree_on v w 192) (H3 : agree_on v w 288) :
  currentMelodies (Services.play v phase e)
    = currentMelodies (Services.play w phase' e') /\
  currentMelodies (Root.play v phase e)
    = currentMelodies (Root.play w phase' e') /\
  (length (map JS.Fin off_window) = 384%nat /\
   currentMelodies (Services.play (zeros 384) phase e)
     = currentMelodies (Services.play (map JS.Fin off_window) phase e) /\
   Tone.bpm (transport (Services.play (zeros 384) phase e)) = JS.Fin 60 /\
   Tone.bpm (transport (Services.play (map JS.Fin off_window) phase e))
     = JS.Fin 85).
Proof.
  assert (Hgen : forall a b : list JS.num,
    length a = 384%nat -> length b = 384%nat ->
    agree_on a b 0 -> agree_on a b 96 -> agree_on a b 192 ->
    agree_on a b 288 ->
    forall p p' s s',
      currentMelodies (Services.play a p s)
      = currentMelodies (Services.play b p' s')).
  { intros a b Ha Hb A0 A1 A2 A3 p p' s s'.
    rewrite !Services_play_melodies.
    rewrite (Services_melody_window a b 0 96 0 Ha Hb eq_refl ltac:(lia) A0).
    rewrite (Services_melody_window a b 96 192 1 Ha Hb eq_refl ltac:(lia) A1).
    rewrite (Services_melody_window a b 192 288 2 Ha Hb eq_refl ltac:(lia) A2).
    rewrite (Services_melody_window a b 288 384 3 Ha Hb eq_refl ltac:(lia) A3).
    reflexivity. }
  split; [|split; [|split; [|split; [|split]]]].
  - apply Hgen; assumption.
  - rewrite !Root_play_melodies.
    rewrite (Root_melody_window v w 0 96 0 Hv Hw eq_refl ltac:(lia) H0).
    rewrite (Root_melody_window v w 96 192 1 Hv Hw eq_refl ltac:(lia) H1).
    rewrite (Root_melody_window v w 192 288 2 Hv Hw eq_refl ltac:(lia) H2).
    rewrite (Root_melody_window v w 288 384 3 Hv Hw eq_refl ltac:(lia) H3).
    reflexivity.
  - reflexivity.
  - apply Hgen; try reflexivity; apply off_window_agrees; tauto.
  - pose proof (tempo_of_magnitude (repeat 0 384) 0 (magnitude_zeros 384)) as Ht.
    replace (zeros 384) with (map JS.Fin (repeat 0 384))
      by (unfold zeros; rewrite map_repeat; reflexivity).
    rewrite Services_play_bpm, Ht. f_equal. rewrite clamp_inside; lra.
  - rewrite Services_play_bpm.
    rewrite (tempo_of_magnitude _ 0.1 magnitude_off_window).
    f_equal. rewrite clamp_inside; lra.
Qed.

Lemma melodies_read_first_sixteen_witness :
  currentMelodies (Services.play (zeros 384) start Services.new)
  = currentMelodies (Services.play (map JS.Fin off_window) end_ Services.new).
Proof.
  apply (melodies_read_first_sixteen (zeros 384) (map JS.Fin off_window)
           start end_ Services.new Services.new);
    first [reflexivity | apply off_window_agrees; tauto].
Defined.

End Windows.

(** ** The two revisions of the melody generator *)

Section Revisions.

Lemma gate_with_mono (vectorSlice : list JS.num) (voiceIdx i : nat) :
  gate_with 0.5 vectorSlice voiceIdx i = true ->
  gate_with 0.4 vectorSlice voiceIdx i = true.
Proof.
  unfold gate_with. destruct (JS.get_mod vectorSlice i) as [val|];
    [|discriminate].
  cbn [JS.mul JS.abs JS.add JS.of_nat JS.lift1 JS.lift2].
  rewrite !gt_Fin. lra.
Qed.

Lemma lookup_map_seq_inv {A : Type} (f : nat -> A) (n i : nat) (x : A) :
  map f (seq 0 n) !! i = Some x -> x = f i.
Proof.
  intros H. pose proof (lookup_lt_Some _ _ _ H) as Hlt.
  rewrite length_map, length_seq in Hlt.
  rewrite lookup_map_seq in H by exact Hlt. simpl in H. congruence.
Qed.

Lemma separating_step :
  gate_with 0.4 [JS.Fin 0.018] 0 0 = true /\
  gate_with 0.5 [JS.Fin 0.018] 0 0 = false.
Proof.
  unfold gate_with.
  change (JS.get_mod [JS.Fin 0.018] 0) with (JS.Fin 0.018).
  cbn [JS.mul JS.abs JS.add JS.of_nat JS.lift1 JS.lift2].
  rewrite gt_Fin, gt_Fin_false.
  rewrite Rabs_pos_eq by lra. simpl INR. lra.
Qed.

(** C10.  On every slice, voice index and step count the two revisions'
    generators return melodies with the same note indices, octave shifts
    and velocities, step by step; at each step their gates are the same
    comparison against [0.4 + voiceIdx * 0.1] in [services/musicEngine.ts]
    and [0.5 + voiceIdx * 0.1] in [musicEngine.ts], so that a gate open in
    the latter is open in the former, and the value 0.018 separates
    them. *)
Theorem revisions_differ_in_gate_base (vectorSlice : list JS.num)
    (voiceIdx : nat) (stepCount : option nat) :
  let s := Services.getVoiceMelody vectorSlice voiceIdx stepCount in
  let r := Root.getVoiceMelody vectorSlice voiceIdx stepCount in
  map noteIndex s = map noteIndex r /\
  map octaveShift s = map octaveShift r /\
  map velocity s = map velocity r /\
  (forall (i : nat) (ev_s ev_r : NoteEvent),
     s !! i = Some ev_s -> r !! i = Some ev_r ->
     gate ev_s = gate_with 0.4 vectorSlice voiceIdx i /\
     gate ev_r = gate_with 0.5 vectorSlice voiceIdx i /\
     (gate ev_r = true -> gate ev_s = true)) /\
  (exists ev_s ev_r : NoteEvent,
     Services.getVoiceMelody [JS.Fin 0.018] 0 (Some 1%nat) = [ev_s] /\
     Root.getVoiceMelody [JS.Fin 0.018] 0 (Some 1%nat) = [ev_r] /\
     gate ev_s = true /\ gate ev_r = false).
Proof.
  cbv zeta. unfold Services.getVoiceMelody, Root.getVoiceMelody.
  rewrite !map_map. cbn [noteIndex octaveShift velocity].
  split; [reflexivity|]. split; [reflexivity|]. split; [reflexivity|].
  split.
  - intros i ev_s ev_r Hs Hr.
    apply lookup_map_seq_inv in Hs. apply lookup_map_seq_inv in Hr.
    subst ev_s ev_r. cbn [gate]. fold (gate_with 0.4 vectorSlice voiceIdx i).
    fold (gate_with 0.5 vectorSlice voiceIdx i).
    split; [reflexivity|]. split; [reflexivity|]. apply gate_with_mono.
  - eexists. eexists. split; [reflexivity|]. split; [reflexivity|].
    cbn [gate]. exact separating_step.
Qed.

Lemma revisions_differ_in_gate_base_witness :
  exists ev_s ev_r : NoteEvent,
    Services.getVoiceMelody [JS.Fin 0.018] 0 (Some 1%nat) !! 0%nat = Some ev_s /\
    Root.getVoiceMelody [JS.Fin 0.018] 0 (Some 1%nat) !! 0%nat = Some ev_r /\
    gate ev_s = gate_with 0.4 [JS.Fin 0.018] 0 0 /\
    gate ev_r = gate_with 0.5 [JS.Fin 0.018] 0 0 /\
    (gate ev_r = true -> gate ev_s = true).
Proof.
  eexists. eexists. split; [reflexivity|]. split; [reflexivity|].
  apply (revisions_differ_in_gate_base [JS.Fin 0.018] 0 (Some 1%nat));
    reflexivity.
Defined.

End Revisions.

(** ** The playback state machine and its observer *)

Section Phases.

Lemma Services_stop_observer (e : MusicEngine) :
  onPhaseChange (Services.stop e) = onPhaseChange e.
Proof.
  destruct e as [sa fa lo ls ii cm cp op tr no].
  unfold Services.stop, emit. cbn. destruct lo, op; reflexivity.
Qed.

Lemma Root_stop_observer (e : MusicEngine) :
  onPhaseChange (Root.stop e) = onPhaseChange e.
Proof.
  destruct e as [sa fa lo ls ii cm cp op tr no].
  unfold Root.stop, emit. cbn. destruct lo, op; reflexivity.
Qed.

Lemma Services_stop_notified (e : MusicEngine) (cb : nat) :
  onPhaseChange e = Some cb ->
  notified (Services.stop e) = notified e ++ [(cb, idle)].
Proof.
  destruct e as [sa fa lo ls ii cm cp op tr no]. cbn. intros ->.
  unfold Services.stop, emit. cbn. destruct lo; reflexivity.
Qed.

Lemma Root_stop_notified (e : MusicEngine) (cb : nat) :
  onPhaseChange e = Some cb ->
  notified (Root.stop e) = notified e ++ [(cb, idle)].
Proof.
  destruct e as [sa fa lo ls ii cm cp op tr no]. cbn. intros ->.
  unfold Root.stop, emit. cbn. destruct lo; reflexivity.
Qed.

Lemma Services_play_observer (v : list JS.num) (phase : CompositionPhase)
    (e : MusicEngine) :
  onPhaseChange (Services.play v phase e) = onPhaseChange e.
Proof.
  rewrite <- (Services_stop_observer e). unfold Services.play. cbv zeta.
  generalize (Services.stop e). intros [sa fa lo ls ii cm cp op tr no].
  unfold emit. cbn. destruct op; reflexivity.
Qed.

Lemma Root_play_observer (v : list JS.num) (phase : CompositionPhase)
    (e : MusicEngine) :
  onPhaseChange (Root.play v phase e) = onPhaseChange e.
Proof.
  rewrite <- (Root_stop_observer e). unfold Root.play. cbv zeta.
  generalize (Root.stop e). intros [sa fa lo ls ii cm cp op tr no].
  unfold emit. cbn. destruct op; reflexivity.
Qed.

Lemma Services_play_notified (v : list JS.num) (phase : CompositionPhase)
    (e : MusicEngine) (cb : nat) :
  onPhaseChange e = Some cb ->
  notified (Services.play v phase e) = notified e ++ [(cb, idle); (cb, phase)].
Proof.
  intros H.
  pose proof (Services_stop_observer e) as Ho. rewrite H in Ho.
  change [(cb, idle); (cb, phase)] with ([(cb, idle)] ++ [(cb, phase)]).
  rewrite app_assoc. rewrite <- (Services_stop_notified e cb H).
  unfold Services.play. cbv zeta. revert Ho.
  generalize (Services.stop e). intros [sa fa lo ls ii cm cp op tr no].
  cbn. intros ->. reflexivity.
Qed.

Lemma Root_play_notified (v : list JS.num) (phase : CompositionPhase)
    (e : MusicEngine) (cb : nat) :
  onPhaseChange e = Some cb ->
  notified (Root.play v phase e) = notified e ++ [(cb, idle); (cb, phase)].
Proof.
  intros H.
  pose proof (Root_stop_observer e) as Ho. rewrite H in Ho.
  change [(cb, idle); (cb, phase)] with ([(cb, idle)] ++ [(cb, phase)]).
  rewrite app_assoc. rewrite <- (Root_stop_notified e cb H).
  unfold Root.play. cbv zeta. revert Ho.
  generalize (Root.stop e). intros [sa fa lo ls ii cm cp op tr no].
  cbn. intros ->. reflexivity.
Qed.

(** C6, as the code has it.  With an observer registered, [play(v, start)]
    followed by [play(v, end)] notifies it four times, in either revision:
    idle, start, idle, end.  The [stop()] at the head of each [play] is the
    public one and emits its idle notification. *)
Theorem play_twice_notifies_idle_each_time (v : list JS.num) (e : MusicEngine)
    (cb : nat) (Hobs : onPhaseChange e = Some cb) :
  received_since e (Services.play v end_ (Services.play v start e))
    [(cb, idle); (cb, start); (cb, idle); (cb, end_)] /\
  received_since e (Root.play v end_ (Root.play v start e))
    [(cb, idle); (cb, start); (cb, idle); (cb, end_)].
Proof.
  unfold received_since. split.
  - rewrite (Services_play_notified v end_ _ cb)
      by (rewrite Services_play_observer; exact Hobs).
    rewrite (Services_play_notified v start e cb Hobs).
    rewrite <- app_assoc. reflexivity.
  - rewrite (Root_play_notified v end_ _ cb)
      by (rewrite Root_play_observer; exact Hobs).
    rewrite (Root_play_notified v start e cb Hobs).
    rewrite <- app_assoc. reflexivity.
Qed.

Lemma play_twice_notifies_idle_each_time_witness :
  onPhaseChange (setPhaseCallback 7 Services.new) = Some 7%nat /\
  received_since (setPhaseCallback 7 Services.new)
    (Services.play (zeros 384) end_
       (Services.play (zeros 384) start (setPhaseCallback 7 Services.new)))
    [(7%nat, idle); (7%nat, start); (7%nat, idle); (7%nat, end_)].
Proof.
  split; [reflexivity|].
  apply (play_twice_notifies_idle_each_time (zeros 384)
           (setPhaseCallback 7 Services.new) 7 eq_refl).
Defined.

(** C6 as the claim states it fails: on the all-zeros vector and a freshly
    built engine with observer 7, the two calls do not deliver just start
    and end. *)
Lemma play_twice_not_two_notifications :
  ~ received_since (setPhaseCallback 7 Services.new)
      (Services.play (zeros 384) end_
         (Services.play (zeros 384) start (setPhaseCallback 7 Services.new)))
      [(7%nat, start); (7%nat, end_)].
Proof.
  unfold received_since.
  rewrite (Services_play_notified (zeros 384) end_ _ 7)
    by (rewrite Services_play_observer; reflexivity).
  rewrite (Services_play_notified (zeros 384) start _ 7) by reflexivity.
  cbn. discriminate.
Qed.

End Phases.

(** ** [play] on a vector that is not 384 reals *)

Section Malformed.

Lemma Services_play_phase (v : list JS.num) (phase : CompositionPhase)
    (e : MusicEngine) :
  currentPhase (Services.play v phase e) = phase.
Proof.
  unfold Services.play. cbv zeta.
  generalize (Services.stop e). intros [sa fa lo ls ii cm cp op tr no].
  unfold emit. cbn. destruct op; reflexivity.
Qed.

Lemma Root_play_phase (v : list JS.num) (phase : CompositionPhase)
    (e : MusicEngine) :
  currentPhase (Root.play v phase e) = phase.
Proof.
  unfold Root.play. cbv zeta.
  generalize (Root.stop e). intros [sa fa lo ls ii cm cp op tr no].
  unfold emit. cbn. destruct op; reflexivity.
Qed.

Lemma Services_play_live (v : list JS.num) (phase : CompositionPhase)
    (e : MusicEngine) :
  loop (Services.play v phase e) = Some (Tone.mkLoop 0) /\
  Tone.started (transport (Services.play v phase e)) = true.
Proof. split; reflexivity. Qed.

Lemma Root_play_live (v : list JS.num) (phase : CompositionPhase)
    (e : MusicEngine) :
  loop (Root.play v phase e) = Some (Tone.mkLoop 0) /\
  Tone.started (transport (Root.play v phase e)) = true.
Proof. split; reflexivity. Qed.

Lemma Services_melody_length (vectorSlice : list JS.num) (voiceIdx : nat) :
  length (Services.getVoiceMelody vectorSlice voiceIdx None) = 16%nat.
Proof.
  unfold Services.getVoiceMelody. rewrite length_map, length_seq. reflexivity.
Qed.

Lemma Root_melody_length (vectorSlice : list JS.num) (voiceIdx : nat) :
  length (Root.getVoiceMelody vectorSlice voiceIdx None) = 16%nat.
Proof.
  unfold Root.getVoiceMelody. rewrite length_map, length_seq. reflexivity.
Qed.

Lemma Services_NaN_event (vectorSlice : list JS.num) (voiceIdx : nat)
    (stepCount : option nat) (i : nat) (ev : NoteEvent) :
  Services.getVoiceMelody vectorSlice voiceIdx stepCount !! i = Some ev ->
  JS.get_mod vectorSlice i = JS.NaN ->
  noteIndex ev = JS.NaN /\ octaveShift ev = JS.NaN /\
  gate ev = false /\ velocity ev = JS.NaN.
Proof.
  intros Hev Hnan. apply lookup_map_seq_inv in Hev. subst ev.
  cbn [noteIndex octaveShift gate velocity]. rewrite Hnan.
  repeat split; reflexivity.
Qed.

Lemma Root_NaN_event (vectorSlice : list JS.num) (voiceIdx : nat)
    (stepCount : option nat) (i : nat) (ev : NoteEvent) :
  Root.getVoiceMelody vectorSlice voiceIdx stepCount !! i = Some ev ->
  JS.get_mod vectorSlice i = JS.NaN ->
  noteIndex ev = JS.NaN /\ octaveShift ev = JS.NaN /\
  gate ev = false /\ velocity ev = JS.NaN.
Proof.
  intros Hev Hnan. apply lookup_map_seq_inv in Hev. subst ev.
  cbn [noteIndex octaveShift gate velocity]. rewrite Hnan.
  repeat split; reflexivity.
Qed.

Lemma Services_stop_stops (e : MusicEngine) :
  Tone.started (transport (Services.stop e)) = false /\
  loop (Services.stop e) = None.
Proof.
  destruct e as [sa fa lo ls ii cm cp op tr no].
  unfold Services.stop, emit. cbn. destruct lo, op; split; reflexivity.
Qed.

Lemma Root_stop_stops (e : MusicEngine) :
  Tone.started (transport (Root.stop e)) = false /\
  loop (Root.stop e) = None.
Proof.
  destruct e as [sa fa lo ls ii cm cp op tr no].
  unfold Root.stop, emit. cbn. destruct lo, op; split; reflexivity.
Qed.

(** C7, as the code has it.  [play] validates nothing and has no failure
    path of its own, in either revision.  For every vector, whatever its
    width and whether or not it holds [NaN], it stops the prior transport
    (the [stop] it starts with leaves the transport stopped and no loop,
    and [play] goes on from that state), sets the requested phase,
    notifies the observer (idle, then the phase) and installs four
    melodies of 16 events, those of [getVoiceMelody] on the four slices;
    a step whose slice element is missing or [NaN] gets [NaN] note data
    and a closed gate; it installs a fresh loop and starts the transport.
    For every vector of reals, of any width, the tempo it sets is
    [clamp(60 + |v| * 250, 50, 160)]. *)
Theorem play_validates_nothing (v : list JS.num) (phase : CompositionPhase)
    (e : MusicEngine) :
  plays_unchecked Services.stop Services.play Services.getVoiceMelody
    v phase e /\
  plays_unchecked Root.stop Root.play Root.getVoiceMelody v phase e.
Proof.
  split; unfold plays_unchecked; cbv zeta.
  - split.
    { destruct (Services_stop_stops e) as [H1 H2].
      split; [exact H1|]. split; [exact H2|]. reflexivity. }
    split.
    { split; [apply Services_play_phase|].
      rewrite Services_play_melodies. split; [reflexivity|]. split.
      - repeat constructor; apply Services_melody_length.
      - intros cb Hcb. apply Services_play_notified. exact Hcb. }
    split; [apply Services_play_melodies|].
    split; [intros voiceIdx i vectorSlice ev; apply Services_NaN_event|].
    destruct (Services_play_live v phase e) as [Hl Hs].
    split; [exact Hl|]. split; [exact Hs|].
    intros rs ->. unfold transport_state.
    rewrite Services_play_phase, Services_play_bpm. reflexivity.
  - split.
    { destruct (Root_stop_stops e) as [H1 H2].
      split; [exact H1|]. split; [exact H2|]. reflexivity. }
    split.
    { split; [apply Root_play_phase|].
      rewrite Root_play_melodies. split; [reflexivity|]. split.
      - repeat constructor; apply Root_melody_length.
      - intros cb Hcb. apply Root_play_notified. exact Hcb. }
    split; [apply Root_play_melodies|].
    split; [intros voiceIdx i vectorSlice ev; apply Root_NaN_event|].
    destruct (Root_play_live v phase e) as [Hl Hs].
    split; [exact Hl|]. split; [exact Hs|].
    intros rs ->. unfold transport_state.
    rewrite Root_play_phase, Root_play_bpm. reflexivity.
Qed.

(** C7 as the claim states it fails: a vector of width 1 is malformed, and
    [play] on it, from a freshly built engine, leaves the phase at start,
    four melodies, tempo 85 and a live loop where there were idle, no
    melody, tempo 120 and no loop. *)
Lemma play_accepts_malformed_vector :
  malformed [JS.Fin 0.1] /\
  transport_state Services.new = (idle, [], JS.Fin 120, None) /\
  transport_state (Services.play [JS.Fin 0.1] start Services.new)
  = (start, currentMelodies (Services.play [JS.Fin 0.1] start Services.new),
     JS.Fin 85, Some (Tone.mkLoop 0)) /\
  length (currentMelodies (Services.play [JS.Fin 0.1] start Services.new))
  = 4%nat /\
  transport_state (Services.play [JS.Fin 0.1] start Services.new)
  <> transport_state Services.new /\
  malformed [JS.NaN] /\
  currentPhase (Services.play [JS.NaN] start Services.new) = start /\
  currentPhase (Services.play [JS.NaN] start Services.new)
  <> currentPhase Services.new.
Proof.
  assert (Ht : Spec.tempo [0.1] = 85).
  { rewrite (tempo_of_magnitude [0.1] 0.1).
    - rewrite clamp_inside; lra.
    - apply (magnitude_single 0.1 0). lra. }
  assert (Hs : transport_state (Services.play [JS.Fin 0.1] start Services.new)
    = (start, currentMelodies (Services.play [JS.Fin 0.1] start Services.new),
       JS.Fin 85, Some (Tone.mkLoop 0))).
  { unfold transport_state. rewrite Services_play_phase.
    rewrite (Services_play_bpm [0.1]), Ht. reflexivity. }
  split; [left; cbn; lia|]. split; [reflexivity|]. split; [exact Hs|].
  split; [reflexivity|]. split.
  - rewrite Hs. intros H. apply (f_equal snd) in H. discriminate H.
  - split; [right; left; reflexivity|].
    rewrite Services_play_phase. split; [reflexivity|]. discriminate.
Qed.

End Malformed.

(** ** Instruments: what they hold after a call *)

Section Instruments.

Lemma sounding_do (c : Tone.call) (calls : list Tone.call) :
  Tone.sounding (Tone.do_call c calls)
  = Tone.after_call (Tone.sounding calls) c.
Proof. unfold Tone.sounding, Tone.do_call. rewrite foldl_app. reflexivity. Qed.

Lemma sounding_released (t : option R) (calls : list Tone.call) :
  Tone.sounding (Tone.do_call (Tone.releaseAll t) calls) = [].
Proof. rewrite sounding_do. reflexivity. Qed.

Lemma sounding_triggered (n : Tone.note) (d : option string) (t : R)
    (vel : JS.num) (calls : list Tone.call) :
  Tone.sounding (Tone.do_call (Tone.triggerAttackRelease n d t vel) calls)
  = Tone.sounding calls ++ [n].
Proof. rewrite sounding_do. reflexivity. Qed.

Lemma silent_exclusive (e : MusicEngine) : silent e -> exclusive e.
Proof.
  intros H v. destruct (H v) as [-> ->]. simpl. lia.
Qed.

Lemma forEach_invariant {A St : Type} (P : St -> Prop)
    (f : A -> nat -> St -> option St) (l : list A) :
  (forall v i s s', f v i s = Some s' -> P s -> P s') ->
  forall i s s', forEach f l i s = Some s' -> P s -> P s'.
Proof.
  intros Hf. induction l as [|v l IH]; intros i s s' Hrun Hs; simpl in Hrun.
  - congruence.
  - destruct (f v i s) as [s1|] eqn:E; [|discriminate].
    apply (IH (S i) s1 s' Hrun). exact (Hf v i s s1 E Hs).
Qed.

End Instruments.

(** ** The transport loop of [musicEngine.ts]: release, then trigger *)

Section RootLoop.

Lemma Root_stop_fields (e : MusicEngine) :
  samplers (Root.stop e)
    = Tone.sampler_do (Tone.releaseAll None) <$> samplers e /\
  fallbacks (Root.stop e)
    = Tone.synth_do (Tone.releaseAll None) <$> fallbacks e /\
  loop (Root.stop e) = None /\
  currentPhase (Root.stop e) = idle /\
  Tone.started (transport (Root.stop e)) = false /\
  loadedStates (Root.stop e) = loadedStates e.
Proof.
  destruct e as [sa fa lo ls ii cm cp op tr no].
  unfold Root.stop, emit. cbn. destruct lo, op; cbn; repeat split; reflexivity.
Qed.

Lemma Root_stop_silent (e : MusicEngine) : silent (Root.stop e).
Proof.
  destruct (Root_stop_fields e) as (Hs & Hf & _).
  intros v. unfold sampler_holds, fallback_holds. rewrite Hs, Hf.
  rewrite !lookup_fmap. split.
  - destruct (samplers e !! v); [apply sounding_released | reflexivity].
  - destruct (fallbacks e !! v); [apply sounding_released | reflexivity].
Qed.

Lemma Root_play_instruments (v : list JS.num) (phase : CompositionPhase)
    (e : MusicEngine) :
  samplers (Root.play v phase e) = samplers (Root.stop e) /\
  fallbacks (Root.play v phase e) = fallbacks (Root.stop e) /\
  loadedStates (Root.play v phase e) = loadedStates (Root.stop e).
Proof.
  unfold Root.play. cbv zeta.
  generalize (Root.stop e). intros [sa fa lo ls ii cm cp op tr no].
  unfold emit. cbn. destruct op; repeat split; reflexivity.
Qed.

Lemma Root_play_silent (v : list JS.num) (phase : CompositionPhase)
    (e : MusicEngine) :
  silent (Root.play v phase e).
Proof.
  destruct (Root_play_instruments v phase e) as (Hs & Hf & _).
  intros k. unfold sampler_holds, fallback_holds. rewrite Hs, Hf.
  apply (Root_stop_silent e k).
Qed.

Lemma Root_route_sampler (time : R) (noteData : NoteEvent) (v : string)
    (i : nat) (e : MusicEngine) (s : Tone.Sampler) :
  samplers e !! v = Some s -> Root_ready e v = true ->
  exists s' : Tone.Sampler,
    samplers (Root.route time noteData v i e) !! v = Some s' /\
    Tone.sampler_calls s'
      = Tone.sampler_calls s ++ Root_sampler_calls time noteData i /\
    Tone.sounding (Tone.sampler_calls s') = [Root.finalNote noteData i] /\
    fallbacks (Root.route time noteData v i e) = fallbacks e.
Proof.
  intros Hs Hr. unfold Root_ready in Hr. unfold Root.route. cbv zeta.
  rewrite Hs in Hr |- *. rewrite Hr. cbn [samplers fallbacks set_samplers].
  rewrite !lookup_alter_eq, Hs. cbn. eexists. split; [reflexivity|].
  cbn. unfold Tone.do_call. rewrite <- app_assoc. split; [reflexivity|].
  split; [|reflexivity].
  change (Tone.sampler_calls s ++ [?a] ++ [?b])
    with (Tone.sampler_calls s ++ [a; b]).
  unfold Tone.sounding. rewrite foldl_app. reflexivity.
Qed.

Lemma Root_route_fallback (time : R) (noteData : NoteEvent) (v : string)
    (i : nat) (e : MusicEngine) (s : Tone.PolySynth) :
  fallbacks e !! v = Some s -> Root_ready e v = false ->
  exists s' : Tone.PolySynth,
    fallbacks (Root.route time noteData v i e) !! v = Some s' /\
    Tone.synth_calls s'
      = Tone.synth_calls s ++ Root_fallback_calls time noteData i /\
    Tone.sounding (Tone.synth_calls s') = [Root.finalNote noteData i] /\
    samplers (Root.route time noteData v i e) = samplers e.
Proof.
  intros Hs Hr. unfold Root_ready in Hr. unfold Root.route. cbv zeta.
  rewrite Hr, Hs. cbn [samplers fallbacks set_fallbacks].
  rewrite !lookup_alter_eq, Hs. cbn. eexists. split; [reflexivity|].
  cbn. unfold Tone.do_call. rewrite <- app_assoc. split; [reflexivity|].
  split; [|reflexivity].
  unfold Tone.sounding. rewrite foldl_app. reflexivity.
Qed.

Lemma Root_route_others (time : R) (noteData : NoteEvent) (v : string)
    (i : nat) (e : MusicEngine) (k : string) :
  k <> v ->
  samplers (Root.route time noteData v i e) !! k = samplers e !! k /\
  fallbacks (Root.route time noteData v i e) !! k = fallbacks e !! k.
Proof.
  intros Hk. unfold Root.route. cbv zeta.
  destruct (match samplers e !! v with
            | Some _ => default false (loadedStates e !! v)
            | None => false
            end).
  - cbn. rewrite !lookup_alter_ne by congruence. split; reflexivity.
  - destruct (fallbacks e !! v); cbn;
      rewrite ?lookup_alter_ne by congruence; split; reflexivity.
Qed.

Lemma Root_route_frame (time : R) (noteData : NoteEvent) (v : string)
    (i : nat) (e : MusicEngine) :
  loop (Root.route time noteData v i e) = loop e /\
  currentMelodies (Root.route time noteData v i e) = currentMelodies e /\
  loadedStates (Root.route time noteData v i e) = loadedStates e /\
  transport (Root.route time noteData v i e) = transport e /\
  currentPhase (Root.route time noteData v i e) = currentPhase e /\
  notified (Root.route time noteData v i e) = notified e.
Proof.
  unfold Root.route. cbv zeta.
  destruct (match samplers e !! v with
            | Some _ => default false (loadedStates e !! v)
            | None => false
            end).
  - repeat split; reflexivity.
  - destruct (fallbacks e !! v); repeat split; reflexivity.
Qed.

Lemma Root_route_exclusive (time : R) (noteData : NoteEvent) (v : string)
    (i : nat) (e : MusicEngine) :
  exclusive e -> exclusive (Root.route time noteData v i e).
Proof.
  intros He k. unfold sampler_holds, fallback_holds.
  destruct (decide (k = v)) as [->|Hk].
  - destruct (Root_ready e v) eqn:Hr.
    + assert (exists s, samplers e !! v = Some s) as [s Hs].
      { unfold Root_ready in Hr. destruct (samplers e !! v); [eauto|discriminate]. }
      destruct (Root_route_sampler time noteData v i e s Hs Hr)
        as (s' & -> & _ & -> & ->).
      split; [simpl; lia|]. apply (He v).
    + destruct (fallbacks e !! v) as [s|] eqn:Hs.
      * destruct (Root_route_fallback time noteData v i e s Hs Hr)
          as (s' & -> & _ & -> & ->).
        split; [|simpl; lia]. apply (He v).
      * unfold Root.route. cbv zeta. unfold Root_ready in Hr.
        rewrite Hr, Hs. apply (He v).
  - destruct (Root_route_others time noteData v i e k Hk) as [-> ->].
    apply (He k).
Qed.

Lemma Root_voice_callback_cases (time : R) (step : nat) (v : string)
    (i : nat) (e e' : MusicEngine) :
  Root.voice_callback time step v i e = Some e' ->
  e' = e \/ exists noteData : NoteEvent, e' = Root.route time noteData v i e.
Proof.
  unfold Root.voice_callback. intros H.
  destruct (currentMelodies e !! i) as [melody|]; [|discriminate].
  cbn in H.
  destruct (match length melody with
            | O => None
            | S _ => melody !! (step mod length melody)%nat
            end) as [noteData|]; [|discriminate].
  cbn in H.
  match type of H with
  | (if ?c then _ else _) = _ => destruct c
  end; injection H as <-;
    [right; exists noteData; reflexivity | left; reflexivity].
Qed.

Lemma Root_tick_exclusive (time : R) (e e' : MusicEngine) :
  Root.tick time e = Some e' -> exclusive e -> exclusive e'.
Proof.
  unfold Root.tick, Root.callback. intros H He.
  destruct (loop e) as [l|]; [|injection H as <-; exact He].
  destruct (Tone.started (transport e)); [|injection H as <-; exact He].
  destruct (forEach (Root.voice_callback time (Tone.step l)) voices 0%nat e)
    as [e1|] eqn:E; [|discriminate].
  cbn in H. injection H as <-.
  assert (exclusive e1) as H1.
  { apply (forEach_invariant exclusive
             (Root.voice_callback time (Tone.step l)) voices)
      with (i := 0%nat) (s := e); [|exact E|exact He].
    intros v i s s' Hv Hs.
    destruct (Root_voice_callback_cases _ _ _ _ _ _ Hv) as [->|[nd ->]];
      [exact Hs | apply Root_route_exclusive; exact Hs]. }
  exact H1.
Qed.

End RootLoop.

(** ** The transport loop of [services/musicEngine.ts]: trigger only *)

Section ServicesLoop.

Lemma Services_route_sampler (time : R) (noteData : NoteEvent) (v : string)
    (i : nat) (e : MusicEngine) (s : Tone.Sampler) :
  samplers e !! v = Some s -> Services_ready e v = true ->
  samplers (Services.route time noteData v i e) !! v
    = Some (Tone.sampler_do (Services_sampler_call time noteData i) s) /\
  fallbacks (Services.route time noteData v i e) = fallbacks e.
Proof.
  intros Hs Hr. unfold Services_ready in Hr. unfold Services.route. cbv zeta.
  rewrite Hs in Hr |- *. rewrite Hr. cbn [samplers fallbacks set_samplers].
  rewrite lookup_alter_eq, Hs. split; reflexivity.
Qed.

Lemma Services_route_fallback (time : R) (noteData : NoteEvent) (v : string)
    (i : nat) (e : MusicEngine) (s : Tone.PolySynth) :
  fallbacks e !! v = Some s -> Services_ready e v = false ->
  fallbacks (Services.route time noteData v i e) !! v
    = Some (Tone.synth_do (Services_fallback_call time noteData i) s) /\
  samplers (Services.route time noteData v i e) = samplers e.
Proof.
  intros Hs Hr. unfold Services_ready in Hr. unfold Services.route. cbv zeta.
  rewrite Hr, Hs. cbn [samplers fallbacks set_fallbacks].
  rewrite lookup_alter_eq, Hs. split; reflexivity.
Qed.

Lemma Services_route_others (time : R) (noteData : NoteEvent) (v : string)
    (i : nat) (e : MusicEngine) (k : string) :
  k <> v ->
  samplers (Services.route time noteData v i e) !! k = samplers e !! k /\
  fallbacks (Services.route time noteData v i e) !! k = fallbacks e !! k.
Proof.
  intros Hk. unfold Services.route. cbv zeta.
  destruct (match samplers e !! v with
            | Some s => Tone.loaded s
            | None => false
            end).
  - cbn. rewrite lookup_alter_ne by congruence. split; reflexivity.
  - destruct (fallbacks e !! v); cbn;
      rewrite ?lookup_alter_ne by congruence; split; reflexivity.
Qed.

Lemma Services_route_frame (time : R) (noteData : NoteEvent) (v : string)
    (i : nat) (e : MusicEngine) :
  loop (Services.route time noteData v i e) = loop e /\
  currentMelodies (Services.route time noteData v i e) = currentMelodies e /\
  loadedStates (Services.route time noteData v i e) = loadedStates e /\
  transport (Services.route time noteData v i e) = transport e /\
  currentPhase (Services.route time noteData v i e) = currentPhase e /\
  notified (Services.route time noteData v i e) = notified e.
Proof.
  unfold Services.route. cbv zeta.
  destruct (match samplers e !! v with
            | Some s => Tone.loaded s
            | None => false
            end).
  - repeat split; reflexivity.
  - destruct (fallbacks e !! v); repeat split; reflexivity.
Qed.

Lemma Services_voice_callback_fire (time : R) (step : nat) (v : string)
    (i : nat) (e : MusicEngine) (noteData : NoteEvent) :
  note_at e step i = Some noteData ->
  Services.voice_callback time step v i e
  = Some (Services_fire time step noteData v i e).
Proof.
  unfold note_at, Services.voice_callback, Services_fire. intros H.
  destruct (currentMelodies e !! i) as [melody|]; [|discriminate].
  change (match length melody with
          | O => None
          | S _ => melody !! (step mod length melody)%nat
          end = Some noteData) in H.
  change (mbind ?f (Some melody)) with (f melody). cbv beta.
  rewrite H. change (mbind ?f (Some noteData)) with (f noteData). cbv beta.
  destruct (gate noteData || (step mod 4 =? 0)%nat); reflexivity.
Qed.

Lemma Services_fire_note_at (time : R) (step : nat) (noteData : NoteEvent)
    (v : string) (i : nat) (e : MusicEngine) (step' j : nat) :
  note_at (Services_fire time step noteData v i e) step' j = note_at e step' j.
Proof.
  unfold note_at, Services_fire.
  destruct (gate noteData || (step mod 4 =? 0)%nat); [|reflexivity].
  destruct (Services_route_frame time noteData v i e) as (_ & -> & _).
  reflexivity.
Qed.

Lemma Services_tick_unrolled (time : R) (e : MusicEngine) (step : nat)
    (nd0 nd1 nd2 nd3 : NoteEvent) :
  loop e = Some (Tone.mkLoop step) ->
  Tone.started (transport e) = true ->
  note_at e step 0 = Some nd0 -> note_at e step 1 = Some nd1 ->
  note_at e step 2 = Some nd2 -> note_at e step 3 = Some nd3 ->
  Services.tick time e = Some (Services_ticked time step nd0 nd1 nd2 nd3 e).
Proof.
  intros Hl Hs H0 H1 H2 H3. unfold Services.tick, Services.callback.
  rewrite Hl, Hs. cbn [Tone.step]. unfold voices. cbn [forEach].
  rewrite (Services_voice_callback_fire _ _ _ _ _ nd0 H0).
  rewrite (Services_voice_callback_fire _ _ _ _ _ nd1)
    by (rewrite Services_fire_note_at; exact H1).
  rewrite (Services_voice_callback_fire _ _ _ _ _ nd2)
    by (rewrite !Services_fire_note_at; exact H2).
  rewrite (Services_voice_callback_fire _ _ _ _ _ nd3)
    by (rewrite !Services_fire_note_at; exact H3).
  reflexivity.
Qed.

End ServicesLoop.

Section ServicesTick.

Lemma Services_route_self (time : R) (noteData : NoteEvent) (v : string)
    (i : nat) (e : MusicEngine) :
  samplers (Services.route time noteData v i e) !! v
    = (if Services_ready e v
       then Tone.sampler_do (Services_sampler_call time noteData i)
              <$> samplers e !! v
       else samplers e !! v) /\
  fallbacks (Services.route time noteData v i e) !! v
    = (if Services_ready e v
       then fallbacks e !! v
       else Tone.synth_do (Services_fallback_call time noteData i)
              <$> fallbacks e !! v).
Proof.
  unfold Services_ready, Services.route. cbv zeta.
  destruct (samplers e !! v) as [s|] eqn:Hs.
  - destruct (Tone.loaded s).
    + cbn. rewrite lookup_alter_eq, Hs. split; reflexivity.
    + destruct (fallbacks e !! v) eqn:Hf; cbn;
        rewrite ?lookup_alter_eq, ?Hs, ?Hf; split; reflexivity.
  - destruct (fallbacks e !! v) eqn:Hf; cbn;
      rewrite ?lookup_alter_eq, ?Hs, ?Hf; split; reflexivity.
Qed.

Lemma Services_route_ready (time : R) (noteData : NoteEvent) (v : string)
    (i : nat) (e : MusicEngine) (k : string) :
  Services_ready (Services.route time noteData v i e) k = Services_ready e k.
Proof.
  unfold Services_ready at 1.
  destruct (decide (k = v)) as [->|Hk].
  - destruct (Services_route_self time noteData v i e) as [-> _].
    unfold Services_ready.
    destruct (samplers e !! v) as [s|]; [|reflexivity].
    destruct (Tone.loaded s) eqn:Hl; cbn; rewrite ?Hl; reflexivity.
  - destruct (Services_route_others time noteData v i e k Hk) as [-> _].
    reflexivity.
Qed.

Lemma Services_route_all_others (time : R)
    (l : list (string * nat * NoteEvent)) (e : MusicEngine) (k : string) :
  ~ In k (map (fun x => fst (fst x)) l) ->
  samplers (Services_route_all time l e) !! k = samplers e !! k /\
  fallbacks (Services_route_all time l e) !! k = fallbacks e !! k.
Proof.
  revert e. induction l as [|[[v i] nd] l IH]; intros e Hk; cbn.
  - split; reflexivity.
  - cbn in Hk. destruct (IH (Services.route time nd v i e)) as [-> ->];
      [tauto|].
    apply Services_route_others. intros ->. tauto.
Qed.

Lemma Services_route_all_self (time : R)
    (l : list (string * nat * NoteEvent)) (e : MusicEngine)
    (v : string) (i : nat) (noteData : NoteEvent) :
  List.NoDup (map (fun x => fst (fst x)) l) -> In (v, i, noteData) l ->
  samplers (Services_route_all time l e) !! v
    = (if Services_ready e v
       then Tone.sampler_do (Services_sampler_call time noteData i)
              <$> samplers e !! v
       else samplers e !! v) /\
  fallbacks (Services_route_all time l e) !! v
    = (if Services_ready e v
       then fallbacks e !! v
       else Tone.synth_do (Services_fallback_call time noteData i)
              <$> fallbacks e !! v).
Proof.
  revert e. induction l as [|[[v' i'] nd'] l IH]; intros e Hnd Hin.
  - destruct Hin.
  - cbn in Hnd. apply List.NoDup_cons_iff in Hnd as [Hfresh Hnd].
    destruct Hin as [Heq|Hin].
    + injection Heq as -> -> ->. cbn.
      destruct (Services_route_all_others time l
                  (Services.route time noteData v i e) v Hfresh) as [-> ->].
      apply Services_route_self.
    + assert (v <> v') as Hne.
      { intros ->. apply Hfresh.
        apply (in_map (fun x => fst (fst x)) _ _ Hin). }
      cbn. destruct (IH (Services.route time nd' v' i' e) Hnd Hin) as [-> ->].
      rewrite Services_route_ready.
      destruct (Services_route_others time nd' v' i' e v Hne) as [-> ->].
      split; reflexivity.
Qed.

Lemma Services_fire_on_pulse (time : R) (step : nat) (noteData : NoteEvent)
    (v : string) (i : nat) (e : MusicEngine) :
  (step mod 4 = 0)%nat ->
  Services_fire time step noteData v i e = Services.route time noteData v i e.
Proof.
  intros H. unfold Services_fire. rewrite H. rewrite orb_true_r. reflexivity.
Qed.

Lemma Services_fire_off_pulse (time : R) (step : nat) (noteData : NoteEvent)
    (v : string) (i : nat) (e : MusicEngine) :
  gate noteData = false -> (step mod 4 <> 0)%nat ->
  Services_fire time step noteData v i e = e.
Proof.
  intros Hg H. unfold Services_fire. rewrite Hg.
  destruct (Nat.eqb_spec (step mod 4) 0); [contradiction|reflexivity].
Qed.

Lemma Services_stop_instruments (e : MusicEngine) :
  samplers (Services.stop e) = samplers e /\
  fallbacks (Services.stop e) = fallbacks e /\
  loadedStates (Services.stop e) = loadedStates e /\
  loop (Services.stop e) = None /\
  currentPhase (Services.stop e) = idle /\
  Tone.started (transport (Services.stop e)) = false.
Proof.
  destruct e as [sa fa lo ls ii cm cp op tr no].
  unfold Services.stop, emit. cbn.
  destruct lo, op; cbn; repeat split; reflexivity.
Qed.

Lemma Services_play_instruments (v : list JS.num) (phase : CompositionPhase)
    (e : MusicEngine) :
  samplers (Services.play v phase e) = samplers e /\
  fallbacks (Services.play v phase e) = fallbacks e /\
  loadedStates (Services.play v phase e) = loadedStates e.
Proof.
  destruct (Services_stop_instruments e) as (Hs & Hf & Hl & _).
  enough (samplers (Services.play v phase e) = samplers (Services.stop e) /\
          fallbacks (Services.play v phase e) = fallbacks (Services.stop e) /\
          loadedStates (Services.play v phase e)
            = loadedStates (Services.stop e)) as (H1 & H2 & H3).
  { rewrite H1, H2, H3. repeat split; assumption. }
  unfold Services.play. cbv zeta.
  generalize (Services.stop e). intros [sa fa lo ls ii cm cp op tr no].
  unfold emit. cbn. destruct op; repeat split; reflexivity.
Qed.

(** After [play], the event of voice [i] at [step] is the one at
    [step mod 16] in its melody. *)
Lemma Services_play_note_at (v : list JS.num) (phase : CompositionPhase)
    (e : MusicEngine) (step i : nat) (melody : list NoteEvent) :
  currentMelodies (Services.play v phase e) !! i = Some melody ->
  note_at (Services.play v phase e) step i = melody !! (step mod 16)%nat /\
  is_Some (melody !! (step mod 16)%nat).
Proof.
  intros Hm. unfold note_at. rewrite Hm.
  assert (length melody = 16%nat) as Hlen.
  { rewrite Services_play_melodies in Hm.
    destruct i as [|[|[|[|i]]]]; cbn [lookup list_lookup] in Hm;
      try discriminate; injection Hm as <-; apply Services_melody_length. }
  change (mbind ?f (Some melody)) with (f melody). cbv beta.
  rewrite Hlen. split; [reflexivity|].
  apply lookup_lt_is_Some. rewrite Hlen. apply Nat.mod_upper_bound. lia.
Qed.

End ServicesTick.

(** ** Loading the samples *)

Section Load.

Lemma flag_update_self (o : load_event) (key : string)
    (flags : gmap string bool) :
  o <> pending -> flag_update o key flags !! key = Some (is_onload o).
Proof.
  destruct o; intros H; cbn; rewrite ?lookup_insert_eq; congruence.
Qed.

Lemma flag_update_other (o : load_event) (key k : string)
    (flags : gmap string bool) :
  key <> k -> flag_update o key flags !! k = flags !! k.
Proof.
  intros H. destruct o; cbn; rewrite ?lookup_insert_ne by exact H; reflexivity.
Qed.

Lemma Services_load_entry_eq (outcome : string -> load_event) (key : string)
    (config : string * string) (e : MusicEngine) :
  Services.load_entry outcome (key, config) e
  = (set_loadedStates (flag_update (outcome key) key (loadedStates e))
       (set_samplers
          (<[key := Tone.mkSampler config (is_onload (outcome key)) []]>
             (samplers e)) e),
     settled (outcome key)).
Proof.
  unfold Services.load_entry. destruct (outcome key); reflexivity.
Qed.

(** The state [load] leaves: a sampler per voice, loaded or not, the
    flags the callbacks wrote, and whether the promise is resolved. *)
Lemma Services_load_fields (outcome : string -> load_event) (e : MusicEngine) :
  fallbacks (Services.load outcome e).1 = fallbacks e /\
  (forall k : string, In k voices ->
     exists config : string * string,
       samplers (Services.load outcome e).1 !! k
       = Some (Tone.mkSampler config (is_onload (outcome k)) [])) /\
  (forall k : string, In k voices -> outcome k <> pending ->
     loadedStates (Services.load outcome e).1 !! k
     = Some (is_onload (outcome k))) /\
  (Services.load outcome e).2
  = forallb (fun k => settled (outcome k)) voices.
Proof.
  unfold Services.load, Services.VOICE_CONFIGS. cbn [Services.load_entries].
  rewrite !Services_load_entry_eq. cbn [fst snd samplers loadedStates
    fallbacks set_samplers set_loadedStates set_isInitialized forallb voices].
  split; [reflexivity|]. split; [|split].
  - intros k [<-|[<-|[<-|[<-|[]]]]]; eexists;
      rewrite ?lookup_insert_eq;
      repeat (rewrite lookup_insert_ne by discriminate;
              rewrite ?lookup_insert_eq);
      reflexivity.
  - intros k [<-|[<-|[<-|[<-|[]]]]] Hk;
      repeat (rewrite flag_update_other by discriminate);
      apply flag_update_self; exact Hk.
  - rewrite andb_true_r, !andb_assoc. reflexivity.
Qed.

End Load.

(** ** Playing after a partly failed load *)

Section PartialFailure.

Lemma pulse_entries_NoDup (nd0 nd1 nd2 nd3 : NoteEvent) :
  List.NoDup (map (fun x => fst (fst x)) (pulse_entries nd0 nd1 nd2 nd3)).
Proof.
  cbn. repeat constructor; cbn; intros H;
    repeat (destruct H as [H|H]; [discriminate H|]); exact H.
Qed.

Lemma Services_ticked_on_pulse (time : R) (step : nat)
    (nd0 nd1 nd2 nd3 : NoteEvent) (e : MusicEngine) :
  (step mod 4 = 0)%nat ->
  Services_ticked time step nd0 nd1 nd2 nd3 e
  = set_loop (Some (Tone.mkLoop (S step)))
      (Services_route_all time (pulse_entries nd0 nd1 nd2 nd3) e).
Proof.
  intros H. unfold Services_ticked.
  rewrite !Services_fire_on_pulse by exact H. reflexivity.
Qed.

(** Where the note of one voice goes on a pulse step, from a state whose
    sampler for the voice has made no call yet. *)
Lemma Services_pulse_voice (time : R) (nd0 nd1 nd2 nd3 : NoteEvent)
    (e : MusicEngine) (k : string) (i : nat) (noteData : NoteEvent)
    (config : string * string) (ok : bool) (s : Tone.PolySynth) :
  In (k, i, noteData) (pulse_entries nd0 nd1 nd2 nd3) ->
  samplers e !! k = Some (Tone.mkSampler config ok []) ->
  fallbacks e !! k = Some s ->
  let e' := Services_route_all time (pulse_entries nd0 nd1 nd2 nd3) e in
  if ok
  then Tone.sampler_calls <$> samplers e' !! k
         = Some [Tone.triggerAttackRelease (Services.finalNote noteData i)
                   (Services.durations !! i) time (velocity noteData)] /\
       fallbacks e' !! k = Some s
  else Tone.synth_calls <$> fallbacks e' !! k
         = Some (Tone.synth_calls s ++
                 [Tone.triggerAttackRelease (Services.finalNote noteData i)
                    (Services.durations !! i) time
                    (JS.mul (velocity noteData) (JS.Fin 0.4))]) /\
       Tone.sampler_calls <$> samplers e' !! k = Some [].
Proof.
  intros Hin Hs Hf. cbv zeta.
  destruct (Services_route_all_self time _ e k i noteData
              (pulse_entries_NoDup nd0 nd1 nd2 nd3) Hin) as [-> ->].
  unfold Services_ready. rewrite Hs, Hf. cbn [Tone.loaded].
  destruct ok; split; reflexivity.
Qed.

(** The first tick of a live loop in [services/musicEngine.ts]: it
    returns, and every voice is routed by the state of its sampler. *)
Lemma Services_first_tick_routes (time : R) (e : MusicEngine)
    (nd0 nd1 nd2 nd3 : NoteEvent) :
  loop e = Some (Tone.mkLoop 0) -> Tone.started (transport e) = true ->
  note_at e 0 0 = Some nd0 -> note_at e 0 1 = Some nd1 ->
  note_at e 0 2 = Some nd2 -> note_at e 0 3 = Some nd3 ->
  exists e' : MusicEngine,
    Services.tick time e = Some e' /\
    forall (k : string) (i : nat) (noteData : NoteEvent)
           (config : string * string) (ok : bool) (s : Tone.PolySynth),
      In (k, i, noteData) (pulse_entries nd0 nd1 nd2 nd3) ->
      samplers e !! k = Some (Tone.mkSampler config ok []) ->
      fallbacks e !! k = Some s ->
      if ok
      then Tone.sampler_calls <$> samplers e' !! k
             = Some [Tone.triggerAttackRelease
                       (Services.finalNote noteData i)
                       (Services.durations !! i) time (velocity noteData)] /\
           fallbacks e' !! k = Some s
      else Tone.synth_calls <$> fallbacks e' !! k
             = Some (Tone.synth_calls s ++
                     [Tone.triggerAttackRelease
                        (Services.finalNote noteData i)
                        (Services.durations !! i) time
                        (JS.mul (velocity noteData) (JS.Fin 0.4))]) /\
           Tone.sampler_calls <$> samplers e' !! k = Some [].
Proof.
  intros Hl Hs H0 H1 H2 H3.
  exists (set_loop (Some (Tone.mkLoop 1))
            (Services_route_all time (pulse_entries nd0 nd1 nd2 nd3) e)).
  split.
  - rewrite (Services_tick_unrolled time e 0 nd0 nd1 nd2 nd3
               Hl Hs H0 H1 H2 H3).
    rewrite Services_ticked_on_pulse by reflexivity. reflexivity.
  - intros k i noteData config ok s Hin Hsm Hfb.
    exact (Services_pulse_voice time nd0 nd1 nd2 nd3 e k i noteData config
             ok s Hin Hsm Hfb).
Qed.

(** After [play], each voice has a melody and an event to read at step
    0. *)
Lemma Services_play_first_notes (v : list JS.num) (phase : CompositionPhase)
    (e : MusicEngine) (i : nat) :
  (i < 4)%nat ->
  exists (melody : list NoteEvent) (noteData : NoteEvent),
    currentMelodies (Services.play v phase e) !! i = Some melody /\
    melody !! 0%nat = Some noteData /\
    note_at (Services.play v phase e) 0 i = Some noteData.
Proof.
  intros Hi.
  assert (is_Some (currentMelodies (Services.play v phase e) !! i))
    as [melody Hm].
  { apply lookup_lt_is_Some. rewrite Services_play_melodies. exact Hi. }
  destruct (Services_play_note_at v phase e 0 i melody Hm) as (Hat & nd & Hnd).
  exists melody, nd. rewrite Nat.Div0.mod_0_l in Hat, Hnd.
  split; [exact Hm|]. split; [exact Hnd|]. rewrite Hat. exact Hnd.
Qed.

Lemma all_settled (outcome : string -> load_event) :
  (forall k : string, In k voices -> outcome k <> pending) ->
  forallb (fun k => settled (outcome k)) voices = true.
Proof.
  intros H. apply forallb_forall. intros k Hk. specialize (H k Hk).
  destruct (outcome k); [reflexivity | reflexivity | congruence].
Qed.

(** C8.  When every sample load ends, in success or in failure, [load]
    resolves and the readiness flag of each failed voice is false.  A
    [play] that follows then triggers, on its first tick, one note for
    each of the four voices: on the voice's sampler at the event's velocity
    when its load succeeded, and otherwise on the voice's fallback
    synthesizer at 0.4 of the velocity, the sampler staying untouched.
    (The engine is any state in which the four fallbacks exist, as they do
    from construction on.) *)
Theorem failed_loads_fall_back (outcome : string -> load_event)
    (v : list JS.num) (phase : CompositionPhase) (time : R) (e : MusicEngine)
    (Hsettled : forall k : string, In k voices -> outcome k <> pending)
    (Hsynth : forall k : string, In k voices -> is_Some (fallbacks e !! k)) :
  let e1 := (Services.load outcome e).1 in
  let e2 := Services.play v phase e1 in
  (Services.load outcome e).2 = true /\
  (forall k : string, In k voices -> outcome k = onerror ->
     loadedStates e1 !! k = Some false) /\
  exists e3 : MusicEngine,
    Services.tick time e2 = Some e3 /\
    forall (i : nat) (k : string), voices !! i = Some k ->
      exists (melody : list NoteEvent) (noteData : NoteEvent)
             (s : Tone.PolySynth),
        currentMelodies e2 !! i = Some melody /\
        melody !! 0%nat = Some noteData /\
        fallbacks e !! k = Some s /\
        match outcome k with
        | onload =>
            Tone.sampler_calls <$> samplers e3 !! k
              = Some [Tone.triggerAttackRelease
                        (Services.finalNote noteData i)
                        (Services.durations !! i) time (velocity noteData)] /\
            fallbacks e3 !! k = Some s
        | _ =>
            Tone.synth_calls <$> fallbacks e3 !! k
              = Some (Tone.synth_calls s ++
                      [Tone.triggerAttackRelease
                         (Services.finalNote noteData i)
                         (Services.durations !! i) time
                         (JS.mul (velocity noteData) (JS.Fin 0.4))]) /\
            Tone.sampler_calls <$> samplers e3 !! k = Some []
        end.
Proof.
  cbv zeta.
  destruct (Services_load_fields outcome e) as (Hfb & Hsm & Hfl & Hres).
  generalize dependent (Services.load outcome e). intros [e1 resolved].
  cbn [fst snd]. intros Hfb Hsm Hfl Hres.
  destruct (Services_play_instruments v phase e1) as (Hps & Hpf & _).
  destruct (Services_play_live v phase e1) as (Hloop & Hstart).
  destruct (Services_play_first_notes v phase e1 0 ltac:(lia))
    as (m0 & nd0 & Hm0 & Hd0 & Ha0).
  destruct (Services_play_first_notes v phase e1 1 ltac:(lia))
    as (m1 & nd1 & Hm1 & Hd1 & Ha1).
  destruct (Services_play_first_notes v phase e1 2 ltac:(lia))
    as (m2 & nd2 & Hm2 & Hd2 & Ha2).
  destruct (Services_play_first_notes v phase e1 3 ltac:(lia))
    as (m3 & nd3 & Hm3 & Hd3 & Ha3).
  revert Hps Hpf Hloop Hstart Hm0 Hm1 Hm2 Hm3 Ha0 Ha1 Ha2 Ha3.
  generalize (Services.play v phase e1). intros e2.
  intros Hps Hpf Hloop Hstart Hm0 Hm1 Hm2 Hm3 Ha0 Ha1 Ha2 Ha3.
  split; [rewrite Hres; apply all_settled; exact Hsettled|].
  split.
  { intros k Hk Herr. rewrite Hfl by (try assumption; congruence).
    rewrite Herr. reflexivity. }
  destruct (Services_first_tick_routes time e2 nd0 nd1 nd2 nd3
              Hloop Hstart Ha0 Ha1 Ha2 Ha3) as (e3 & Htick & Hroute).
  exists e3. split; [exact Htick|].
  assert (forall (k : string) (i : nat) (nd : NoteEvent),
            In k voices -> In (k, i, nd) (pulse_entries nd0 nd1 nd2 nd3) ->
            exists s : Tone.PolySynth,
              fallbacks e !! k = Some s /\
              match outcome k with
              | onload =>
                  Tone.sampler_calls <$> samplers e3 !! k
                  = Some [Tone.triggerAttackRelease
                            (Services.finalNote nd i)
                            (Services.durations !! i) time (velocity nd)] /\
                  fallbacks e3 !! k = Some s
              | _ =>
                  Tone.synth_calls <$> fallbacks e3 !! k
                  = Some (Tone.synth_calls s ++
                          [Tone.triggerAttackRelease
                             (Services.finalNote nd i)
                             (Services.durations !! i) time
                             (JS.mul (velocity nd) (JS.Fin 0.4))]) /\
                  Tone.sampler_calls <$> samplers e3 !! k = Some []
              end) as Hvoice.
  { intros k i nd Hk Hin.
    destruct (Hsynth k Hk) as [s Hs].
    destruct (Hsm k Hk) as [config Hcfg].
    exists s. split; [exact Hs|].
    pose proof (Hroute k i nd config (is_onload (outcome k)) s Hin) as Hp.
    rewrite Hps, Hpf, Hfb in Hp. specialize (Hp Hcfg Hs).
    destruct (outcome k); exact Hp. }
  intros i k Hik.
  destruct i as [|[|[|[|i]]]]; cbn [lookup list_lookup voices] in Hik;
    try discriminate; injection Hik as <-.
  - destruct (Hvoice "bass"%string 0%nat nd0) as (s & Hs & Hv);
      [left; reflexivity | left; reflexivity |].
    exists m0, nd0, s. split; [exact Hm0|]. split; [exact Hd0|].
    split; [exact Hs | exact Hv].
  - destruct (Hvoice "tenor"%string 1%nat nd1) as (s & Hs & Hv);
      [right; left; reflexivity | right; left; reflexivity |].
    exists m1, nd1, s. split; [exact Hm1|]. split; [exact Hd1|].
    split; [exact Hs | exact Hv].
  - destruct (Hvoice "alto"%string 2%nat nd2) as (s & Hs & Hv);
      [right; right; left; reflexivity | right; right; left; reflexivity |].
    exists m2, nd2, s. split; [exact Hm2|]. split; [exact Hd2|].
    split; [exact Hs | exact Hv].
  - destruct (Hvoice "soprano"%string 3%nat nd3) as (s & Hs & Hv);
      [right; right; right; left; reflexivity
      | right; right; right; left; reflexivity |].
    exists m3, nd3, s. split; [exact Hm3|]. split; [exact Hd3|].
    split; [exact Hs | exact Hv].
Qed.

Lemma Services_new_fallbacks (k : string) :
  In k voices -> is_Some (fallbacks Services.new !! k).
Proof.
  unfold Services.new, Services.initFallbacks. cbn [fallbacks set_fallbacks].
  intros [<-|[<-|[<-|[<-|[]]]]];
    repeat (rewrite lookup_insert_ne by discriminate);
    rewrite lookup_insert_eq; eauto.
Qed.

Lemma failed_loads_fall_back_witness :
  (forall k : string, In k voices -> alto_fails k <> pending) /\
  (forall k : string, In k voices -> is_Some (fallbacks Services.new !! k)) /\
  (Services.load alto_fails Services.new).2 = true /\
  loadedStates (Services.load alto_fails Services.new).1 !! "alto"%string
  = Some false.
Proof.
  assert (forall k : string, In k voices -> alto_fails k <> pending) as H1.
  { intros k _. unfold alto_fails. destruct (String.eqb k "alto"); discriminate. }
  split; [exact H1|]. split; [exact Services_new_fallbacks|].
  destruct (failed_loads_fall_back alto_fails (zeros 384) start 0
              Services.new H1 Services_new_fallbacks) as (Hres & Hflags & _).
  split; [exact Hres|].
  apply Hflags; [cbn; tauto | reflexivity].
Defined.

End PartialFailure.

(** ** Runs of the loop *)

Section Runs.

Lemma Root_voice_callback_fire (time : R) (step : nat) (v : string)
    (i : nat) (e : MusicEngine) (noteData : NoteEvent) :
  note_at e step i = Some noteData ->
  Root.voice_callback time step v i e
  = Some (Root_fire time step noteData v i e).
Proof.
  unfold note_at, Root.voice_callback, Root_fire. intros H.
  destruct (currentMelodies e !! i) as [melody|]; [|discriminate].
  change (match length melody with
          | O => None
          | S _ => melody !! (step mod length melody)%nat
          end = Some noteData) in H.
  change (mbind ?f (Some melody)) with (f melody). cbv beta.
  rewrite H. change (mbind ?f (Some noteData)) with (f noteData). cbv beta.
  destruct (gate noteData || (step mod 16 =? 0)%nat); reflexivity.
Qed.

Lemma Root_fire_frame (time : R) (step : nat) (noteData : NoteEvent)
    (v : string) (i : nat) (e : MusicEngine) :
  loop (Root_fire time step noteData v i e) = loop e /\
  currentMelodies (Root_fire time step noteData v i e) = currentMelodies e /\
  transport (Root_fire time step noteData v i e) = transport e.
Proof.
  unfold Root_fire.
  destruct (gate noteData || (step mod 16 =? 0)%nat);
    [|repeat split; reflexivity].
  destruct (Root_route_frame time noteData v i e) as (-> & -> & _ & -> & _).
  repeat split; reflexivity.
Qed.

Lemma Services_fire_frame (time : R) (step : nat) (noteData : NoteEvent)
    (v : string) (i : nat) (e : MusicEngine) :
  loop (Services_fire time step noteData v i e) = loop e /\
  currentMelodies (Services_fire time step noteData v i e)
    = currentMelodies e /\
  transport (Services_fire time step noteData v i e) = transport e.
Proof.
  unfold Services_fire.
  destruct (gate noteData || (step mod 4 =? 0)%nat);
    [|repeat split; reflexivity].
  destruct (Services_route_frame time noteData v i e)
    as (-> & -> & _ & -> & _).
  repeat split; reflexivity.
Qed.

Lemma note_at_melodies (e e' : MusicEngine) (step i : nat) :
  currentMelodies e' = currentMelodies e ->
  note_at e' step i = note_at e step i.
Proof. unfold note_at. intros ->. reflexivity. Qed.

Lemma tuned_melodies (e e' : MusicEngine) :
  currentMelodies e' = currentMelodies e -> tuned e -> tuned e'.
Proof.
  intros H Ht step i Hi. rewrite (note_at_melodies e e' step i H).
  apply Ht. exact Hi.
Qed.

(** A tick of a live, tuned loop returns: the counter moves on and the
    melodies stay. *)
Lemma Root_tick_total (time : R) (e : MusicEngine) (step : nat) :
  live_at e step -> tuned e ->
  exists e' : MusicEngine,
    Root.tick time e = Some e' /\ live_at e' (S step) /\
    currentMelodies e' = currentMelodies e.
Proof.
  intros [Hl Hs] Ht.
  destruct (Ht step 0%nat ltac:(lia)) as [nd0 H0].
  destruct (Ht step 1%nat ltac:(lia)) as [nd1 H1].
  destruct (Ht step 2%nat ltac:(lia)) as [nd2 H2].
  destruct (Ht step 3%nat ltac:(lia)) as [nd3 H3].
  unfold Root.tick, Root.callback. rewrite Hl, Hs. cbn [Tone.step].
  unfold voices. cbn [forEach].
  rewrite (Root_voice_callback_fire _ _ _ _ _ nd0 H0).
  set (e0 := Root_fire time step nd0 "bass" 0 e).
  destruct (Root_fire_frame time step nd0 "bass" 0 e) as (L0 & M0 & T0).
  fold e0 in L0, M0, T0.
  rewrite (Root_voice_callback_fire _ _ _ _ _ nd1)
    by (rewrite (note_at_melodies e e0 _ _ M0); exact H1).
  set (e1 := Root_fire time step nd1 "tenor" 1 e0).
  destruct (Root_fire_frame time step nd1 "tenor" 1 e0) as (L1 & M1 & T1).
  fold e1 in L1, M1, T1. rewrite M0 in M1.
  rewrite (Root_voice_callback_fire _ _ _ _ _ nd2)
    by (rewrite (note_at_melodies e e1 _ _ M1); exact H2).
  set (e2 := Root_fire time step nd2 "alto" 2 e1).
  destruct (Root_fire_frame time step nd2 "alto" 2 e1) as (L2 & M2 & T2).
  fold e2 in L2, M2, T2. rewrite M1 in M2.
  rewrite (Root_voice_callback_fire _ _ _ _ _ nd3)
    by (rewrite (note_at_melodies e e2 _ _ M2); exact H3).
  set (e3 := Root_fire time step nd3 "soprano" 3 e2).
  destruct (Root_fire_frame time step nd3 "soprano" 3 e2) as (L3 & M3 & T3).
  fold e3 in L3, M3, T3. rewrite M2 in M3.
  eexists. split; [reflexivity|]. split.
  - split; [reflexivity|]. cbn. rewrite T3, T2, T1, T0. exact Hs.
  - cbn. exact M3.
Qed.

Lemma Root_play_tuned (v : list JS.num) (phase : CompositionPhase)
    (e : MusicEngine) :
  tuned (Root.play v phase e).
Proof.
  intros step i Hi. unfold note_at. rewrite Root_play_melodies.
  destruct i as [|[|[|[|i]]]]; try lia; cbn [lookup list_lookup];
    change (mbind ?f (Some ?m)) with (f m); cbv beta;
    rewrite Root_melody_length; apply lookup_lt_is_Some;
    rewrite Root_melody_length; apply Nat.mod_upper_bound; lia.
Qed.

Lemma Services_play_tuned (v : list JS.num) (phase : CompositionPhase)
    (e : MusicEngine) :
  tuned (Services.play v phase e).
Proof.
  intros step i Hi. unfold note_at. rewrite Services_play_melodies.
  destruct i as [|[|[|[|i]]]]; try lia; cbn [lookup list_lookup];
    change (mbind ?f (Some ?m)) with (f m); cbv beta;
    rewrite Services_melody_length; apply lookup_lt_is_Some;
    rewrite Services_melody_length; apply Nat.mod_upper_bound; lia.
Qed.

(** Any number of ticks after [play] in [musicEngine.ts] return, and no
    instrument ever holds more than one note. *)
Lemma Root_run_exclusive (times : list R) (e : MusicEngine) (step : nat) :
  live_at e step -> tuned e -> exclusive e ->
  exists e' : MusicEngine,
    run Root.tick times e = Some e' /\
    live_at e' (step + length times) /\ exclusive e'.
Proof.
  revert e step. induction times as [|t times IH]; intros e step Hl Ht He.
  - exists e. cbn [run length]. rewrite Nat.add_0_r.
    split; [reflexivity|]. split; [exact Hl | exact He].
  - destruct (Root_tick_total t e step Hl Ht) as (e1 & Htick & Hl1 & Hm1).
    destruct (IH e1 (S step) Hl1 (tuned_melodies e e1 Hm1 Ht)
                (Root_tick_exclusive t e e1 Htick He))
      as (e' & Hrun & Hl' & He').
    exists e'. cbn [run]. rewrite Htick. split; [exact Hrun|].
    split; [|exact He'].
    cbn [length]. replace (step + S (length times))%nat
      with (S step + length times)%nat by lia. exact Hl'.
Qed.

(** X15.  In [musicEngine.ts], after [play] on any vector and from any
    state, every run of ticks returns and leaves no instrument with more
    than one note: each trigger is preceded by a [releaseAll] on the same
    instrument ([Root_route_sampler], [Root_route_fallback]). *)
Theorem Root_retrigger_is_exclusive (v : list JS.num)
    (phase : CompositionPhase) (e : MusicEngine) (times : list R) :
  exists e' : MusicEngine,
    run Root.tick times (Root.play v phase e) = Some e' /\ exclusive e'.
Proof.
  destruct (Root_run_exclusive times (Root.play v phase e) 0) as (e' & H & _ & He).
  - apply Root_play_live.
  - apply Root_play_tuned.
  - apply silent_exclusive, Root_play_silent.
  - exists e'. split; assumption.
Qed.

End Runs.

(** ** [services/musicEngine.ts]: notes pile up, and [stop] leaves them *)

Section PileUp.

Lemma Services_play_zeros_gates_closed (phase : CompositionPhase)
    (e : MusicEngine) :
  gates_closed (Services.play (zeros 384) phase e).
Proof.
  intros step i nd Hat.
  destruct (currentMelodies (Services.play (zeros 384) phase e) !! i)
    as [melody|] eqn:Hm.
  - destruct (Services_play_note_at _ _ _ step i melody Hm) as [Heq _].
    rewrite Heq in Hat.
    apply (Services_play_zeros_silent phase e melody nd).
    + apply list_elem_of_In. eapply list_elem_of_lookup_2. exact Hm.
    + apply list_elem_of_In. eapply list_elem_of_lookup_2. exact Hat.
  - unfold note_at in Hat. rewrite Hm in Hat. discriminate.
Qed.

Lemma Services_route_all_frame (time : R)
    (l : list (string * nat * NoteEvent)) (e : MusicEngine) :
  currentMelodies (Services_route_all time l e) = currentMelodies e /\
  transport (Services_route_all time l e) = transport e.
Proof.
  revert e. induction l as [|[[v i] nd] l IH]; intros e; cbn.
  - split; reflexivity.
  - destruct (IH (Services.route time nd v i e)) as [-> ->].
    destruct (Services_route_frame time nd v i e) as (_ & -> & _ & -> & _).
    split; reflexivity.
Qed.

Lemma Services_route_no_sampler (time : R) (noteData : NoteEvent)
    (v : string) (i : nat) (e : MusicEngine) :
  samplers e = ∅ -> samplers (Services.route time noteData v i e) = ∅.
Proof.
  intros H. unfold Services.route. cbv zeta. rewrite H, lookup_empty.
  destruct (fallbacks e !! v); cbn; exact H.
Qed.

Lemma Services_ready_no_sampler (e : MusicEngine) (v : string) :
  samplers e = ∅ -> Services_ready e v = false.
Proof. intros H. unfold Services_ready. rewrite H, lookup_empty. reflexivity. Qed.

(** One tick of a live loop whose gates are closed, on an engine without
    samplers: on a pulse step the bass fallback gets one more note, and it
    keeps what it holds; off the pulse nothing sounds. *)
Lemma Services_tick_piles (time : R) (e : MusicEngine) (step : nat) :
  live_at e step -> tuned e -> gates_closed e -> samplers e = ∅ ->
  is_Some (fallbacks e !! "bass"%string) ->
  exists e' : MusicEngine,
    Services.tick time e = Some e' /\
    live_at e' (S step) /\ currentMelodies e' = currentMelodies e /\
    samplers e' = ∅ /\ is_Some (fallbacks e' !! "bass"%string) /\
    length (fallback_holds e' "bass")
    = (length (fallback_holds e "bass")
       + (if (step mod 4 =? 0)%nat then 1 else 0))%nat.
Proof.
  intros [Hl Hs] Ht Hg Hsm [sy Hsy].
  destruct (Ht step 0%nat ltac:(lia)) as [nd0 H0].
  destruct (Ht step 1%nat ltac:(lia)) as [nd1 H1].
  destruct (Ht step 2%nat ltac:(lia)) as [nd2 H2].
  destruct (Ht step 3%nat ltac:(lia)) as [nd3 H3].
  exists (Services_ticked time step nd0 nd1 nd2 nd3 e).
  split; [apply Services_tick_unrolled; assumption|].
  destruct (Nat.eqb_spec (step mod 4) 0) as [Hp|Hp].
  - rewrite Services_ticked_on_pulse by exact Hp.
    destruct (Services_route_all_self time (pulse_entries nd0 nd1 nd2 nd3) e
                "bass" 0 nd0 (pulse_entries_NoDup _ _ _ _)
                ltac:(left; reflexivity)) as [_ Hfb].
    rewrite (Services_ready_no_sampler e _ Hsm), Hsy in Hfb.
    destruct (Services_route_all_frame time (pulse_entries nd0 nd1 nd2 nd3) e)
      as [Hmel Htr].
    split; [split; [reflexivity|cbn [transport set_loop]; rewrite Htr; exact Hs]|].
    split; [exact Hmel|].
    split.
    { cbn [samplers set_loop Services_route_all pulse_entries].
      repeat apply Services_route_no_sampler. exact Hsm. }
    unfold fallback_holds. cbn [fallbacks set_loop].
    rewrite Hfb, Hsy. cbn [fmap option_fmap option_map Tone.synth_calls
      Tone.synth_do].
    split; [eauto|]. unfold Services_fallback_call.
    rewrite sounding_triggered, length_app. reflexivity.
  - unfold Services_ticked.
    rewrite (Services_fire_off_pulse _ _ nd0) by (eauto using Hg).
    rewrite (Services_fire_off_pulse _ _ nd1) by (eauto using Hg).
    rewrite (Services_fire_off_pulse _ _ nd2) by (eauto using Hg).
    rewrite (Services_fire_off_pulse _ _ nd3) by (eauto using Hg).
    split; [split; [reflexivity|exact Hs]|]. split; [reflexivity|].
    split; [exact Hsm|]. unfold fallback_holds. cbn [fallbacks set_loop].
    rewrite Hsy. split; [eauto|]. lia.
Qed.

Lemma Services_run_piles (times : list R) (e : MusicEngine) (step : nat) :
  live_at e step -> tuned e -> gates_closed e -> samplers e = ∅ ->
  is_Some (fallbacks e !! "bass"%string) ->
  exists e' : MusicEngine,
    run Services.tick times e = Some e' /\
    length (fallback_holds e' "bass")
    = (length (fallback_holds e "bass") + pulses step (length times))%nat.
Proof.
  revert e step.
  induction times as [|t times IH]; intros e step Hl Ht Hg Hsm Hfb.
  - exists e. split; [reflexivity|]. unfold pulses. cbn. lia.
  - destruct (Services_tick_piles t e step Hl Ht Hg Hsm Hfb)
      as (e1 & Htick & Hl1 & Hm1 & Hsm1 & Hfb1 & Hlen).
    assert (gates_closed e1) as Hg1.
    { intros s i nd Hat. rewrite (note_at_melodies e e1 s i Hm1) in Hat.
      exact (Hg s i nd Hat). }
    destruct (IH e1 (S step) Hl1 (tuned_melodies e e1 Hm1 Ht) Hg1 Hsm1 Hfb1)
      as (e' & Hrun & Hlen').
    exists e'. cbn [run]. rewrite Htick. split; [exact Hrun|].
    rewrite Hlen', Hlen. unfold pulses. cbn [length seq List.filter].
    destruct (step mod 4 =? 0)%nat; cbn [length]; lia.
Qed.

Lemma pulses_from_five (n : nat) : (5 <= n)%nat -> (2 <= pulses 0 n)%nat.
Proof.
  intros H. unfold pulses.
  replace n with (5 + (n - 5))%nat by lia.
  rewrite seq_app, List.filter_app, length_app. cbn. lia.
Qed.

Lemma Services_stop_holds (e : MusicEngine) (k : string) :
  sampler_holds (Services.stop e) k = sampler_holds e k /\
  fallback_holds (Services.stop e) k = fallback_holds e k.
Proof.
  destruct (Services_stop_instruments e) as (Hs & Hf & _).
  unfold sampler_holds, fallback_holds. rewrite Hs, Hf. split; reflexivity.
Qed.

Lemma Services_new_play_ready (v : list JS.num) (phase : CompositionPhase) :
  samplers (Services.play v phase Services.new) = ∅ /\
  is_Some (fallbacks (Services.play v phase Services.new) !! "bass"%string) /\
  fallback_holds (Services.play v phase Services.new) "bass" = [].
Proof.
  destruct (Services_play_instruments v phase Services.new) as (Hs & Hf & _).
  unfold fallback_holds. rewrite Hs, Hf.
  assert (fallbacks Services.new !! "bass"%string
          = Some (Tone.mkPolySynth "FMSynth" [])) as Hb.
  { unfold Services.new, Services.initFallbacks. cbn [fallbacks set_fallbacks].
    rewrite lookup_insert_ne by discriminate.
    rewrite lookup_insert_ne by discriminate.
    rewrite lookup_insert_ne by discriminate.
    apply lookup_insert_eq. }
  rewrite Hb. split; [reflexivity|]. split; [eauto|reflexivity].
Qed.

(** C1, where the code departs from it.  In [services/musicEngine.ts] the
    loop triggers without releasing: on the all-zeros vector and a freshly
    built engine, whatever the tick times, the bass fallback holds after
    the run one note per pulse step run through, so two from the fifth
    tick on.  ([musicEngine.ts] releases before it triggers, see
    [Root_retrigger_is_exclusive].) *)
Theorem Services_notes_pile_up (times : list R) :
  exists e' : MusicEngine,
    run Services.tick times (Services.play (zeros 384) start Services.new)
    = Some e' /\
    length (fallback_holds e' "bass") = pulses 0 (length times) /\
    ((5 <= length times)%nat -> ~ exclusive e').
Proof.
  destruct (Services_new_play_ready (zeros 384) start) as (Hsm & Hfb & Hh).
  destruct (Services_run_piles times
              (Services.play (zeros 384) start Services.new) 0)
    as (e' & Hrun & Hlen).
  - apply Services_play_live.
  - apply Services_play_tuned.
  - apply Services_play_zeros_gates_closed.
  - exact Hsm.
  - exact Hfb.
  - rewrite Hh in Hlen. cbn [length Nat.add] in Hlen.
    exists e'. split; [exact Hrun|]. split; [exact Hlen|].
    intros H5 Hex. destruct (Hex "bass"%string) as [_ Hle].
    pose proof (pulses_from_five _ H5). lia.
Qed.

(** C5, where the code departs from it.  [stop] in
    [services/musicEngine.ts] calls no instrument: what the instruments
    hold stays, also after a second [stop].  On the all-zeros vector and a
    freshly built engine, the note the bass fallback got on the first tick
    is still held after [stop].  ([musicEngine.ts] releases every
    instrument, see [Root_stop_silences].) *)
Theorem Services_stop_leaves_notes :
  (forall (e : MusicEngine) (k : string),
     sampler_holds (Services.stop e) k = sampler_holds e k /\
     fallback_holds (Services.stop e) k = fallback_holds e k) /\
  exists e' : MusicEngine,
    Services.tick 0 (Services.play (zeros 384) start Services.new) = Some e' /\
    length (fallback_holds (Services.stop e') "bass") = 1%nat /\
    length (fallback_holds (Services.stop (Services.stop e')) "bass") = 1%nat /\
    ~ silent (Services.stop e').
Proof.
  split; [apply Services_stop_holds|].
  destruct (Services_new_play_ready (zeros 384) start) as (Hsm & Hfb & Hh).
  destruct (Services_tick_piles 0
              (Services.play (zeros 384) start Services.new) 0)
    as (e' & Htick & _ & _ & _ & _ & Hlen).
  - apply Services_play_live.
  - apply Services_play_tuned.
  - apply Services_play_zeros_gates_closed.
  - exact Hsm.
  - exact Hfb.
  - rewrite Hh in Hlen. cbn in Hlen.
    exists e'. split; [exact Htick|].
    destruct (Services_stop_holds e' "bass") as [_ H1].
    destruct (Services_stop_holds (Services.stop e') "bass") as [_ H2].
    rewrite H2, H1. split; [exact Hlen|]. split; [exact Hlen|].
    intros Hsil. destruct (Hsil "bass"%string) as [_ Hnone].
    rewrite H1 in Hnone. rewrite Hnone in Hlen. discriminate.
Qed.

(** X16.  [stop] in [musicEngine.ts], from any state and with or without
    a live loop: the phase is idle, no loop is left, the transport is
    stopped and no instrument holds a note; a second [stop] changes none
    of this. *)
Theorem Root_stop_silences (e : MusicEngine) :
  let e1 := Root.stop e in
  let e2 := Root.stop e1 in
  (currentPhase e1 = idle /\ loop e1 = None /\
   Tone.started (transport e1) = false /\ silent e1) /\
  (currentPhase e2 = idle /\ loop e2 = None /\
   Tone.started (transport e2) = false /\ silent e2) /\
  (forall k : string,
     sampler_holds e2 k = sampler_holds e1 k /\
     fallback_holds e2 k = fallback_holds e1 k).
Proof.
  cbv zeta.
  assert (forall x, currentPhase (Root.stop x) = idle /\
                    loop (Root.stop x) = None /\
                    Tone.started (transport (Root.stop x)) = false /\
                    silent (Root.stop x)) as H.
  { intros x. destruct (Root_stop_fields x) as (_ & _ & Hl & Hp & Ht & _).
    repeat split; try assumption; apply Root_stop_silent. }
  split; [apply H|]. split; [apply H|].
  intros k.
  destruct (Root_stop_silent e k) as [-> ->].
  destruct (Root_stop_silent (Root.stop e) k) as [-> ->].
  split; reflexivity.
Qed.

End PileUp.

(** ** Playing after a partly failed load, in [musicEngine.ts] *)

Section RootPartialFailure.

Lemma Root_route_self (time : R) (noteData : NoteEvent) (v : string)
    (i : nat) (e : MusicEngine) :
  samplers (Root.route time noteData v i e) !! v
    = (if Root_ready e v
       then (fun s => Tone.sampler_do
                        (Tone.triggerAttackRelease (Root.finalNote noteData i)
                           (Root.durations !! i) time (velocity noteData))
                        (Tone.sampler_do (Tone.releaseAll (Some time)) s))
              <$> samplers e !! v
       else samplers e !! v) /\
  fallbacks (Root.route time noteData v i e) !! v
    = (if Root_ready e v
       then fallbacks e !! v
       else (fun s => Tone.synth_do
                        (Tone.triggerAttackRelease (Root.finalNote noteData i)
                           (Root.durations !! i) time
                           (JS.mul (velocity noteData) (JS.Fin 0.5)))
                        (Tone.synth_do (Tone.releaseAll (Some time)) s))
              <$> fallbacks e !! v).
Proof.
  unfold Root_ready, Root.route. cbv zeta.
  destruct (samplers e !! v) as [s|] eqn:Hs.
  - destruct (default false (loadedStates e !! v)).
    + cbn [samplers fallbacks set_samplers].
      rewrite !lookup_alter_eq, Hs. split; reflexivity.
    + destruct (fallbacks e !! v) as [f|] eqn:Hf;
        cbn [samplers fallbacks set_fallbacks];
        rewrite ?lookup_alter_eq, ?Hs, ?Hf; split; reflexivity.
  - destruct (fallbacks e !! v) as [f|] eqn:Hf;
      cbn [samplers fallbacks set_fallbacks];
      rewrite ?lookup_alter_eq, ?Hs, ?Hf; split; reflexivity.
Qed.

Lemma Root_route_ready (time : R) (noteData : NoteEvent) (v : string)
    (i : nat) (e : MusicEngine) (k : string) :
  Root_ready (Root.route time noteData v i e) k = Root_ready e k.
Proof.
  unfold Root_ready at 1.
  destruct (Root_route_frame time noteData v i e) as (_ & _ & -> & _).
  destruct (decide (k = v)) as [->|Hk].
  - destruct (Root_route_self time noteData v i e) as [-> _].
    unfold Root_ready.
    destruct (samplers e !! v) as [s|]; [|reflexivity].
    destruct (default false (loadedStates e !! v)); reflexivity.
  - destruct (Root_route_others time noteData v i e k Hk) as [-> _].
    reflexivity.
Qed.

Lemma Root_route_all_others (time : R)
    (l : list (string * nat * NoteEvent)) (e : MusicEngine) (k : string) :
  ~ In k (map (fun x => fst (fst x)) l) ->
  samplers (Root_route_all time l e) !! k = samplers e !! k /\
  fallbacks (Root_route_all time l e) !! k = fallbacks e !! k.
Proof.
  revert e. induction l as [|[[v i] nd] l IH]; intros e Hk; cbn.
  - split; reflexivity.
  - cbn in Hk. destruct (IH (Root.route time nd v i e)) as [-> ->]; [tauto|].
    apply Root_route_others. intros ->. tauto.
Qed.

Lemma Root_route_all_self (time : R)
    (l : list (string * nat * NoteEvent)) (e : MusicEngine)
    (v : string) (i : nat) (noteData : NoteEvent) :
  List.NoDup (map (fun x => fst (fst x)) l) -> In (v, i, noteData) l ->
  samplers (Root_route_all time l e) !! v
    = samplers (Root.route time noteData v i e) !! v /\
  fallbacks (Root_route_all time l e) !! v
    = fallbacks (Root.route time noteData v i e) !! v.
Proof.
  revert e. induction l as [|[[v' i'] nd'] l IH]; intros e Hnd Hin.
  - destruct Hin.
  - cbn in Hnd. apply List.NoDup_cons_iff in Hnd as [Hfresh Hnd].
    destruct Hin as [Heq|Hin].
    + injection Heq as -> -> ->. cbn.
      apply Root_route_all_others. exact Hfresh.
    + assert (v <> v') as Hne.
      { intros ->. apply Hfresh.
        apply (in_map (fun x => fst (fst x)) _ _ Hin). }
      cbn. destruct (IH (Root.route time nd' v' i' e) Hnd Hin) as [-> ->].
      destruct (Root_route_self time noteData v i
                  (Root.route time nd' v' i' e)) as [-> ->].
      destruct (Root_route_self time noteData v i e) as [-> ->].
      rewrite Root_route_ready.
      destruct (Root_route_others time nd' v' i' e v Hne) as [-> ->].
      split; reflexivity.
Qed.

Lemma Root_fire_on_pulse (time : R) (step : nat) (noteData : NoteEvent)
    (v : string) (i : nat) (e : MusicEngine) :
  (step mod 16 = 0)%nat ->
  Root_fire time step noteData v i e = Root.route time noteData v i e.
Proof.
  intros H. unfold Root_fire. rewrite H. rewrite orb_true_r. reflexivity.
Qed.

Lemma Root_fire_note_at (time : R) (step : nat) (noteData : NoteEvent)
    (v : string) (i : nat) (e : MusicEngine) (step' j : nat) :
  note_at (Root_fire time step noteData v i e) step' j = note_at e step' j.
Proof.
  apply note_at_melodies. apply Root_fire_frame.
Qed.

Lemma Root_tick_unrolled (time : R) (e : MusicEngine) (step : nat)
    (nd0 nd1 nd2 nd3 : NoteEvent) :
  loop e = Some (Tone.mkLoop step) ->
  Tone.started (transport e) = true ->
  note_at e step 0 = Some nd0 -> note_at e step 1 = Some nd1 ->
  note_at e step 2 = Some nd2 -> note_at e step 3 = Some nd3 ->
  Root.tick time e = Some (Root_ticked time step nd0 nd1 nd2 nd3 e).
Proof.
  intros Hl Hs H0 H1 H2 H3. unfold Root.tick, Root.callback.
  rewrite Hl, Hs. cbn [Tone.step]. unfold voices. cbn [forEach].
  rewrite (Root_voice_callback_fire _ _ _ _ _ nd0 H0).
  rewrite (Root_voice_callback_fire _ _ _ _ _ nd1)
    by (rewrite Root_fire_note_at; exact H1).
  rewrite (Root_voice_callback_fire _ _ _ _ _ nd2)
    by (rewrite !Root_fire_note_at; exact H2).
  rewrite (Root_voice_callback_fire _ _ _ _ _ nd3)
    by (rewrite !Root_fire_note_at; exact H3).
  reflexivity.
Qed.

Lemma Root_ticked_on_pulse (time : R) (step : nat)
    (nd0 nd1 nd2 nd3 : NoteEvent) (e : MusicEngine) :
  (step mod 16 = 0)%nat ->
  Root_ticked time step nd0 nd1 nd2 nd3 e
  = set_loop (Some (Tone.mkLoop (S step)))
      (Root_route_all time (pulse_entries nd0 nd1 nd2 nd3) e).
Proof.
  intros H. unfold Root_ticked.
  rewrite !Root_fire_on_pulse by exact H. reflexivity.
Qed.

Lemma Root_load_entry_eq (outcome : string -> load_event) (key : string)
    (config : string * string) (e : MusicEngine) :
  Root.load_entry outcome (key, config) e
  = (set_loadedStates (flag_update (outcome key) key (loadedStates e))
       (set_samplers
          (<[key := Tone.mkSampler config (is_onload (outcome key)) []]>
             (samplers e)) e),
     settled (outcome key)).
Proof.
  unfold Root.load_entry. destruct (outcome key); reflexivity.
Qed.

Lemma Root_load_fields (outcome : string -> load_event) (e : MusicEngine) :
  fallbacks (Root.load outcome e).1 = fallbacks e /\
  (forall k : string, In k voices ->
     exists config : string * string,
       samplers (Root.load outcome e).1 !! k
       = Some (Tone.mkSampler config (is_onload (outcome k)) [])) /\
  (forall k : string, In k voices -> outcome k <> pending ->
     loadedStates (Root.load outcome e).1 !! k
     = Some (is_onload (outcome k))) /\
  (Root.load outcome e).2
  = forallb (fun k => settled (outcome k)) voices.
Proof.
  unfold Root.load, Root.VOICE_CONFIGS. cbn [Root.load_entries].
  rewrite !Root_load_entry_eq. cbn [fst snd samplers loadedStates
    fallbacks set_samplers set_loadedStates set_isInitialized forallb voices].
  split; [reflexivity|]. split; [|split].
  - intros k [<-|[<-|[<-|[<-|[]]]]]; eexists;
      rewrite ?lookup_insert_eq;
      repeat (rewrite lookup_insert_ne by discriminate;
              rewrite ?lookup_insert_eq);
      reflexivity.
  - intros k [<-|[<-|[<-|[<-|[]]]]] Hk;
      repeat (rewrite flag_update_other by discriminate);
      apply flag_update_self; exact Hk.
  - rewrite andb_true_r, !andb_assoc. reflexivity.
Qed.

Lemma Root_play_note_at (v : list JS.num) (phase : CompositionPhase)
    (e : MusicEngine) (step i : nat) (melody : list NoteEvent) :
  currentMelodies (Root.play v phase e) !! i = Some melody ->
  note_at (Root.play v phase e) step i = melody !! (step mod 16)%nat /\
  is_Some (melody !! (step mod 16)%nat).
Proof.
  intros Hm. unfold note_at. rewrite Hm.
  assert (length melody = 16%nat) as Hlen.
  { rewrite Root_play_melodies in Hm.
    destruct i as [|[|[|[|i]]]]; cbn [lookup list_lookup] in Hm;
      try discriminate; injection Hm as <-; apply Root_melody_length. }
  change (mbind ?f (Some melody)) with (f melody). cbv beta.
  rewrite Hlen. split; [reflexivity|].
  apply lookup_lt_is_Some. rewrite Hlen. apply Nat.mod_upper_bound. lia.
Qed.

End RootPartialFailure.

Section RootFallBack.

(** Where the note of one voice goes on a pulse step in [musicEngine.ts]:
    the readiness flag decides, and the instrument is released first. *)
Lemma Root_pulse_voice (time : R) (nd0 nd1 nd2 nd3 : NoteEvent)
    (e : MusicEngine) (k : string) (i : nat) (noteData : NoteEvent)
    (smp : Tone.Sampler) (ok : bool) (s : Tone.PolySynth) :
  In (k, i, noteData) (pulse_entries nd0 nd1 nd2 nd3) ->
  samplers e !! k = Some smp ->
  loadedStates e !! k = Some ok ->
  fallbacks e !! k = Some s ->
  let e' := Root_route_all time (pulse_entries nd0 nd1 nd2 nd3) e in
  if ok
  then Tone.sampler_calls <$> samplers e' !! k
         = Some (Tone.sampler_calls smp ++
                 [Tone.releaseAll (Some time);
                  Tone.triggerAttackRelease (Root.finalNote noteData i)
                    (Root.durations !! i) time (velocity noteData)]) /\
       fallbacks e' !! k = Some s
  else Tone.synth_calls <$> fallbacks e' !! k
         = Some (Tone.synth_calls s ++
                 [Tone.releaseAll (Some time);
                  Tone.triggerAttackRelease (Root.finalNote noteData i)
                    (Root.durations !! i) time
                    (JS.mul (velocity noteData) (JS.Fin 0.5))]) /\
       samplers e' !! k = Some smp.
Proof.
  intros Hin Hs Hl Hf. cbv zeta.
  destruct (Root_route_all_self time _ e k i noteData
              (pulse_entries_NoDup nd0 nd1 nd2 nd3) Hin) as [-> ->].
  destruct (Root_route_self time noteData k i e) as [-> ->].
  unfold Root_ready. rewrite Hs, Hl, Hf.
  destruct ok;
    cbn [default from_option Datatypes.id fmap option_fmap option_map
         Tone.sampler_calls Tone.sampler_do Tone.synth_calls Tone.synth_do];
    unfold Tone.do_call; rewrite <- app_assoc; split; reflexivity.
Qed.

(** The first tick of a live loop in [musicEngine.ts]: it returns, and
    every voice is routed by its readiness flag. *)
Lemma Root_first_tick_routes (time : R) (e : MusicEngine)
    (nd0 nd1 nd2 nd3 : NoteEvent) :
  loop e = Some (Tone.mkLoop 0) -> Tone.started (transport e) = true ->
  note_at e 0 0 = Some nd0 -> note_at e 0 1 = Some nd1 ->
  note_at e 0 2 = Some nd2 -> note_at e 0 3 = Some nd3 ->
  exists e' : MusicEngine,
    Root.tick time e = Some e' /\
    forall (k : string) (i : nat) (noteData : NoteEvent)
           (smp : Tone.Sampler) (ok : bool) (s : Tone.PolySynth),
      In (k, i, noteData) (pulse_entries nd0 nd1 nd2 nd3) ->
      samplers e !! k = Some smp ->
      loadedStates e !! k = Some ok ->
      fallbacks e !! k = Some s ->
      if ok
      then Tone.sampler_calls <$> samplers e' !! k
             = Some (Tone.sampler_calls smp ++
                     [Tone.releaseAll (Some time);
                      Tone.triggerAttackRelease (Root.finalNote noteData i)
                        (Root.durations !! i) time (velocity noteData)]) /\
           fallbacks e' !! k = Some s
      else Tone.synth_calls <$> fallbacks e' !! k
             = Some (Tone.synth_calls s ++
                     [Tone.releaseAll (Some time);
                      Tone.triggerAttackRelease (Root.finalNote noteData i)
                        (Root.durations !! i) time
                        (JS.mul (velocity noteData) (JS.Fin 0.5))]) /\
           samplers e' !! k = Some smp.
Proof.
  intros Hl Hs H0 H1 H2 H3.
  exists (set_loop (Some (Tone.mkLoop 1))
            (Root_route_all time (pulse_entries nd0 nd1 nd2 nd3) e)).
  split.
  - rewrite (Root_tick_unrolled time e 0 nd0 nd1 nd2 nd3 Hl Hs H0 H1 H2 H3).
    rewrite Root_ticked_on_pulse by reflexivity. reflexivity.
  - intros k i noteData smp ok s Hin Hsm Hfl Hfb.
    exact (Root_pulse_voice time nd0 nd1 nd2 nd3 e k i noteData smp ok s
             Hin Hsm Hfl Hfb).
Qed.

(** After [play], each voice has a melody and an event to read at step
    0. *)
Lemma Root_play_first_notes (v : list JS.num) (phase : CompositionPhase)
    (e : MusicEngine) (i : nat) :
  (i < 4)%nat ->
  exists (melody : list NoteEvent) (noteData : NoteEvent),
    currentMelodies (Root.play v phase e) !! i = Some melody /\
    melody !! 0%nat = Some noteData /\
    note_at (Root.play v phase e) 0 i = Some noteData.
Proof.
  intros Hi.
  assert (is_Some (currentMelodies (Root.play v phase e) !! i)) as [melody Hm].
  { apply lookup_lt_is_Some. rewrite Root_play_melodies. exact Hi. }
  destruct (Root_play_note_at v phase e 0 i melody Hm) as (Hat & nd & Hnd).
  exists melody, nd. rewrite Nat.Div0.mod_0_l in Hat, Hnd.
  split; [exact Hm|]. split; [exact Hnd|]. rewrite Hat. exact Hnd.
Qed.

(** X17.  Failed loads fall back in [musicEngine.ts] too: after a load in
    which every sample settled, the promise is resolved, a failed voice's
    flag is false, and the first tick of a [play] triggers every voice, a
    loaded one on its sampler, a failed one on its fallback at half the
    velocity, after the instrument was released by [stop] and by the
    callback; the other instrument of the voice gets the release of
    [stop] only. *)
Theorem Root_failed_loads_fall_back (outcome : string -> load_event)
    (v : list JS.num) (phase : CompositionPhase) (time : R) (e : MusicEngine)
    (Hsettled : forall k : string, In k voices -> outcome k <> pending)
    (Hsynth : forall k : string, In k voices -> is_Some (fallbacks e !! k)) :
  let e1 := (Root.load outcome e).1 in
  let e2 := Root.play v phase e1 in
  (Root.load outcome e).2 = true /\
  (forall k : string, In k voices -> outcome k = onerror ->
     loadedStates e1 !! k = Some false) /\
  exists e3 : MusicEngine,
    Root.tick time e2 = Some e3 /\
    forall (i : nat) (k : string), voices !! i = Some k ->
      exists (melody : list NoteEvent) (noteData : NoteEvent)
             (s : Tone.PolySynth),
        currentMelodies e2 !! i = Some melody /\
        melody !! 0%nat = Some noteData /\
        fallbacks e !! k = Some s /\
        if is_onload (outcome k)
        then
          Tone.sampler_calls <$> samplers e3 !! k
            = Some [Tone.releaseAll None; Tone.releaseAll (Some time);
                    Tone.triggerAttackRelease (Root.finalNote noteData i)
                      (Root.durations !! i) time (velocity noteData)] /\
          Tone.synth_calls <$> fallbacks e3 !! k
            = Some (Tone.synth_calls s ++ [Tone.releaseAll None])
        else
          Tone.synth_calls <$> fallbacks e3 !! k
            = Some (Tone.synth_calls s ++
                    [Tone.releaseAll None; Tone.releaseAll (Some time);
                     Tone.triggerAttackRelease (Root.finalNote noteData i)
                       (Root.durations !! i) time
                       (JS.mul (velocity noteData) (JS.Fin 0.5))]) /\
          Tone.sampler_calls <$> samplers e3 !! k
            = Some [Tone.releaseAll None].
Proof.
  cbv zeta.
  destruct (Root_load_fields outcome e) as (Hfb & Hsm & Hfl & Hres).
  generalize dependent (Root.load outcome e). intros [e1 resolved].
  cbn [fst snd]. intros Hfb Hsm Hfl Hres.
  destruct (Root_play_instruments v phase e1) as (Hps & Hpf & Hpl).
  destruct (Root_stop_fields e1) as (Hss & Hsf & _ & _ & _ & Hsl).
  rewrite Hss in Hps. rewrite Hsf in Hpf. rewrite Hsl in Hpl.
  destruct (Root_play_live v phase e1) as (Hloop & Hstart).
  destruct (Root_play_first_notes v phase e1 0 ltac:(lia))
    as (m0 & nd0 & Hm0 & Hd0 & Ha0).
  destruct (Root_play_first_notes v phase e1 1 ltac:(lia))
    as (m1 & nd1 & Hm1 & Hd1 & Ha1).
  destruct (Root_play_first_notes v phase e1 2 ltac:(lia))
    as (m2 & nd2 & Hm2 & Hd2 & Ha2).
  destruct (Root_play_first_notes v phase e1 3 ltac:(lia))
    as (m3 & nd3 & Hm3 & Hd3 & Ha3).
  revert Hps Hpf Hpl Hloop Hstart Hm0 Hm1 Hm2 Hm3 Ha0 Ha1 Ha2 Ha3.
  generalize (Root.play v phase e1). intros e2.
  intros Hps Hpf Hpl Hloop Hstart Hm0 Hm1 Hm2 Hm3 Ha0 Ha1 Ha2 Ha3.
  split; [rewrite Hres; apply all_settled; exact Hsettled|].
  split.
  { intros k Hk Herr. rewrite Hfl by (try assumption; congruence).
    rewrite Herr. reflexivity. }
  destruct (Root_first_tick_routes time e2 nd0 nd1 nd2 nd3
              Hloop Hstart Ha0 Ha1 Ha2 Ha3) as (e3 & Htick & Hroute).
  exists e3. split; [exact Htick|].
  assert (forall (k : string) (i : nat) (nd : NoteEvent),
            In k voices -> In (k, i, nd) (pulse_entries nd0 nd1 nd2 nd3) ->
            exists s : Tone.PolySynth,
              fallbacks e !! k = Some s /\
              if is_onload (outcome k)
              then
                Tone.sampler_calls <$> samplers e3 !! k
                  = Some [Tone.releaseAll None; Tone.releaseAll (Some time);
                          Tone.triggerAttackRelease (Root.finalNote nd i)
                            (Root.durations !! i) time (velocity nd)] /\
                Tone.synth_calls <$> fallbacks e3 !! k
                  = Some (Tone.synth_calls s ++ [Tone.releaseAll None])
              else
                Tone.synth_calls <$> fallbacks e3 !! k
                  = Some (Tone.synth_calls s ++
                          [Tone.releaseAll None; Tone.releaseAll (Some time);
                           Tone.triggerAttackRelease (Root.finalNote nd i)
                             (Root.durations !! i) time
                             (JS.mul (velocity nd) (JS.Fin 0.5))]) /\
                Tone.sampler_calls <$> samplers e3 !! k
                  = Some [Tone.releaseAll None]) as Hvoice.
  { intros k i nd Hk Hin.
    destruct (Hsynth k Hk) as [s Hs].
    destruct (Hsm k Hk) as [config Hcfg].
    exists s. split; [exact Hs|].
    pose proof (Hroute k i nd
                  (Tone.sampler_do (Tone.releaseAll None)
                     (Tone.mkSampler config (is_onload (outcome k)) []))
                  (is_onload (outcome k))
                  (Tone.synth_do (Tone.releaseAll None) s) Hin) as Hp.
    rewrite Hps, Hpf, Hpl, !lookup_fmap, Hfb, Hcfg, Hs in Hp.
    rewrite (Hfl k Hk (Hsettled k Hk)) in Hp.
    specialize (Hp eq_refl eq_refl eq_refl).
    destruct (is_onload (outcome k)); destruct Hp as [Hp1 Hp2];
      rewrite Hp1, Hp2;
      cbn [fmap option_fmap option_map Tone.sampler_calls Tone.sampler_do
           Tone.synth_calls Tone.synth_do];
      unfold Tone.do_call; rewrite <- ?app_assoc; split; reflexivity. }
  intros i k Hik.
  destruct i as [|[|[|[|i]]]]; cbn [lookup list_lookup voices] in Hik;
    try discriminate; injection Hik as <-.
  - destruct (Hvoice "bass"%string 0%nat nd0) as (s & Hs & Hv);
      [left; reflexivity | left; reflexivity |].
    exists m0, nd0, s. split; [exact Hm0|]. split; [exact Hd0|].
    split; [exact Hs | exact Hv].
  - destruct (Hvoice "tenor"%string 1%nat nd1) as (s & Hs & Hv);
      [right; left; reflexivity | right; left; reflexivity |].
    exists m1, nd1, s. split; [exact Hm1|]. split; [exact Hd1|].
    split; [exact Hs | exact Hv].
  - destruct (Hvoice "alto"%string 2%nat nd2) as (s & Hs & Hv);
      [right; right; left; reflexivity | right; right; left; reflexivity |].
    exists m2, nd2, s. split; [exact Hm2|]. split; [exact Hd2|].
    split; [exact Hs | exact Hv].
  - destruct (Hvoice "soprano"%string 3%nat nd3) as (s & Hs & Hv);
      [right; right; right; left; reflexivity
      | right; right; right; left; reflexivity |].
    exists m3, nd3, s. split; [exact Hm3|]. split; [exact Hd3|].
    split; [exact Hs | exact Hv].
Qed.

Lemma Root_new_fallbacks (k : string) :
  In k voices -> is_Some (fallbacks Root.new !! k).
Proof.
  unfold Root.new, Root.initFallbacks. cbn [fallbacks set_fallbacks].
  intros [<-|[<-|[<-|[<-|[]]]]];
    repeat (rewrite lookup_insert_ne by discriminate);
    rewrite lookup_insert_eq; eauto.
Qed.

Lemma Root_failed_loads_fall_back_witness :
  (forall k : string, In k voices -> alto_fails k <> pending) /\
  (forall k : string, In k voices -> is_Some (fallbacks Root.new !! k)) /\
  (Root.load alto_fails Root.new).2 = true /\
  loadedStates (Root.load alto_fails Root.new).1 !! "alto"%string
  = Some false.
Proof.
  assert (forall k : string, In k voices -> alto_fails k <> pending) as H1.
  { intros k _. unfold alto_fails. destruct (String.eqb k "alto"); discriminate. }
  split; [exact H1|]. split; [exact Root_new_fallbacks|].
  destruct (Root_failed_loads_fall_back alto_fails (zeros 384) start 0
              Root.new H1 Root_new_fallbacks) as (Hres & Hflags & _).
  split; [exact Hres|].
  apply Hflags; [cbn; tauto | reflexivity].
Defined.

End RootFallBack.

(** ** The saturating non-linearity *)

Section Hyperbolic.

Lemma div_lt_bound (n c m : R) : 0 < c -> n < m * c -> n / c < m.
Proof.
  intros Hc H. apply Rmult_lt_reg_r with c; [exact Hc|].
  unfold Rdiv. rewrite Rmult_assoc, Rinv_l by lra. lra.
Qed.

Lemma bound_lt_div (n c m : R) : 0 < c -> m * c < n -> m < n / c.
Proof.
  intros Hc H. apply Rmult_lt_reg_r with c; [exact Hc|].
  unfold Rdiv. rewrite Rmult_assoc, Rinv_l by lra. lra.
Qed.

Lemma bound_le_div (n c m : R) : 0 < c -> m * c <= n -> m <= n / c.
Proof.
  intros Hc H. apply Rmult_le_reg_r with c; [exact Hc|].
  unfold Rdiv. rewrite Rmult_assoc, Rinv_l by lra. lra.
Qed.

(** [tanh x] is [(a - b) / (a + b)] for [a = exp x] and [b = exp (- x)],
    two positive numbers of product 1. *)
Lemma tanh_ratio (x : R) :
  let a := exp x in
  let b := exp (- x) in
  0 < a /\ 0 < b /\ a * b = 1 /\ tanh x = (a - b) / (a + b).
Proof.
  cbv zeta. pose proof (exp_pos x) as Ha. pose proof (exp_pos (- x)) as Hb.
  split; [exact Ha|]. split; [exact Hb|]. split.
  - rewrite <- exp_plus. replace (x + - x) with 0 by lra. apply exp_0.
  - unfold tanh, sinh, cosh. field. lra.
Qed.

Lemma tanh_bounds (x : R) : -1 < tanh x < 1.
Proof.
  destruct (tanh_ratio x) as (Ha & Hb & _ & ->). split.
  - apply bound_lt_div; lra.
  - apply div_lt_bound; lra.
Qed.

Lemma tanh_negative (x : R) : x < 0 -> tanh x < 0.
Proof.
  intros Hx. destruct (tanh_ratio x) as (Ha & Hb & _ & ->).
  assert (exp x < exp (- x)) by (apply exp_increasing; lra).
  apply div_lt_bound; lra.
Qed.

Lemma tanh_nonnegative (x : R) : 0 <= x -> 0 <= tanh x.
Proof.
  intros Hx. destruct (tanh_ratio x) as (Ha & Hb & _ & ->).
  assert (exp (- x) <= exp x).
  { destruct (Req_dec x 0) as [->|Hne].
    - rewrite Ropp_0. lra.
    - apply Rlt_le, exp_increasing. lra. }
  apply bound_le_div; lra.
Qed.

Lemma tanh_above_half (x : R) : 1 <= x -> 1 / 2 < tanh x.
Proof.
  intros Hx. destruct (tanh_ratio x) as (Ha & Hb & Hab & ->).
  pose proof (exp_ineq1_le x) as He.
  apply bound_lt_div; [lra|]. nra.
Qed.

Lemma tanh_below_minus_half (x : R) : x <= -1 -> tanh x < - (1 / 2).
Proof.
  intros Hx. destruct (tanh_ratio x) as (Ha & Hb & Hab & ->).
  pose proof (exp_ineq1_le (- x)) as He.
  apply div_lt_bound; [lra|]. nra.
Qed.

Lemma exp_INR_le (n : nat) : exp (INR n) <= 3 ^ n.
Proof.
  induction n as [|n IH].
  - cbn. rewrite exp_0. lra.
  - rewrite S_INR, exp_plus. cbn [pow].
    pose proof exp_le_3 as H3. pose proof (exp_pos (INR n)) as Hn.
    pose proof (exp_pos 1) as H1. nra.
Qed.

Lemma exp_le_mono (x y : R) : x <= y -> exp x <= exp y.
Proof.
  intros [H | ->]; [apply Rlt_le, exp_increasing; exact H | lra].
Qed.

(** Up to [x = 15] the exact [tanh x] keeps a distance of
    [2 / (3 ^ 30 + 1)], more than eighty times [2 ^ -53], from 1. *)
Lemma tanh_margin (x : R) : x <= 15 -> tanh x <= 1 - 2 / (3 ^ 30 + 1).
Proof.
  intros Hx. destruct (tanh_ratio x) as (Ha & Hb & Hab & ->).
  assert (exp x <= 3 ^ 15) as Hle.
  { apply Rle_trans with (exp 15); [apply exp_le_mono; exact Hx|].
    replace 15 with (INR 15) by (simpl; lra). apply exp_INR_le. }
  assert (exp x * exp x <= 3 ^ 30) as Hsq.
  { replace (3 ^ 30) with (3 ^ 15 * 3 ^ 15) by (rewrite <- pow_add; reflexivity).
    apply Rmult_le_compat; lra. }
  set (a := exp x) in *. set (b := exp (- x)) in *.
  assert (0 < 3 ^ 30 + 1) as Hpos by (pose proof (pow_lt 3 30); lra).
  assert (a <= 3 ^ 30 * b) as Hab'.
  { replace a with (a * a * b) at 1 by (rewrite Rmult_assoc, Hab; lra).
    apply Rmult_le_compat_r; lra. }
  apply Rmult_le_reg_r with ((a + b) * (3 ^ 30 + 1)); [nra|].
  replace ((a - b) / (a + b) * ((a + b) * (3 ^ 30 + 1)))
    with ((a - b) * (3 ^ 30 + 1)) by (field; lra).
  replace ((1 - 2 / (3 ^ 30 + 1)) * ((a + b) * (3 ^ 30 + 1)))
    with ((a + b) * (3 ^ 30 + 1) - 2 * (a + b)) by (field; lra).
  nra.
Qed.

Lemma octaveShift_cases (val : R) :
  (-2 <= Spec.octaveShift val <= 1)%Z /\
  (val < 0 -> (Spec.octaveShift val <= -1)%Z) /\
  (0 <= val -> (0 <= Spec.octaveShift val)%Z) /\
  (1 / 15 <= val -> Spec.octaveShift val = 1%Z) /\
  (val <= - (1 / 15) -> Spec.octaveShift val = (-2)%Z).
Proof.
  unfold Spec.octaveShift.
  pose proof (tanh_bounds (val * 15)) as [Hlo Hhi].
  pose proof (Zfloor_bound (tanh (val * 15) * 2)) as [Hf1 Hf2].
  assert (Hrange : (-2 <= Zfloor (tanh (val * 15) * 2) <= 1)%Z).
  { split.
    - apply Zfloor_lub. lra.
    - assert (IZR (Zfloor (tanh (val * 15) * 2)) < IZR 2) as H by lra.
      apply lt_IZR in H. lia. }
  split; [exact Hrange|]. split; [|split; [|split]].
  - intros Hv. pose proof (tanh_negative (val * 15) ltac:(lra)).
    assert (IZR (Zfloor (tanh (val * 15) * 2)) < IZR 0) as H' by lra.
    apply lt_IZR in H'. lia.
  - intros Hv. pose proof (tanh_nonnegative (val * 15) ltac:(lra)).
    apply Zfloor_lub. lra.
  - intros Hv. pose proof (tanh_above_half (val * 15) ltac:(lra)).
    apply Zfloor_eq. lra.
  - intros Hv. pose proof (tanh_below_minus_half (val * 15) ltac:(lra)).
    apply Zfloor_eq. lra.
Qed.

End Hyperbolic.

(** ** Events and note names *)

Section Events.

Lemma Services_event_at (vectorSlice : list JS.num) (voiceIdx : nat)
    (stepCount : option nat) (i : nat) (ev : NoteEvent) :
  Services.getVoiceMelody vectorSlice voiceIdx stepCount !! i = Some ev ->
  (i < default 16%nat stepCount)%nat /\
  ev = match JS.get_mod vectorSlice i with
       | JS.Fin val => real_event 0.4 voiceIdx val
       | JS.NaN => nan_event
       end.
Proof.
  intros H. split.
  - apply lookup_lt_Some in H. unfold Services.getVoiceMelody in H.
    rewrite length_map, length_seq in H. exact H.
  - apply lookup_map_seq_inv in H. subst ev.
    destruct (JS.get_mod vectorSlice i) as [val|]; [|reflexivity].
    unfold real_event. f_equal.
    + apply noteIndex_real.
Qed.

Lemma Root_event_at (vectorSlice : list JS.num) (voiceIdx : nat)
    (stepCount : option nat) (i : nat) (ev : NoteEvent) :
  Root.getVoiceMelody vectorSlice voiceIdx stepCount !! i = Some ev ->
  (i < default 16%nat stepCount)%nat /\
  ev = match JS.get_mod vectorSlice i with
       | JS.Fin val => real_event 0.5 voiceIdx val
       | JS.NaN => nan_event
       end.
Proof.
  intros H. split.
  - apply lookup_lt_Some in H. unfold Root.getVoiceMelody in H.
    rewrite length_map, length_seq in H. exact H.
  - apply lookup_map_seq_inv in H. subst ev.
    destruct (JS.get_mod vectorSlice i) as [val|]; [|reflexivity].
    unfold real_event. f_equal.
    + apply noteIndex_real.
Qed.

End Events.

Section EventProperties.

(** X1.  Octave shifts follow the sign of the value read.  In either
    revision, an event generated from a real [val] of at most 1 has an
    integer octave shift between -2 and 1: at most -1 for every negative
    [val], however small, at least 0 for every other, exactly 1 from
    [val = 1/15] on and exactly -2 from [val = -1/15] down.  The bound on
    [val] is where the real [tanh] stands for [Math.tanh]: up to
    [val = 1] the exact [tanh (val * 15)] stays [2 / (3 ^ 30 + 1)], more
    than eighty times [2 ^ -53], below 1, while from [val] of about 1.27
    on [Math.tanh] returns exactly 1 in double precision and the code's
    shift is 2. *)
Theorem octave_shift_follows_sign (vectorSlice : list JS.num)
    (voiceIdx : nat) (stepCount : option nat) (i : nat) (ev : NoteEvent)
    (val : R)
    (Hev : Services.getVoiceMelody vectorSlice voiceIdx stepCount !! i = Some ev
           \/ Root.getVoiceMelody vectorSlice voiceIdx stepCount !! i = Some ev)
    (Hval : JS.get_mod vectorSlice i = JS.Fin val)
    (Hrange : val <= 1) :
  exists z : Z,
    octaveShift ev = JS.Fin (IZR z) /\
    (-2 <= z <= 1)%Z /\
    (val < 0 -> (z <= -1)%Z) /\
    (0 <= val -> (0 <= z)%Z) /\
    (1 / 15 <= val -> z = 1%Z) /\
    (val <= - (1 / 15) -> z = (-2)%Z) /\
    tanh (val * 15) <= 1 - 2 / (3 ^ 30 + 1).
Proof.
  exists (Spec.octaveShift val). split.
  - destruct Hev as [Hev|Hev].
    + apply Services_event_at in Hev as [_ ->]. rewrite Hval. reflexivity.
    + apply Root_event_at in Hev as [_ ->]. rewrite Hval. reflexivity.
  - destruct (octaveShift_cases val) as (H1 & H2 & H3 & H4 & H5).
    split; [exact H1|]. split; [exact H2|]. split; [exact H3|].
    split; [exact H4|]. split; [exact H5|].
    apply tanh_margin. lra.
Qed.

Lemma octave_shift_follows_sign_witness :
  exists (ev : NoteEvent) (z : Z),
    Services.getVoiceMelody [JS.Fin (-0.001)] 0 None !! 3%nat = Some ev /\
    octaveShift ev = JS.Fin (IZR z) /\ (z <= -1)%Z.
Proof.
  destruct (octave_shift_follows_sign [JS.Fin (-0.001)] 0 None 3 _ (-0.001)
              (or_introl eq_refl) eq_refl ltac:(lra))
    as (z & Hz & _ & Hneg & _).
  eexists. exists z. split; [reflexivity|]. split; [exact Hz|].
  apply Hneg. lra.
Defined.

Lemma index_scale_degree (d : Z) :
  (0 <= d <= 6)%Z ->
  JS.index scale (JS.rem (JS.Fin (IZR d)) (JS.of_nat (length scale)))
  = nth_error scale (Z.to_nat d) /\
  is_Some (nth_error scale (Z.to_nat d)).
Proof.
  intros Hd. rewrite scale_length, rem_nonneg_int by lia.
  rewrite Z.mod_small by lia. unfold JS.index. rewrite ZfloorZ.
  destruct (Req_dec_T (IZR d) (IZR d)) as [_|Hne]; [|contradiction].
  destruct (Rle_dec 0 (IZR d)) as [_|Hneg].
  - split; [reflexivity|].
    assert (Z.to_nat d < length scale)%nat as Hlt by (simpl; lia).
    apply nth_error_Some in Hlt.
    destruct (nth_error scale (Z.to_nat d)); [eauto|contradiction].
  - exfalso. apply Hneg. apply IZR_le. lia.
Qed.

Lemma base_octave (i : nat) :
  (i < 4)%nat -> JS.get baseOctaves i = JS.Fin (IZR (Z.of_nat i + 1)).
Proof.
  intros Hi. destruct i as [|[|[|[|i]]]]; try lia; reflexivity.
Qed.

(** X2.  Note names are well formed.  For an event generated from a real
    [val] of at most 1 and a voice [i] of the four, the name the callback
    builds (the same in both revisions) has a pitch class that exists in
    the scale, the one at the event's scale degree, so that the second
    reduction modulo 7 changes nothing, and an integer octave
    [i + 1 + octaveShift], between [i - 1] and [i + 2]: the bass can be
    asked for octave -1.  The bound on [val] keeps [tanh (val * 15)]
    below 1 also in double precision; from [val] of about 1.27 on
    [Math.tanh] returns exactly 1, and the code builds the first pitch
    class of the scale with octave [i + 3]. *)
Theorem note_name_well_formed (vectorSlice : list JS.num) (voiceIdx : nat)
    (stepCount : option nat) (step i : nat) (ev : NoteEvent) (val : R)
    (Hev : Services.getVoiceMelody vectorSlice voiceIdx stepCount !! step
             = Some ev
           \/ Root.getVoiceMelody vectorSlice voiceIdx stepCount !! step
             = Some ev)
    (Hval : JS.get_mod vectorSlice step = JS.Fin val)
    (Hvoice : (i < 4)%nat)
    (Hrange : val <= 1) :
  exists (name : string) (octave : Z),
    Services.finalNote ev i = (Some name, JS.Fin (IZR octave)) /\
    Root.finalNote ev i = (Some name, JS.Fin (IZR octave)) /\
    nth_error scale (Z.to_nat (Spec.scaleDegreeIndex val)) = Some name /\
    octave = (Z.of_nat i + 1 + Spec.octaveShift val)%Z /\
    (Z.of_nat i - 1 <= octave <= Z.of_nat i + 2)%Z.
Proof.
  assert (noteIndex ev = JS.Fin (IZR (Spec.scaleDegreeIndex val)) /\
          octaveShift ev = JS.Fin (IZR (Spec.octaveShift val))) as [Hn Ho].
  { destruct Hev as [Hev|Hev].
    - apply Services_event_at in Hev as [_ ->]. rewrite Hval.
      split; reflexivity.
    - apply Root_event_at in Hev as [_ ->]. rewrite Hval.
      split; reflexivity. }
  destruct (index_scale_degree _ (scaleDegreeIndex_range val))
    as [Hidx [name Hname]].
  exists name, (Z.of_nat i + 1 + Spec.octaveShift val)%Z.
  assert (Services.finalNote ev i
          = (Some name,
             JS.Fin (IZR (Z.of_nat i + 1 + Spec.octaveShift val)))) as Hnote.
  { unfold Services.finalNote. rewrite Hn, Ho, Hidx, Hname.
    rewrite (base_octave i Hvoice). cbn [JS.add JS.lift2].
    rewrite <- plus_IZR. reflexivity. }
  split; [exact Hnote|]. split; [exact Hnote|]. split; [exact Hname|].
  split; [reflexivity|].
  destruct (octaveShift_cases val) as [Hr _]. lia.
Qed.

Lemma note_name_well_formed_witness :
  exists (ev : NoteEvent) (name : string) (octave : Z),
    Root.getVoiceMelody [JS.Fin (-0.1)] 0 None !! 0%nat = Some ev /\
    Root.finalNote ev 0 = (Some name, JS.Fin (IZR octave)) /\
    (octave = -1)%Z.
Proof.
  destruct (note_name_well_formed [JS.Fin (-0.1)] 0 None 0 0 _ (-0.1)
              (or_intror eq_refl) eq_refl ltac:(lia) ltac:(lra))
    as (name & octave & _ & Hn & _ & Ho & _).
  eexists. exists name, octave. split; [reflexivity|]. split; [exact Hn|].
  destruct (octaveShift_cases (-0.1)) as (_ & _ & _ & _ & Hlow).
  rewrite Ho, Hlow by lra. reflexivity.
Defined.

(** X3.  Velocity saturates.  In either revision an event generated from
    a real [val] has velocity 1 from [val = 0.1] on, 0.25 from
    [val = -0.05] down, and [0.5 + 5 * val] in between. *)
Theorem velocity_saturates (vectorSlice : list JS.num) (voiceIdx : nat)
    (stepCount : option nat) (i : nat) (ev : NoteEvent) (val : R)
    (Hev : Services.getVoiceMelody vectorSlice voiceIdx stepCount !! i = Some ev
           \/ Root.getVoiceMelody vectorSlice voiceIdx stepCount !! i = Some ev)
    (Hval : JS.get_mod vectorSlice i = JS.Fin val) :
  (0.1 <= val -> velocity ev = JS.Fin 1) /\
  (val <= -0.05 -> velocity ev = JS.Fin 0.25) /\
  (-0.05 <= val <= 0.1 -> velocity ev = JS.Fin (0.5 + val * 5)).
Proof.
  assert (velocity ev = JS.Fin (Spec.velocity val)) as ->.
  { destruct Hev as [Hev|Hev].
    - apply Services_event_at in Hev as [_ ->]. rewrite Hval. reflexivity.
    - apply Root_event_at in Hev as [_ ->]. rewrite Hval. reflexivity. }
  unfold Spec.velocity, Spec.clamp, Rmin, Rmax.
  repeat split; intros H; f_equal;
    destruct (Rle_dec 0.25 (0.5 + val * 5));
    repeat match goal with
           | |- context [Rle_dec ?a ?b] => destruct (Rle_dec a b)
           end; lra.
Qed.

Lemma velocity_saturates_witness :
  exists ev : NoteEvent,
    Services.getVoiceMelody [JS.Fin 0.3] 2 None !! 0%nat = Some ev /\
    velocity ev = JS.Fin 1.
Proof.
  eexists. split; [reflexivity|].
  apply (velocity_saturates [JS.Fin 0.3] 2 None 0 _ 0.3
           (or_introl eq_refl) eq_refl).
  lra.
Defined.

End EventProperties.

Section GateAndWrap.

Lemma gate_with_voice_mono (base : R) (vectorSlice : list JS.num)
    (lower higher i : nat) :
  (lower <= higher)%nat ->
  gate_with base vectorSlice higher i = true ->
  gate_with base vectorSlice lower i = true.
Proof.
  intros Hle. unfold gate_with.
  destruct (JS.get_mod vectorSlice i) as [val|]; [|discriminate].
  cbn [JS.mul JS.abs JS.add JS.of_nat JS.lift1 JS.lift2].
  rewrite !gt_Fin. apply le_INR in Hle. lra.
Qed.

Lemma Services_gate_at (vectorSlice : list JS.num) (voiceIdx : nat)
    (stepCount : option nat) (i : nat) (ev : NoteEvent) :
  Services.getVoiceMelody vectorSlice voiceIdx stepCount !! i = Some ev ->
  gate ev = gate_with 0.4 vectorSlice voiceIdx i.
Proof. intros H. apply lookup_map_seq_inv in H. subst ev. reflexivity. Qed.

Lemma Root_gate_at (vectorSlice : list JS.num) (voiceIdx : nat)
    (stepCount : option nat) (i : nat) (ev : NoteEvent) :
  Root.getVoiceMelody vectorSlice voiceIdx stepCount !! i = Some ev ->
  gate ev = gate_with 0.5 vectorSlice voiceIdx i.
Proof. intros H. apply lookup_map_seq_inv in H. subst ev. reflexivity. Qed.

(** X4.  Higher voices play more sparsely.  On the same slice and step, in
    either revision, a gate that is open for a voice index is open for
    every lower voice index; the elements may be any numbers, [NaN]
    included. *)
Theorem gate_open_for_lower_voices (vectorSlice : list JS.num)
    (stepCount : option nat) (lower higher i : nat)
    (Hle : (lower <= higher)%nat) :
  (forall ev_l ev_h : NoteEvent,
     Services.getVoiceMelody vectorSlice lower stepCount !! i = Some ev_l ->
     Services.getVoiceMelody vectorSlice higher stepCount !! i = Some ev_h ->
     gate ev_h = true -> gate ev_l = true) /\
  (forall ev_l ev_h : NoteEvent,
     Root.getVoiceMelody vectorSlice lower stepCount !! i = Some ev_l ->
     Root.getVoiceMelody vectorSlice higher stepCount !! i = Some ev_h ->
     gate ev_h = true -> gate ev_l = true).
Proof.
  split; intros ev_l ev_h Hl Hh.
  - rewrite (Services_gate_at _ _ _ _ _ Hl), (Services_gate_at _ _ _ _ _ Hh).
    apply gate_with_voice_mono. exact Hle.
  - rewrite (Root_gate_at _ _ _ _ _ Hl), (Root_gate_at _ _ _ _ _ Hh).
    apply gate_with_voice_mono. exact Hle.
Qed.

Lemma gate_open_for_lower_voices_witness :
  (forall ev_l ev_h : NoteEvent,
     Services.getVoiceMelody [JS.Fin 1] 0 None !! 2%nat = Some ev_l ->
     Services.getVoiceMelody [JS.Fin 1] 3 None !! 2%nat = Some ev_h ->
     gate ev_h = true -> gate ev_l = true) /\
  (forall ev_l ev_h : NoteEvent,
     Root.getVoiceMelody [JS.Fin 1] 0 None !! 2%nat = Some ev_l ->
     Root.getVoiceMelody [JS.Fin 1] 3 None !! 2%nat = Some ev_h ->
     gate ev_h = true -> gate ev_l = true).
Proof.
  apply (gate_open_for_lower_voices [JS.Fin 1] None 0 3 2). lia.
Defined.

Lemma get_mod_wrap (a : list JS.num) (i : nat) :
  JS.get_mod a (i + length a) = JS.get_mod a i.
Proof.
  unfold JS.get_mod. destruct (length a) as [|n] eqn:Hlen; [reflexivity|].
  f_equal. rewrite <- Hlen.
  rewrite Nat.Div0.add_mod, Nat.Div0.mod_same, Nat.add_0_r,
    Nat.Div0.mod_mod. reflexivity.
Qed.

Lemma get_mod_empty (i : nat) : JS.get_mod [] i = JS.NaN.
Proof. reflexivity. Qed.

(** X5.  A slice shorter than the step count is read cyclically.  In
    either revision, the event of step [i + length slice], when there is
    one, is the event of step [i]: a melody over a slice of [n] elements
    has period [n]. *)
Theorem melody_wraps_around (vectorSlice : list JS.num) (voiceIdx : nat)
    (stepCount : option nat) (i : nat) (ev : NoteEvent) :
  (Services.getVoiceMelody vectorSlice voiceIdx stepCount
     !! (i + length vectorSlice)%nat = Some ev ->
   Services.getVoiceMelody vectorSlice voiceIdx stepCount !! i = Some ev) /\
  (Root.getVoiceMelody vectorSlice voiceIdx stepCount
     !! (i + length vectorSlice)%nat = Some ev ->
   Root.getVoiceMelody vectorSlice voiceIdx stepCount !! i = Some ev).
Proof.
  split; intros H.
  - pose proof (lookup_lt_Some _ _ _ H) as Hlt.
    unfold Services.getVoiceMelody in Hlt |- *.
    rewrite length_map, length_seq in Hlt.
    apply lookup_map_seq_inv in H.
    rewrite lookup_map_seq by lia. cbn [Nat.add].
    rewrite H, get_mod_wrap. reflexivity.
  - pose proof (lookup_lt_Some _ _ _ H) as Hlt.
    unfold Root.getVoiceMelody in Hlt |- *.
    rewrite length_map, length_seq in Hlt.
    apply lookup_map_seq_inv in H.
    rewrite lookup_map_seq by lia. cbn [Nat.add].
    rewrite H, get_mod_wrap. reflexivity.
Qed.

End GateAndWrap.

(** ** Vectors that are short or hold [NaN] *)

Section Degenerate.

Lemma Services_empty_slice (voiceIdx : nat) :
  Services.getVoiceMelody [] voiceIdx None = repeat nan_event 16.
Proof. reflexivity. Qed.

Lemma Root_empty_slice (voiceIdx : nat) :
  Root.getVoiceMelody [] voiceIdx None = repeat nan_event 16.
Proof. reflexivity. Qed.

Lemma slice_short (b e : nat) (v : list JS.num) :
  (length v <= b)%nat -> JS.slice b e v = [].
Proof.
  intros H. unfold JS.slice. rewrite skipn_all2 by exact H.
  apply firstn_nil.
Qed.

Lemma slice_whole (v : list JS.num) :
  (length v <= 96)%nat -> JS.slice 0 96 v = v.
Proof.
  intros H. unfold JS.slice. cbn [skipn Nat.sub]. apply firstn_all2. exact H.
Qed.

Lemma finalNote_nan (i : nat) :
  Services.finalNote nan_event i = (None, JS.NaN) /\
  Root.finalNote nan_event i = (None, JS.NaN).
Proof.
  unfold Services.finalNote, Root.finalNote. cbn [noteIndex octaveShift nan_event].
  cbn [JS.rem JS.index]. destruct (JS.get baseOctaves i); split; reflexivity.
Qed.

(** X6.  A vector of width at most 96 feeds the first voice only.  In
    either revision [play] on such a vector reads the whole vector as the
    bass slice and gives the other three voices the melody of an empty
    slice: 16 events with [NaN] note index, octave shift and velocity and
    a closed gate, whose note name has no pitch class and octave [NaN]. *)
Theorem short_vector_feeds_bass_only (v : list JS.num)
    (phase : CompositionPhase) (e : MusicEngine)
    (Hshort : (length v <= 96)%nat) :
  currentMelodies (Services.play v phase e)
    = [Services.getVoiceMelody v 0 None; repeat nan_event 16;
       repeat nan_event 16; repeat nan_event 16] /\
  currentMelodies (Root.play v phase e)
    = [Root.getVoiceMelody v 0 None; repeat nan_event 16;
       repeat nan_event 16; repeat nan_event 16] /\
  (forall i : nat,
     Services.finalNote nan_event i = (None, JS.NaN) /\
     Root.finalNote nan_event i = (None, JS.NaN)).
Proof.
  split; [|split].
  - rewrite Services_play_melodies, (slice_whole v Hshort).
    rewrite !slice_short by lia. rewrite !Services_empty_slice. reflexivity.
  - rewrite Root_play_melodies, (slice_whole v Hshort).
    rewrite !slice_short by lia. rewrite !Root_empty_slice. reflexivity.
  - apply finalNote_nan.
Qed.

Lemma short_vector_feeds_bass_only_witness :
  currentMelodies (Services.play [JS.Fin 0.2; JS.Fin 0.1] start Services.new)
  = [Services.getVoiceMelody [JS.Fin 0.2; JS.Fin 0.1] 0 None;
     repeat nan_event 16; repeat nan_event 16; repeat nan_event 16].
Proof.
  apply (short_vector_feeds_bass_only [JS.Fin 0.2; JS.Fin 0.1] start
           Services.new).
  cbn [length]. lia.
Defined.

Lemma sumSqr_from_NaN (v : list JS.num) :
  foldl (fun acc x => JS.add acc (JS.mul x x)) JS.NaN v = JS.NaN.
Proof. induction v as [|x v IH]; [reflexivity|]. cbn. exact IH. Qed.

Lemma sumSqr_absorbs_NaN (v : list JS.num) (acc : JS.num) :
  In JS.NaN v ->
  foldl (fun acc x => JS.add acc (JS.mul x x)) acc v = JS.NaN.
Proof.
  revert acc. induction v as [|x v IH]; intros acc Hin; [destruct Hin|].
  destruct Hin as [->|Hin].
  - cbn [foldl]. replace (JS.add acc (JS.mul JS.NaN JS.NaN)) with JS.NaN
      by (destruct acc; reflexivity).
    apply sumSqr_from_NaN.
  - cbn [foldl]. apply IH. exact Hin.
Qed.

(** X7.  A [NaN] in the vector escapes the tempo clamp.  When any element
    of the vector is [NaN], the value [play] assigns to the transport's
    tempo is [NaN], in either revision: [Math.min] and [Math.max] pass it
    on. *)
Theorem NaN_escapes_tempo_clamp (v : list JS.num) (phase : CompositionPhase)
    (e : MusicEngine) (Hnan : In JS.NaN v) :
  Tone.bpm (transport (Services.play v phase e)) = JS.NaN /\
  Tone.bpm (transport (Root.play v phase e)) = JS.NaN.
Proof.
  assert (sumSqr v = JS.NaN) as Hs by (apply sumSqr_absorbs_NaN; exact Hnan).
  split.
  - unfold Services.play. cbn [Transport_start Transport_set_bpm set_loop
      set_transport transport Tone.bpm]. rewrite Hs. reflexivity.
  - unfold Root.play. cbn [Transport_start Transport_set_bpm set_loop
      set_transport transport Tone.bpm]. rewrite Hs. reflexivity.
Qed.

Lemma NaN_escapes_tempo_clamp_witness :
  Tone.bpm (transport (Services.play (JS.NaN :: zeros 383) start Services.new))
  = JS.NaN.
Proof.
  apply (NaN_escapes_tempo_clamp (JS.NaN :: zeros 383) start Services.new).
  left. reflexivity.
Defined.

End Degenerate.

(** ** Sequences of calls and ticks *)

Section Sequences.

Lemma Services_voice_callback_cases (time : R) (step : nat) (v : string)
    (i : nat) (e e' : MusicEngine) :
  Services.voice_callback time step v i e = Some e' ->
  e' = e \/ exists noteData : NoteEvent, e' = Services.route time noteData v i e.
Proof.
  unfold Services.voice_callback. intros H.
  destruct (currentMelodies e !! i) as [melody|]; [|discriminate].
  cbn in H.
  destruct (match length melody with
            | O => None
            | S _ => melody !! (step mod length melody)%nat
            end) as [noteData|]; [|discriminate].
  cbn in H.
  match type of H with
  | (if ?c then _ else _) = _ => destruct c
  end; injection H as <-;
    [right; exists noteData; reflexivity | left; reflexivity].
Qed.

Lemma untouched_refl (e : MusicEngine) : untouched e e.
Proof. repeat split; reflexivity. Qed.

Lemma Services_route_untouched (time : R) (noteData : NoteEvent) (v : string)
    (i : nat) (e0 e : MusicEngine) :
  untouched e0 e -> untouched e0 (Services.route time noteData v i e).
Proof.
  intros H. unfold Services.route. cbv zeta.
  destruct (match samplers e !! v with
            | Some s => Tone.loaded s
            | None => false
            end); [exact H|].
  destruct (fallbacks e !! v); exact H.
Qed.

Lemma Root_route_untouched (time : R) (noteData : NoteEvent) (v : string)
    (i : nat) (e0 e : MusicEngine) :
  untouched e0 e -> untouched e0 (Root.route time noteData v i e).
Proof.
  intros H. unfold Root.route. cbv zeta.
  destruct (match samplers e !! v with
            | Some _ => default false (loadedStates e !! v)
            | None => false
            end); [exact H|].
  destruct (fallbacks e !! v); exact H.
Qed.

Lemma Services_tick_untouched (time : R) (e e' : MusicEngine) :
  Services.tick time e = Some e' -> untouched e e'.
Proof.
  unfold Services.tick, Services.callback. intros H.
  destruct (loop e) as [l|]; [|injection H as <-; apply untouched_refl].
  destruct (Tone.started (transport e));
    [|injection H as <-; apply untouched_refl].
  destruct (forEach (Services.voice_callback time (Tone.step l)) voices
              0%nat e) as [e1|] eqn:E; [|discriminate].
  cbn in H. injection H as <-.
  assert (untouched e e1) as H1.
  { apply (forEach_invariant (untouched e)
             (Services.voice_callback time (Tone.step l)) voices)
      with (i := 0%nat) (s := e); [|exact E|apply untouched_refl].
    intros v i s s' Hv Hs.
    destruct (Services_voice_callback_cases _ _ _ _ _ _ Hv) as [->|[nd ->]];
      [exact Hs | apply Services_route_untouched; exact Hs]. }
  exact H1.
Qed.

Lemma Root_tick_untouched (time : R) (e e' : MusicEngine) :
  Root.tick time e = Some e' -> untouched e e'.
Proof.
  unfold Root.tick, Root.callback. intros H.
  destruct (loop e) as [l|]; [|injection H as <-; apply untouched_refl].
  destruct (Tone.started (transport e));
    [|injection H as <-; apply untouched_refl].
  destruct (forEach (Root.voice_callback time (Tone.step l)) voices
              0%nat e) as [e1|] eqn:E; [|discriminate].
  cbn in H. injection H as <-.
  assert (untouched e e1) as H1.
  { apply (forEach_invariant (untouched e)
             (Root.voice_callback time (Tone.step l)) voices)
      with (i := 0%nat) (s := e); [|exact E|apply untouched_refl].
    intros v i s s' Hv Hs.
    destruct (Root_voice_callback_cases _ _ _ _ _ _ Hv) as [->|[nd ->]];
      [exact Hs | apply Root_route_untouched; exact Hs]. }
  exact H1.
Qed.

Lemma Services_tick_total (time : R) (e : MusicEngine) (step : nat) :
  live_at e step -> tuned e ->
  exists e' : MusicEngine,
    Services.tick time e = Some e' /\ live_at e' (S step).
Proof.
  intros [Hl Hs] Ht.
  destruct (Ht step 0%nat ltac:(lia)) as [nd0 H0].
  destruct (Ht step 1%nat ltac:(lia)) as [nd1 H1].
  destruct (Ht step 2%nat ltac:(lia)) as [nd2 H2].
  destruct (Ht step 3%nat ltac:(lia)) as [nd3 H3].
  pose proof (Services_tick_unrolled time e step nd0 nd1 nd2 nd3
                Hl Hs H0 H1 H2 H3) as Htick.
  eexists. split; [exact Htick|].
  destruct (Services_tick_untouched time e _ Htick) as (_ & _ & _ & _ & Htr & _).
  split; [reflexivity|]. rewrite Htr. exact Hs.
Qed.

End Sequences.

Section Invariants.

(** What [load] leaves alone. *)
Lemma Services_load_frame (outcome : string -> load_event) (e : MusicEngine) :
  let e' := (Services.load outcome e).1 in
  loop e' = loop e /\ currentMelodies e' = currentMelodies e /\
  currentPhase e' = currentPhase e /\ notified e' = notified e /\
  onPhaseChange e' = onPhaseChange e /\ transport e' = transport e /\
  fallbacks e' = fallbacks e /\ isInitialized e' = true.
Proof.
  cbv zeta. unfold Services.load, Services.VOICE_CONFIGS.
  cbn [Services.load_entries]. rewrite !Services_load_entry_eq.
  repeat split; reflexivity.
Qed.

Lemma Root_load_frame (outcome : string -> load_event) (e : MusicEngine) :
  let e' := (Root.load outcome e).1 in
  loop e' = loop e /\ currentMelodies e' = currentMelodies e /\
  currentPhase e' = currentPhase e /\ notified e' = notified e /\
  onPhaseChange e' = onPhaseChange e /\ transport e' = transport e /\
  fallbacks e' = fallbacks e /\ isInitialized e' = true.
Proof.
  cbv zeta. unfold Root.load, Root.VOICE_CONFIGS.
  cbn [Root.load_entries]. rewrite !Root_load_entry_eq.
  repeat split; reflexivity.
Qed.

Lemma consistent_frame (e e' : MusicEngine) :
  loop e' = loop e -> currentMelodies e' = currentMelodies e ->
  currentPhase e' = currentPhase e -> transport e' = transport e ->
  consistent e -> consistent e'.
Proof.
  unfold consistent. intros -> Hm -> ->.
  destruct (loop e); [|tauto].
  intros [Hs Ht]. split; [exact Hs|]. exact (tuned_melodies e e' Hm Ht).
Qed.

Lemma Services_stop_consistent (e : MusicEngine) : consistent (Services.stop e).
Proof.
  destruct (Services_stop_instruments e) as (_ & _ & _ & Hl & Hp & Ht).
  unfold consistent. rewrite Hl. split; assumption.
Qed.

Lemma Root_stop_consistent (e : MusicEngine) : consistent (Root.stop e).
Proof.
  destruct (Root_stop_fields e) as (_ & _ & Hl & Hp & Ht & _).
  unfold consistent. rewrite Hl. split; assumption.
Qed.

Lemma Services_play_consistent (v : list JS.num) (phase : CompositionPhase)
    (e : MusicEngine) :
  consistent (Services.play v phase e).
Proof.
  destruct (Services_play_live v phase e) as [Hl Hs].
  unfold consistent. rewrite Hl. split; [exact Hs|apply Services_play_tuned].
Qed.

Lemma Root_play_consistent (v : list JS.num) (phase : CompositionPhase)
    (e : MusicEngine) :
  consistent (Root.play v phase e).
Proof.
  destruct (Root_play_live v phase e) as [Hl Hs].
  unfold consistent. rewrite Hl. split; [exact Hs|apply Root_play_tuned].
Qed.

Lemma Services_reset_frame (outcome : string -> load_event) (e : MusicEngine) :
  let e' := (Services.reset outcome e).1 in
  loop e' = loop (Services.stop e) /\
  currentMelodies e' = currentMelodies (Services.stop e) /\
  currentPhase e' = currentPhase (Services.stop e) /\
  notified e' = notified (Services.stop e) /\
  onPhaseChange e' = onPhaseChange (Services.stop e) /\
  transport e' = transport (Services.stop e) /\
  fallbacks e' = fallbacks (Services.stop e).
Proof.
  cbv zeta. unfold Services.reset. cbv zeta.
  destruct (Services_load_frame outcome
              (set_loadedStates (loadedStates blank)
                 (set_samplers ∅ (Services.stop e))))
    as (-> & -> & -> & -> & -> & -> & -> & _).
  repeat split; reflexivity.
Qed.

Lemma Root_reset_frame (outcome : string -> load_event) (e : MusicEngine) :
  let e' := (Root.reset outcome e).1 in
  loop e' = loop (Root.stop e) /\
  currentMelodies e' = currentMelodies (Root.stop e) /\
  currentPhase e' = currentPhase (Root.stop e) /\
  notified e' = notified (Root.stop e) /\
  onPhaseChange e' = onPhaseChange (Root.stop e) /\
  transport e' = transport (Root.stop e) /\
  fallbacks e' = fallbacks (Root.stop e).
Proof.
  cbv zeta. unfold Root.reset. cbv zeta.
  destruct (Root_load_frame outcome
              (set_loadedStates (loadedStates blank)
                 (set_samplers ∅ (Root.stop e))))
    as (-> & -> & -> & -> & -> & -> & -> & _).
  repeat split; reflexivity.
Qed.

Lemma Services_tick_consistent (time : R) (e : MusicEngine) :
  consistent e ->
  exists e' : MusicEngine, Services.tick time e = Some e' /\ consistent e'.
Proof.
  unfold consistent at 1. intros H.
  destruct (loop e) as [[step]|] eqn:Hl.
  - destruct H as [Hs Ht].
    destruct (Services_tick_total time e step (conj Hl Hs) Ht)
      as (e' & Htick & Hl' & Hs').
    exists e'. split; [exact Htick|].
    destruct (Services_tick_untouched time e e' Htick) as (Hm & _).
    unfold consistent. rewrite Hl'. split; [exact Hs'|].
    exact (tuned_melodies e e' Hm Ht).
  - exists e. unfold Services.tick. rewrite Hl. split; [reflexivity|].
    unfold consistent. rewrite Hl. exact H.
Qed.

Lemma Root_tick_consistent (time : R) (e : MusicEngine) :
  consistent e ->
  exists e' : MusicEngine, Root.tick time e = Some e' /\ consistent e'.
Proof.
  unfold consistent at 1. intros H.
  destruct (loop e) as [[step]|] eqn:Hl.
  - destruct H as [Hs Ht].
    destruct (Root_tick_total time e step (conj Hl Hs) Ht)
      as (e' & Htick & [Hl' Hs'] & Hm).
    exists e'. split; [exact Htick|].
    unfold consistent. rewrite Hl'. split; [exact Hs'|].
    exact (tuned_melodies e e' Hm Ht).
  - exists e. unfold Root.tick. rewrite Hl. split; [reflexivity|].
    unfold consistent. rewrite Hl. exact H.
Qed.

Lemma perform_consistent (r : revision) (a : action) (e : MusicEngine) :
  consistent e ->
  exists e' : MusicEngine, perform r a e = Some e' /\ consistent e'.
Proof.
  intros He. destruct a as [outcome|outcome|v phase| |cb|time], r;
    cbn [perform]; try (eexists; split; [reflexivity|]).
  - destruct (Services_load_frame outcome e) as (Hl & Hm & Hp & _ & _ & Ht & _).
    exact (consistent_frame e _ Hl Hm Hp Ht He).
  - destruct (Root_load_frame outcome e) as (Hl & Hm & Hp & _ & _ & Ht & _).
    exact (consistent_frame e _ Hl Hm Hp Ht He).
  - destruct (Services_reset_frame outcome e) as (Hl & Hm & Hp & _ & _ & Ht & _).
    exact (consistent_frame _ _ Hl Hm Hp Ht (Services_stop_consistent e)).
  - destruct (Root_reset_frame outcome e) as (Hl & Hm & Hp & _ & _ & Ht & _).
    exact (consistent_frame _ _ Hl Hm Hp Ht (Root_stop_consistent e)).
  - apply Services_play_consistent.
  - apply Root_play_consistent.
  - apply Services_stop_consistent.
  - apply Root_stop_consistent.
  - exact He.
  - exact He.
  - apply Services_tick_consistent. exact He.
  - apply Root_tick_consistent. exact He.
Qed.

Lemma fresh_consistent (r : revision) : consistent (fresh r).
Proof. destruct r; split; reflexivity. Qed.

Lemma perform_all_consistent (r : revision) (actions : list action)
    (e0 : MusicEngine) :
  consistent e0 ->
  exists e : MusicEngine, perform_all r actions e0 = Some e /\ consistent e.
Proof.
  revert e0. induction actions as [|a actions IH]; intros e0 H0.
  - exists e0. split; [reflexivity|exact H0].
  - destruct (perform_consistent r a e0 H0) as (e1 & Hp & H1).
    destruct (IH e1 H1) as (e & Hrun & He).
    exists e. cbn [perform_all]. rewrite Hp. split; assumption.
Qed.

(** X8.  The loop callback never fails on a missing melody or event.
    Whatever the caller does and whenever the clock ticks, from a freshly
    built engine of either revision and through any sequence of [load],
    [reset], [play], [stop], [setPhaseCallback] and ticks, every action
    returns (no tick reads a property of [undefined]); and at every point
    either there is no loop, the phase is idle and the transport is
    stopped, or there is a loop, the transport runs and each of the four
    voices has an event to read at every step. *)
Theorem engine_never_throws (r : revision) (actions : list action) :
  exists e : MusicEngine,
    perform_all r actions (fresh r) = Some e /\ consistent e.
Proof. apply perform_all_consistent, fresh_consistent. Qed.

Lemma in_sync_frame (cb : nat) (e e' : MusicEngine) :
  currentPhase e' = currentPhase e -> notified e' = notified e ->
  onPhaseChange e' = onPhaseChange e -> in_sync cb e -> in_sync cb e'.
Proof. unfold in_sync. intros -> -> ->. tauto. Qed.

Lemma Services_stop_in_sync (cb : nat) (e : MusicEngine) :
  onPhaseChange e = Some cb -> in_sync cb (Services.stop e).
Proof.
  intros H. split; [rewrite Services_stop_observer; exact H|].
  right. exists (notified e).
  destruct (Services_stop_instruments e) as (_ & _ & _ & _ & -> & _).
  apply Services_stop_notified. exact H.
Qed.

Lemma Root_stop_in_sync (cb : nat) (e : MusicEngine) :
  onPhaseChange e = Some cb -> in_sync cb (Root.stop e).
Proof.
  intros H. split; [rewrite Root_stop_observer; exact H|].
  right. exists (notified e).
  destruct (Root_stop_fields e) as (_ & _ & _ & -> & _).
  apply Root_stop_notified. exact H.
Qed.

Lemma perform_in_sync (r : revision) (a : action) (cb : nat)
    (e e' : MusicEngine) :
  registers a = false -> in_sync cb e -> perform r a e = Some e' ->
  in_sync cb e'.
Proof.
  intros Ha He Hp. pose proof He as [Hobs _].
  destruct a as [outcome|outcome|v phase| |cb'|time], r;
    cbn [perform registers] in Hp, Ha; try discriminate;
    try (injection Hp as <-).
  - destruct (Services_load_frame outcome e) as (_ & _ & Hp & Hn & Ho & _).
    exact (in_sync_frame cb e _ Hp Hn Ho He).
  - destruct (Root_load_frame outcome e) as (_ & _ & Hp & Hn & Ho & _).
    exact (in_sync_frame cb e _ Hp Hn Ho He).
  - destruct (Services_reset_frame outcome e) as (_ & _ & Hp & Hn & Ho & _).
    exact (in_sync_frame cb _ _ Hp Hn Ho (Services_stop_in_sync cb e Hobs)).
  - destruct (Root_reset_frame outcome e) as (_ & _ & Hp & Hn & Ho & _).
    exact (in_sync_frame cb _ _ Hp Hn Ho (Root_stop_in_sync cb e Hobs)).
  - split; [rewrite Services_play_observer; exact Hobs|].
    right. exists (notified e ++ [(cb, idle)]).
    rewrite Services_play_phase, (Services_play_notified v phase e cb Hobs).
    rewrite <- app_assoc. reflexivity.
  - split; [rewrite Root_play_observer; exact Hobs|].
    right. exists (notified e ++ [(cb, idle)]).
    rewrite Root_play_phase, (Root_play_notified v phase e cb Hobs).
    rewrite <- app_assoc. reflexivity.
  - apply Services_stop_in_sync. exact Hobs.
  - apply Root_stop_in_sync. exact Hobs.
  - destruct (Services_tick_untouched time e e' Hp) as (_ & Hph & Hn & Ho & _).
    exact (in_sync_frame cb e e' Hph Hn Ho He).
  - destruct (Root_tick_untouched time e e' Hp) as (_ & Hph & Hn & Ho & _).
    exact (in_sync_frame cb e e' Hph Hn Ho He).
Qed.

Lemma perform_all_in_sync (r : revision) (actions : list action) (cb : nat)
    (e0 e : MusicEngine) :
  forallb (fun a => negb (registers a)) actions = true ->
  in_sync cb e0 -> perform_all r actions e0 = Some e -> in_sync cb e.
Proof.
  revert e0. induction actions as [|a actions IH]; intros e0 Hreg H0 Hrun.
  - injection Hrun as <-. exact H0.
  - cbn [forallb] in Hreg. apply andb_true_iff in Hreg as [Ha Hreg].
    apply negb_true_iff in Ha. cbn [perform_all] in Hrun.
    destruct (perform r a e0) as [e1|] eqn:Hp; [|discriminate].
    exact (IH e1 Hreg (perform_in_sync r a cb e0 e1 Ha H0 Hp) Hrun).
Qed.

(** X9.  The observer always knows the current phase.  Once an observer
    is registered on a freshly built engine of either revision, and as
    long as no other is registered, every sequence of [load], [reset],
    [play], [stop] and ticks returns and leaves the observer registered
    and told, as its last notification, the engine's current phase (or
    told nothing yet, the phase being idle). *)
Theorem observer_knows_current_phase (r : revision) (cb : nat)
    (actions : list action)
    (Hsame : forallb (fun a => negb (registers a)) actions = true) :
  exists e : MusicEngine,
    perform_all r actions (setPhaseCallback cb (fresh r)) = Some e /\
    in_sync cb e.
Proof.
  destruct (perform_all_consistent r actions (setPhaseCallback cb (fresh r)))
    as (e & Hrun & _).
  { destruct r; split; reflexivity. }
  exists e. split; [exact Hrun|].
  apply (perform_all_in_sync r actions cb (setPhaseCallback cb (fresh r)) e
           Hsame); [|exact Hrun].
  destruct r; (split; [reflexivity|]); left; split; reflexivity.
Qed.

Lemma observer_knows_current_phase_witness :
  exists e : MusicEngine,
    perform_all services
      [call_play (zeros 384) start; clock_tick 0; call_play (zeros 384) end_;
       call_stop; clock_tick 1]
      (setPhaseCallback 7 (fresh services)) = Some e /\
    in_sync 7 e.
Proof.
  apply (observer_knows_current_phase services 7
           [call_play (zeros 384) start; clock_tick 0;
            call_play (zeros 384) end_; call_stop; clock_tick 1]).
  reflexivity.
Defined.

(** X10.  [load] resolves exactly when every sample settles.  In either
    revision the promise [load] awaits is resolved if and only if each of
    the four samples either loaded or failed: one sample that never
    settles keeps [load] pending.  Whatever the outcomes, [load] marks the
    engine initialized and leaves the loop, the melodies, the phase, the
    observer and its notifications, the transport and the fallbacks as
    they were. *)
Theorem load_resolves_iff_all_settle (outcome : string -> load_event)
    (e : MusicEngine) :
  ((Services.load outcome e).2 = true <->
   forall k : string, In k voices -> outcome k <> pending) /\
  ((Root.load outcome e).2 = true <->
   forall k : string, In k voices -> outcome k <> pending) /\
  (let e' := (Services.load outcome e).1 in
   loop e' = loop e /\ currentMelodies e' = currentMelodies e /\
   currentPhase e' = currentPhase e /\ notified e' = notified e /\
   onPhaseChange e' = onPhaseChange e /\ transport e' = transport e /\
   fallbacks e' = fallbacks e /\ isInitialized e' = true) /\
  (let e' := (Root.load outcome e).1 in
   loop e' = loop e /\ currentMelodies e' = currentMelodies e /\
   currentPhase e' = currentPhase e /\ notified e' = notified e /\
   onPhaseChange e' = onPhaseChange e /\ transport e' = transport e /\
   fallbacks e' = fallbacks e /\ isInitialized e' = true).
Proof.
  assert (forallb (fun k => settled (outcome k)) voices = true <->
          forall k : string, In k voices -> outcome k <> pending) as Hiff.
  { rewrite forallb_forall. split; intros H k Hk; specialize (H k Hk).
    - intros Heq. rewrite Heq in H. discriminate H.
    - destruct (outcome k); [reflexivity | reflexivity | contradiction]. }
  destruct (Services_load_fields outcome e) as (_ & _ & _ & ->).
  destruct (Root_load_fields outcome e) as (_ & _ & _ & ->).
  split; [exact Hiff|]. split; [exact Hiff|].
  split; [apply Services_load_frame | apply Root_load_frame].
Qed.

End Invariants.

(** ** [reset], and the observer's slot *)

Section ResetAndObserver.

Lemma flag_update_lookup (o : load_event) (key : string)
    (flags : gmap string bool) :
  flag_update o key flags !! key
  = match o with
    | pending => flags !! key
    | _ => Some (is_onload o)
    end.
Proof. destruct o; cbn; rewrite ?lookup_insert_eq; reflexivity. Qed.

Lemma Services_load_flags (outcome : string -> load_event) (e : MusicEngine)
    (k : string) :
  In k voices ->
  loadedStates (Services.load outcome e).1 !! k
  = match outcome k with
    | pending => loadedStates e !! k
    | o => Some (is_onload o)
    end.
Proof.
  unfold Services.load, Services.VOICE_CONFIGS. cbn [Services.load_entries].
  rewrite !Services_load_entry_eq.
  cbn [fst loadedStates set_samplers set_loadedStates set_isInitialized].
  intros [<-|[<-|[<-|[<-|[]]]]];
    repeat (rewrite flag_update_other by discriminate);
    rewrite flag_update_lookup; destruct (outcome _); try reflexivity;
    repeat (rewrite flag_update_other by discriminate); reflexivity.
Qed.

Lemma Root_load_flags (outcome : string -> load_event) (e : MusicEngine)
    (k : string) :
  In k voices ->
  loadedStates (Root.load outcome e).1 !! k
  = match outcome k with
    | pending => loadedStates e !! k
    | o => Some (is_onload o)
    end.
Proof.
  unfold Root.load, Root.VOICE_CONFIGS. cbn [Root.load_entries].
  rewrite !Root_load_entry_eq.
  cbn [fst loadedStates set_samplers set_loadedStates set_isInitialized].
  intros [<-|[<-|[<-|[<-|[]]]]];
    repeat (rewrite flag_update_other by discriminate);
    rewrite flag_update_lookup; destruct (outcome _); try reflexivity;
    repeat (rewrite flag_update_other by discriminate); reflexivity.
Qed.

Lemma Services_load_samplers_outside (outcome : string -> load_event)
    (e : MusicEngine) (k : string) :
  ~ In k voices ->
  samplers (Services.load outcome e).1 !! k = samplers e !! k.
Proof.
  unfold Services.load, Services.VOICE_CONFIGS. cbn [Services.load_entries].
  rewrite !Services_load_entry_eq.
  cbn [fst samplers set_samplers set_loadedStates set_isInitialized].
  intros Hk. rewrite !lookup_insert_ne; [reflexivity|..];
    intros <-; apply Hk; cbn; tauto.
Qed.

Lemma Root_load_samplers_outside (outcome : string -> load_event)
    (e : MusicEngine) (k : string) :
  ~ In k voices ->
  samplers (Root.load outcome e).1 !! k = samplers e !! k.
Proof.
  unfold Root.load, Root.VOICE_CONFIGS. cbn [Root.load_entries].
  rewrite !Root_load_entry_eq.
  cbn [fst samplers set_samplers set_loadedStates set_isInitialized].
  intros Hk. rewrite !lookup_insert_ne; [reflexivity|..];
    intros <-; apply Hk; cbn; tauto.
Qed.

Lemma blank_flags (k : string) :
  In k voices -> loadedStates blank !! k = Some false.
Proof.
  unfold blank. cbn [loadedStates].
  intros [<-|[<-|[<-|[<-|[]]]]];
    repeat (rewrite lookup_insert_ne by discriminate);
    apply lookup_insert_eq.
Qed.

Lemma Services_load_over_blank (outcome : string -> load_event)
    (e : MusicEngine) :
  let e' := (Services.load outcome
               (set_loadedStates (loadedStates blank) (set_samplers ∅ e))).1 in
  (forall k : string, In k voices ->
     loadedStates e' !! k = Some (is_onload (outcome k)) /\
     exists config : string * string,
       samplers e' !! k
       = Some (Tone.mkSampler config (is_onload (outcome k)) [])) /\
  (forall k : string, ~ In k voices -> samplers e' !! k = None).
Proof.
  cbv zeta. split.
  - intros k Hk. split.
    + rewrite (Services_load_flags _ _ k Hk).
      cbn [loadedStates set_loadedStates]. rewrite (blank_flags k Hk).
      destruct (outcome k); reflexivity.
    + destruct (Services_load_fields outcome
                  (set_loadedStates (loadedStates blank) (set_samplers ∅ e)))
        as (_ & Hs & _).
      exact (Hs k Hk).
  - intros k Hk. rewrite (Services_load_samplers_outside _ _ k Hk).
    cbn [samplers set_loadedStates set_samplers]. apply lookup_empty.
Qed.

Lemma Root_load_over_blank (outcome : string -> load_event)
    (e : MusicEngine) :
  let e' := (Root.load outcome
               (set_loadedStates (loadedStates blank) (set_samplers ∅ e))).1 in
  (forall k : string, In k voices ->
     loadedStates e' !! k = Some (is_onload (outcome k)) /\
     exists config : string * string,
       samplers e' !! k
       = Some (Tone.mkSampler config (is_onload (outcome k)) [])) /\
  (forall k : string, ~ In k voices -> samplers e' !! k = None).
Proof.
  cbv zeta. split.
  - intros k Hk. split.
    + rewrite (Root_load_flags _ _ k Hk).
      cbn [loadedStates set_loadedStates]. rewrite (blank_flags k Hk).
      destruct (outcome k); reflexivity.
    + destruct (Root_load_fields outcome
                  (set_loadedStates (loadedStates blank) (set_samplers ∅ e)))
        as (_ & Hs & _).
      exact (Hs k Hk).
  - intros k Hk. rewrite (Root_load_samplers_outside _ _ k Hk).
    cbn [samplers set_loadedStates set_samplers]. apply lookup_empty.
Qed.

(** X11.  [reset] rebuilds the samplers and forgets old readiness flags.
    In either revision, after [reset] the engine is idle with no loop and
    a stopped transport, the sampler map holds exactly one fresh sampler
    per voice, without any call made on it, and the readiness flag of
    each voice is true exactly when its new load succeeded: a failed or
    never-settling load reads false whatever the flag was before.  [load]
    alone, by contrast, keeps the earlier flag of a voice whose sample
    never settles.  The fallbacks are kept, released by [stop] in
    [musicEngine.ts]. *)
Theorem reset_rebuilds_samplers (outcome : string -> load_event)
    (e : MusicEngine) :
  rebuilt outcome (Services.stop e) (Services.reset outcome e).1 /\
  rebuilt outcome (Root.stop e) (Root.reset outcome e).1 /\
  (forall k : string, In k voices -> outcome k = pending ->
     loadedStates (Services.load outcome e).1 !! k = loadedStates e !! k /\
     loadedStates (Root.load outcome e).1 !! k = loadedStates e !! k).
Proof.
  split; [|split].
  - destruct (Services_reset_frame outcome e)
      as (Hl & _ & Hp & _ & _ & Ht & Hf).
    destruct (Services_stop_instruments e) as (_ & _ & _ & Hl' & Hp' & Ht').
    unfold rebuilt. rewrite Hl, Hp, Ht, Hf, Hl', Hp', Ht'.
    repeat (split; [reflexivity|]).
    unfold Services.reset. cbv zeta. generalize (Services.stop e).
    intros e0. exact (Services_load_over_blank outcome e0).
  - destruct (Root_reset_frame outcome e) as (Hl & _ & Hp & _ & _ & Ht & Hf).
    destruct (Root_stop_fields e) as (_ & _ & Hl' & Hp' & Ht' & _).
    unfold rebuilt. rewrite Hl, Hp, Ht, Hf, Hl', Hp', Ht'.
    repeat (split; [reflexivity|]).
    unfold Root.reset. cbv zeta. generalize (Root.stop e).
    intros e0. exact (Root_load_over_blank outcome e0).
  - intros k Hk Hpend.
    rewrite (Services_load_flags _ _ k Hk), (Root_load_flags _ _ k Hk), Hpend.
    split; reflexivity.
Qed.

Lemma Services_stop_unobserved (e : MusicEngine) :
  onPhaseChange e = None -> notified (Services.stop e) = notified e.
Proof.
  destruct e as [sa fa lo ls ii cm cp op tr no]. cbn. intros ->.
  unfold Services.stop, emit. cbn. destruct lo; reflexivity.
Qed.

Lemma Root_stop_unobserved (e : MusicEngine) :
  onPhaseChange e = None -> notified (Root.stop e) = notified e.
Proof.
  destruct e as [sa fa lo ls ii cm cp op tr no]. cbn. intros ->.
  unfold Root.stop, emit. cbn. destruct lo; reflexivity.
Qed.

Lemma Services_silent_without_observer (v : list JS.num)
    (phase : CompositionPhase) (e : MusicEngine) :
  onPhaseChange e = None ->
  notified (Services.stop e) = notified e /\
  notified (Services.play v phase e) = notified e.
Proof.
  intros H. pose proof (Services_stop_observer e) as Ho. rewrite H in Ho.
  split; [exact (Services_stop_unobserved e H)|].
  rewrite <- (Services_stop_unobserved e H).
  unfold Services.play. cbv zeta. revert Ho.
  generalize (Services.stop e). intros [sa fa lo ls ii cm cp op tr no].
  cbn. intros ->. reflexivity.
Qed.

Lemma Root_silent_without_observer (v : list JS.num)
    (phase : CompositionPhase) (e : MusicEngine) :
  onPhaseChange e = None ->
  notified (Root.stop e) = notified e /\
  notified (Root.play v phase e) = notified e.
Proof.
  intros H. pose proof (Root_stop_observer e) as Ho. rewrite H in Ho.
  split; [exact (Root_stop_unobserved e H)|].
  rewrite <- (Root_stop_unobserved e H).
  unfold Root.play. cbv zeta. revert Ho.
  generalize (Root.stop e). intros [sa fa lo ls ii cm cp op tr no].
  cbn. intros ->. reflexivity.
Qed.

(** X12.  The observer is one replaceable slot.  In either revision,
    while no observer is registered [stop] and [play] change the phase
    without notifying anyone; and after [setPhaseCallback] only the
    observer registered last is notified: [play] tells it idle, then the
    new phase, and an observer registered before it hears nothing. *)
Theorem observer_is_one_slot (v : list JS.num) (phase : CompositionPhase)
    (e : MusicEngine) (cb cb' : nat) :
  (onPhaseChange e = None ->
   notified (Services.stop e) = notified e /\
   notified (Services.play v phase e) = notified e /\
   notified (Root.stop e) = notified e /\
   notified (Root.play v phase e) = notified e) /\
  notified (Services.play v phase
              (setPhaseCallback cb' (setPhaseCallback cb e)))
    = notified e ++ [(cb', idle); (cb', phase)] /\
  notified (Root.play v phase (setPhaseCallback cb' (setPhaseCallback cb e)))
    = notified e ++ [(cb', idle); (cb', phase)].
Proof.
  split; [|split].
  - intros H.
    destruct (Services_silent_without_observer v phase e H) as [-> ->].
    destruct (Root_silent_without_observer v phase e H) as [-> ->].
    repeat split; reflexivity.
  - apply (Services_play_notified v phase
             (setPhaseCallback cb' (setPhaseCallback cb e)) cb').
    reflexivity.
  - apply (Root_play_notified v phase
             (setPhaseCallback cb' (setPhaseCallback cb e)) cb').
    reflexivity.
Qed.

Lemma observer_is_one_slot_witness :
  notified (Services.stop Services.new) = notified Services.new /\
  notified (Services.play (zeros 384) start Services.new)
  = notified Services.new.
Proof.
  destruct (observer_is_one_slot (zeros 384) start Services.new 0 0)
    as [H _].
  destruct (H eq_refl) as (H1 & H2 & _).
  split; [exact H1 | exact H2].
Defined.

End ResetAndObserver.

(** ** One tick, voice by voice *)

Section TickPerVoice.

Lemma Services_fire_self (time : R) (step : nat) (noteData : NoteEvent)
    (v : string) (i : nat) (e : MusicEngine) :
  sampler_history (Services_fire time step noteData v i e) v
  = sampler_history e v ++ (voice_calls services time step noteData v i e).1 /\
  fallback_history (Services_fire time step noteData v i e) v
  = fallback_history e v ++ (voice_calls services time step noteData v i e).2.
Proof.
  unfold Services_fire, voice_calls.
  destruct (gate noteData || (step mod 4 =? 0)%nat);
    [|cbn [fst snd]; rewrite !app_nil_r; split; reflexivity].
  destruct (Services_route_self time noteData v i e) as [Hs Hf].
  unfold sampler_history, fallback_history. rewrite Hs, Hf.
  unfold Services_ready.
  destruct (samplers e !! v) as [s|]; [destruct (Tone.loaded s)|];
    destruct (fallbacks e !! v) as [f|]; cbn;
    rewrite ?app_nil_r; split; reflexivity.
Qed.

Lemma Root_fire_self (time : R) (step : nat) (noteData : NoteEvent)
    (v : string) (i : nat) (e : MusicEngine) :
  sampler_history (Root_fire time step noteData v i e) v
  = sampler_history e v ++ (voice_calls root time step noteData v i e).1 /\
  fallback_history (Root_fire time step noteData v i e) v
  = fallback_history e v ++ (voice_calls root time step noteData v i e).2.
Proof.
  unfold Root_fire, voice_calls.
  destruct (gate noteData || (step mod 16 =? 0)%nat);
    [|cbn [fst snd]; rewrite !app_nil_r; split; reflexivity].
  destruct (Root_route_self time noteData v i e) as [Hs Hf].
  unfold sampler_history, fallback_history. rewrite Hs, Hf.
  unfold Root_ready.
  destruct (samplers e !! v) as [s|];
    [destruct (default false (loadedStates e !! v))|];
    destruct (fallbacks e !! v) as [f|]; cbn;
    unfold Tone.do_call; rewrite <- ?app_assoc, ?app_nil_r;
    split; reflexivity.
Qed.

Lemma same_voice_eq (r : revision) (time : R) (step : nat)
    (noteData : NoteEvent) (k : string) (i : nat) (e e' : MusicEngine) :
  same_voice k e e' ->
  sampler_history e' k = sampler_history e k /\
  fallback_history e' k = fallback_history e k /\
  voice_calls r time step noteData k i e'
  = voice_calls r time step noteData k i e.
Proof.
  intros (Hs & Hf & Hl).
  unfold sampler_history, fallback_history, voice_calls, Services_ready,
    Root_ready.
  rewrite Hs, Hf, Hl. destruct r; repeat split; reflexivity.
Qed.

Lemma same_voice_trans (k : string) (e1 e2 e3 : MusicEngine) :
  same_voice k e1 e2 -> same_voice k e2 e3 -> same_voice k e1 e3.
Proof.
  intros (H1 & H2 & H3) (H4 & H5 & H6).
  unfold same_voice. rewrite H4, H5, H6. repeat split; assumption.
Qed.

Lemma Services_fire_other (time : R) (step : nat) (noteData : NoteEvent)
    (v : string) (i : nat) (e : MusicEngine) (k : string) :
  k <> v -> same_voice k e (Services_fire time step noteData v i e).
Proof.
  intros Hk. unfold Services_fire.
  destruct (gate noteData || (step mod 4 =? 0)%nat);
    [|repeat split; reflexivity].
  destruct (Services_route_others time noteData v i e k Hk) as [Hs Hf].
  destruct (Services_route_frame time noteData v i e) as (_ & _ & Hl & _).
  unfold same_voice. rewrite Hs, Hf, Hl. repeat split; reflexivity.
Qed.

Lemma Root_route_flags (time : R) (noteData : NoteEvent) (v : string)
    (i : nat) (e : MusicEngine) :
  loadedStates (Root.route time noteData v i e) = loadedStates e.
Proof.
  unfold Root.route. cbv zeta.
  destruct (match samplers e !! v with
            | Some _ => default false (loadedStates e !! v)
            | None => false
            end); [reflexivity|].
  destruct (fallbacks e !! v); reflexivity.
Qed.

Lemma Root_fire_other (time : R) (step : nat) (noteData : NoteEvent)
    (v : string) (i : nat) (e : MusicEngine) (k : string) :
  k <> v -> same_voice k e (Root_fire time step noteData v i e).
Proof.
  intros Hk. unfold Root_fire.
  destruct (gate noteData || (step mod 16 =? 0)%nat);
    [|repeat split; reflexivity].
  destruct (Root_route_others time noteData v i e k Hk) as [Hs Hf].
  unfold same_voice. rewrite Hs, Hf, Root_route_flags.
  repeat split; reflexivity.
Qed.

(** Four passes over distinct voices: the pass for [k] sees the
    instruments of [k] as they were, and no later pass touches them. *)
Lemma four_passes (r : revision) (time : R) (step : nat)
    (fire : NoteEvent -> string -> nat -> MusicEngine -> MusicEngine)
    (Hself : forall noteData v i e,
       sampler_history (fire noteData v i e) v
       = sampler_history e v ++ (voice_calls r time step noteData v i e).1 /\
       fallback_history (fire noteData v i e) v
       = fallback_history e v ++ (voice_calls r time step noteData v i e).2)
    (Hother : forall noteData v i e k,
       k <> v -> same_voice k e (fire noteData v i e))
    (nd0 nd1 nd2 nd3 : NoteEvent) (e : MusicEngine)
    (k : string) (i : nat) (noteData : NoteEvent) :
  In (k, i, noteData) (pulse_entries nd0 nd1 nd2 nd3) ->
  let e' := fire nd3 "soprano"%string 3%nat
              (fire nd2 "alto"%string 2%nat
                 (fire nd1 "tenor"%string 1%nat
                    (fire nd0 "bass"%string 0%nat e))) in
  sampler_history e' k
  = sampler_history e k ++ (voice_calls r time step noteData k i e).1 /\
  fallback_history e' k
  = fallback_history e k ++ (voice_calls r time step noteData k i e).2.
Proof.
  intros Hin. cbv zeta.
  set (e1 := fire nd0 "bass"%string 0%nat e).
  set (e2 := fire nd1 "tenor"%string 1%nat e1).
  set (e3 := fire nd2 "alto"%string 2%nat e2).
  assert (forall k, k <> "bass"%string -> same_voice k e e1) as H01
    by (intros; apply Hother; assumption).
  assert (forall k, k <> "tenor"%string -> same_voice k e1 e2) as H12
    by (intros; apply Hother; assumption).
  assert (forall k, k <> "alto"%string -> same_voice k e2 e3) as H23
    by (intros; apply Hother; assumption).
  assert (forall k, k <> "soprano"%string ->
            same_voice k e3 (fire nd3 "soprano"%string 3%nat e3)) as H34
    by (intros; apply Hother; assumption).
  destruct Hin as [H|[H|[H|[H|[]]]]]; injection H as <- <- <-.
  - assert (same_voice "bass" e1 (fire nd3 "soprano"%string 3%nat e3)) as Hv.
    { eapply same_voice_trans; [apply H12; discriminate|].
      eapply same_voice_trans; [apply H23; discriminate|].
      apply H34; discriminate. }
    destruct (same_voice_eq r time step nd0 "bass" 0 _ _ Hv) as (-> & -> & _).
    subst e1. apply Hself.
  - assert (same_voice "tenor" e2 (fire nd3 "soprano"%string 3%nat e3)) as Hv.
    { eapply same_voice_trans; [apply H23; discriminate|].
      apply H34; discriminate. }
    destruct (same_voice_eq r time step nd1 "tenor" 1 _ _ Hv) as (-> & -> & _).
    destruct (same_voice_eq r time step nd1 "tenor" 1 _ _
                (H01 "tenor"%string ltac:(discriminate)))
      as (Hs & Hf & Hc).
    rewrite <- Hs, <- Hf, <- Hc. subst e2. apply Hself.
  - assert (same_voice "alto" e e2) as Hv.
    { eapply same_voice_trans; [apply H01; discriminate|].
      apply H12; discriminate. }
    destruct (same_voice_eq r time step nd2 "alto" 2 _ _
                (H34 "alto"%string ltac:(discriminate))) as (-> & -> & _).
    destruct (same_voice_eq r time step nd2 "alto" 2 _ _ Hv)
      as (Hs & Hf & Hc).
    rewrite <- Hs, <- Hf, <- Hc. subst e3. apply Hself.
  - assert (same_voice "soprano" e e3) as Hv.
    { eapply same_voice_trans; [apply H01; discriminate|].
      eapply same_voice_trans; [apply H12; discriminate|].
      apply H23; discriminate. }
    destruct (same_voice_eq r time step nd3 "soprano" 3 _ _ Hv)
      as (Hs & Hf & Hc).
    rewrite <- Hs, <- Hf, <- Hc. apply Hself.
Qed.

(** X13.  One tick, voice by voice.  While the loop is live at [step]
    and the four events are there to be read, a tick of either revision
    does not throw, moves the loop to the next step, writes no other
    field of the engine, and makes for each voice exactly the calls of
    [voice_calls]: none when the gate is closed off the pulse (every
    fourth step in [services/musicEngine.ts], every sixteenth in
    [musicEngine.ts]); else one trigger ([services]) or a release and a
    trigger ([musicEngine.ts]) on the sampler when it is ready, on the
    fallback, at reduced velocity, when it is not.  The passes for the
    other voices do not change what a voice gets. *)
Theorem tick_calls_voice_by_voice (r : revision) (time : R)
    (e : MusicEngine) (step : nat) (nd0 nd1 nd2 nd3 : NoteEvent)
    (Hlive : live_at e step)
    (Hevents : events_at e step nd0 nd1 nd2 nd3) :
  exists e' : MusicEngine,
    perform r (clock_tick time) e = Some e' /\
    live_at e' (S step) /\ untouched e e' /\
    forall (k : string) (i : nat) (noteData : NoteEvent),
      In (k, i, noteData) (pulse_entries nd0 nd1 nd2 nd3) ->
      sampler_history e' k
      = sampler_history e k
        ++ (voice_calls r time step noteData k i e).1 /\
      fallback_history e' k
      = fallback_history e k
        ++ (voice_calls r time step noteData k i e).2.
Proof.
  destruct Hlive as [Hl Hs]. destruct Hevents as (H0 & H1 & H2 & H3).
  destruct r; cbn [perform].
  - pose proof (Services_tick_unrolled time e step nd0 nd1 nd2 nd3
                  Hl Hs H0 H1 H2 H3) as Ht.
    eexists. split; [exact Ht|].
    pose proof (Services_tick_untouched _ _ _ Ht) as Hu.
    split; [|split; [exact Hu|]].
    + split; [reflexivity|].
      destruct Hu as (_ & _ & _ & _ & -> & _). exact Hs.
    + intros k i noteData Hin.
      exact (four_passes services time step (Services_fire time step)
               (Services_fire_self time step) (Services_fire_other time step)
               nd0 nd1 nd2 nd3 e k i noteData Hin).
  - pose proof (Root_tick_unrolled time e step nd0 nd1 nd2 nd3
                  Hl Hs H0 H1 H2 H3) as Ht.
    eexists. split; [exact Ht|].
    pose proof (Root_tick_untouched _ _ _ Ht) as Hu.
    split; [|split; [exact Hu|]].
    + split; [reflexivity|].
      destruct Hu as (_ & _ & _ & _ & -> & _). exact Hs.
    + intros k i noteData Hin.
      exact (four_passes root time step (Root_fire time step)
               (Root_fire_self time step) (Root_fire_other time step)
               nd0 nd1 nd2 nd3 e k i noteData Hin).
Qed.

Lemma tick_calls_voice_by_voice_witness :
  exists e' : MusicEngine,
    perform services (clock_tick 0)
      (Services.play (zeros 384) start Services.new) = Some e' /\
    live_at e' 1.
Proof.
  pose proof (Services_play_tuned (zeros 384) start Services.new) as Ht.
  destruct (Ht 0%nat 0%nat ltac:(lia)) as [nd0 H0].
  destruct (Ht 0%nat 1%nat ltac:(lia)) as [nd1 H1].
  destruct (Ht 0%nat 2%nat ltac:(lia)) as [nd2 H2].
  destruct (Ht 0%nat 3%nat ltac:(lia)) as [nd3 H3].
  destruct (tick_calls_voice_by_voice services 0
              (Services.play (zeros 384) start Services.new) 0
              nd0 nd1 nd2 nd3
              (Services_play_live (zeros 384) start Services.new)
              (conj H0 (conj H1 (conj H2 H3))))
    as (e' & Htick & Hlive & _).
  exists e'. split; [exact Htick | exact Hlive].
Defined.

End TickPerVoice.

(** ** The bar of sixteen steps *)

Section Period.

Lemma note_at_period (e : MusicEngine) (step i : nat) :
  sixteen_steps e -> note_at e (step + 16) i = note_at e step i.
Proof.
  unfold sixteen_steps, note_at. intros H.
  destruct (currentMelodies e !! i) as [melody|] eqn:E; [|reflexivity].
  cbn. rewrite Forall_forall in H.
  rewrite (H melody (list_elem_of_lookup_2 _ _ _ E)).
  f_equal. change 16%nat with (1 * 16)%nat at 1.
  apply Nat.Div0.mod_add.
Qed.

Lemma forEach_shift {A St : Type} (f g : A -> nat -> St -> option St)
    (h : St -> St) (P : St -> Prop) :
  (forall v i s, P s -> f v i (h s) = h <$> g v i s) ->
  (forall v i s s', g v i s = Some s' -> P s -> P s') ->
  forall l i s, P s -> forEach f l i (h s) = h <$> forEach g l i s.
Proof.
  intros Hfg HP l. induction l as [|v l IH]; intros i s Hs; [reflexivity|].
  cbn [forEach]. rewrite (Hfg v i s Hs).
  destruct (g v i s) as [s'|] eqn:E; [|reflexivity].
  cbn. apply IH. exact (HP v i s s' E Hs).
Qed.

Lemma Services_route_set_loop (x : option Tone.Loop) (time : R)
    (noteData : NoteEvent) (v : string) (i : nat) (e : MusicEngine) :
  Services.route time noteData v i (set_loop x e)
  = set_loop x (Services.route time noteData v i e).
Proof.
  unfold Services.route. cbv zeta. cbn [samplers fallbacks set_loop].
  destruct (match samplers e !! v with
            | Some s => Tone.loaded s
            | None => false
            end); [reflexivity|].
  destruct (fallbacks e !! v); reflexivity.
Qed.

Lemma Root_route_set_loop (x : option Tone.Loop) (time : R)
    (noteData : NoteEvent) (v : string) (i : nat) (e : MusicEngine) :
  Root.route time noteData v i (set_loop x e)
  = set_loop x (Root.route time noteData v i e).
Proof.
  unfold Root.route. cbv zeta. cbn [samplers fallbacks loadedStates set_loop].
  destruct (match samplers e !! v with
            | Some _ => default false (loadedStates e !! v)
            | None => false
            end); [reflexivity|].
  destruct (fallbacks e !! v); reflexivity.
Qed.

Lemma mod_4_period (step : nat) : ((step + 16) mod 4 = step mod 4)%nat.
Proof. change 16%nat with (4 * 4)%nat. apply Nat.Div0.mod_add. Qed.

Lemma mod_16_period (step : nat) : ((step + 16) mod 16 = step mod 16)%nat.
Proof. change 16%nat with (1 * 16)%nat at 1. apply Nat.Div0.mod_add. Qed.

Lemma Services_voice_callback_shift (x : option Tone.Loop) (time : R)
    (step : nat) (v : string) (i : nat) (e : MusicEngine) :
  sixteen_steps e ->
  Services.voice_callback time (step + 16) v i (set_loop x e)
  = set_loop x <$> Services.voice_callback time step v i e.
Proof.
  intros H. pose proof (note_at_period e step i H) as Hn.
  unfold note_at in Hn. unfold Services.voice_callback.
  cbn [currentMelodies set_loop].
  destruct (currentMelodies e !! i) as [melody|]; [|reflexivity].
  cbn [mbind option_bind] in Hn |- *. rewrite Hn.
  destruct (match length melody with
            | O => None
            | S _ => melody !! (step mod length melody)%nat
            end) as [noteData|]; [|reflexivity].
  cbn [mbind option_bind]. rewrite mod_4_period.
  destruct (gate noteData || (step mod 4 =? 0)%nat);
    cbn [fmap option_fmap option_map];
    rewrite ?Services_route_set_loop; reflexivity.
Qed.

Lemma Root_voice_callback_shift (x : option Tone.Loop) (time : R)
    (step : nat) (v : string) (i : nat) (e : MusicEngine) :
  sixteen_steps e ->
  Root.voice_callback time (step + 16) v i (set_loop x e)
  = set_loop x <$> Root.voice_callback time step v i e.
Proof.
  intros H. pose proof (note_at_period e step i H) as Hn.
  unfold note_at in Hn. unfold Root.voice_callback.
  cbn [currentMelodies set_loop].
  destruct (currentMelodies e !! i) as [melody|]; [|reflexivity].
  cbn [mbind option_bind] in Hn |- *. rewrite Hn.
  destruct (match length melody with
            | O => None
            | S _ => melody !! (step mod length melody)%nat
            end) as [noteData|]; [|reflexivity].
  cbn [mbind option_bind]. rewrite mod_16_period.
  destruct (gate noteData || (step mod 16 =? 0)%nat);
    cbn [fmap option_fmap option_map];
    rewrite ?Root_route_set_loop; reflexivity.
Qed.

Lemma Services_voice_callback_sixteen (time : R) (step : nat) (v : string)
    (i : nat) (e e' : MusicEngine) :
  Services.voice_callback time step v i e = Some e' ->
  sixteen_steps e -> sixteen_steps e'.
Proof.
  intros H. unfold sixteen_steps.
  destruct (Services_voice_callback_cases _ _ _ _ _ _ H) as [->|[nd ->]];
    [tauto|].
  destruct (Services_route_frame time nd v i e) as (_ & -> & _). tauto.
Qed.

Lemma Root_voice_callback_sixteen (time : R) (step : nat) (v : string)
    (i : nat) (e e' : MusicEngine) :
  Root.voice_callback time step v i e = Some e' ->
  sixteen_steps e -> sixteen_steps e'.
Proof.
  intros H. unfold sixteen_steps.
  destruct (Root_voice_callback_cases _ _ _ _ _ _ H) as [->|[nd ->]];
    [tauto|].
  destruct (Root_route_frame time nd v i e) as (_ & -> & _). tauto.
Qed.

Lemma Services_play_sixteen (v : list JS.num) (phase : CompositionPhase)
    (e : MusicEngine) :
  sixteen_steps (Services.play v phase e).
Proof.
  unfold sixteen_steps. rewrite Services_play_melodies.
  repeat constructor; apply Services_melody_length.
Qed.

Lemma Root_play_sixteen (v : list JS.num) (phase : CompositionPhase)
    (e : MusicEngine) :
  sixteen_steps (Root.play v phase e).
Proof.
  unfold sixteen_steps. rewrite Root_play_melodies.
  repeat constructor; apply Root_melody_length.
Qed.

(** X14.  The loop repeats a bar of sixteen steps.  With melodies of
    sixteen events, as [play] generates them, and a live loop, the tick
    at step [step + 16] does to the engine exactly what the tick at
    [step] does, the step counter apart: the same events are read, the
    pulse falls on the same steps, the same calls go to the same
    instruments, and it throws if and only if the other does.  The step
    counter itself goes on counting and is not reset. *)
Theorem loop_repeats_every_sixteen_steps (r : revision) (time : R)
    (e : MusicEngine) (step : nat)
    (Hsixteen : sixteen_steps e) (Hlive : live_at e step) :
  perform r (clock_tick time) (set_loop (Some (Tone.mkLoop (step + 16))) e)
  = set_loop (Some (Tone.mkLoop (S (step + 16))))
      <$> perform r (clock_tick time) e.
Proof.
  destruct Hlive as [Hl Hs]. destruct r; cbn [perform].
  - unfold Services.tick, Services.callback.
    cbn [loop transport set_loop Tone.step]. rewrite Hl, Hs. cbn [Tone.step].
    rewrite (forEach_shift (Services.voice_callback time (step + 16))
               (Services.voice_callback time step)
               (set_loop (Some (Tone.mkLoop (step + 16)))) sixteen_steps);
      [ | intros v i s; apply Services_voice_callback_shift
        | intros v i s s'; apply Services_voice_callback_sixteen
        | exact Hsixteen ].
    destruct (forEach (Services.voice_callback time step) voices 0%nat e);
      reflexivity.
  - unfold Root.tick, Root.callback.
    cbn [loop transport set_loop Tone.step]. rewrite Hl, Hs. cbn [Tone.step].
    rewrite (forEach_shift (Root.voice_callback time (step + 16))
               (Root.voice_callback time step)
               (set_loop (Some (Tone.mkLoop (step + 16)))) sixteen_steps);
      [ | intros v i s; apply Root_voice_callback_shift
        | intros v i s s'; apply Root_voice_callback_sixteen
        | exact Hsixteen ].
    destruct (forEach (Root.voice_callback time step) voices 0%nat e);
      reflexivity.
Qed.

Lemma loop_repeats_every_sixteen_steps_witness :
  perform services (clock_tick 0)
    (set_loop (Some (Tone.mkLoop (0 + 16)))
       (Services.play (zeros 384) start Services.new))
  = set_loop (Some (Tone.mkLoop (S (0 + 16))))
      <$> perform services (clock_tick 0)
            (Services.play (zeros 384) start Services.new).
Proof.
  exact (loop_repeats_every_sixteen_steps services 0
           (Services.play (zeros 384) start Services.new) 0
           (Services_play_sixteen (zeros 384) start Services.new)
           (Services_play_live (zeros 384) start Services.new)).
Defined.

End Period.

(** ** The landmark service *)

Section Landmarks.



Lemma with_extract_Some (extractData : Wiki.ExtractData)
    (a b : WikiArticle) :
  Wiki.with_extract extractData a = Some b ->
  pageid b = pageid a /\ title b = title a /\ dist b = dist a /\
  lat b = lat a /\ lon b = lon a /\
  exists (query : Wiki.ExtractQuery) (entries : JS.num -> option Wiki.Page),
    Wiki.extract_query extractData = Some query /\
    Wiki.pages query = Some entries /\
    extract b
    = Some (or_else (page ← entries (pageid a); Wiki.page_extract page)
                    Wiki.placeholder).
Proof.
  unfold Wiki.with_extract.
  destruct (Wiki.extract_query extractData) as [query|]; [|discriminate].
  cbn [mbind option_bind].
  destruct (Wiki.pages query) as [entries|] eqn:Ep; [|discriminate].
  cbn [mbind option_bind]. intros H. injection H as <-.
  cbn [pageid title dist lat lon extract].
  do 5 (split; [reflexivity|]).
  exists query, entries. split; [reflexivity|]. split; [exact Ep|].
  destruct (entries (pageid a)); reflexivity.
Qed.

Lemma text_of_cases (b : WikiArticle) (s : string) :
  extract b = Some s ->
  text_of b = if (30 <? String.length s)%nat then s else title b.
Proof.
  unfold text_of. intros ->. destruct s as [|c s]; reflexivity.
Qed.

Lemma getNearbyLandmarks_found (fetch_geo : Location -> option Wiki.GeoData)
    (fetch_extracts : list JS.num -> option Wiki.ExtractData)
    (loc : Location) (data : Wiki.GeoData) (query : Wiki.GeoQuery)
    (articles : list WikiArticle) :
  fetch_geo loc = Some data -> Wiki.geo_query data = Some query ->
  Wiki.geosearch query = Some articles ->
  Wiki.getNearbyLandmarks fetch_geo fetch_extracts loc
  = extractData ← fetch_extracts (map pageid articles);
    mapM (Wiki.with_extract extractData) articles.
Proof.
  intros H1 H2 H3. unfold Wiki.getNearbyLandmarks.
  rewrite H1. cbn [mbind option_bind]. rewrite H2, H3. reflexivity.
Qed.

Lemma getNearbyLandmarks_cases (fetch_geo : Location -> option Wiki.GeoData)
    (fetch_extracts : list JS.num -> option Wiki.ExtractData)
    (loc : Location) (result : list WikiArticle) :
  Wiki.getNearbyLandmarks fetch_geo fetch_extracts loc = Some result ->
  result = [] \/
  exists (articles : list WikiArticle) (extractData : Wiki.ExtractData),
    fetch_extracts (map pageid articles) = Some extractData /\
    Forall2 (fun a b => Wiki.with_extract extractData a = Some b)
            articles result.
Proof.
  unfold Wiki.getNearbyLandmarks.
  destruct (fetch_geo loc) as [data|]; [|discriminate].
  cbn [mbind option_bind].
  destruct (Wiki.geo_query data) as [query|];
    [|intros H; injection H as <-; left; reflexivity].
  destruct (Wiki.geosearch query) as [articles|];
    [|intros H; injection H as <-; left; reflexivity].
  cbv zeta.
  destruct (fetch_extracts (map pageid articles)) as [extractData|] eqn:E;
    [|discriminate].
  cbn [mbind option_bind]. intros H. right.
  exists articles, extractData. split; [exact E|].
  apply mapM_Some. exact H.
Qed.



Lemma with_extract_None (extractData : Wiki.ExtractData) (a : WikiArticle) :
  Wiki.with_extract extractData a = None <->
  (Wiki.extract_query extractData ≫= Wiki.pages) = None.
Proof.
  unfold Wiki.with_extract.
  destruct (Wiki.extract_query extractData) as [query|]; [|tauto].
  cbn [mbind option_bind].
  destruct (Wiki.pages query) as [entries|]; [|tauto].
  cbn [mbind option_bind]. split; discriminate.
Qed.

Lemma mapM_with_extract_None (extractData : Wiki.ExtractData)
    (articles : list WikiArticle) :
  mapM (Wiki.with_extract extractData) articles = None <->
  articles <> [] /\
  (Wiki.extract_query extractData ≫= Wiki.pages) = None.
Proof.
  destruct articles as [|a l].
  - cbn. split; [discriminate | intros [H _]; contradiction].
  - split.
    + intros H. split; [discriminate|].
      destruct (Wiki.extract_query extractData ≫= Wiki.pages) eqn:E;
        [|reflexivity].
      exfalso. apply eq_None_not_Some in H. apply H. apply mapM_is_Some.
      apply Forall_forall. intros x _.
      destruct (Wiki.with_extract extractData x) eqn:Ex; [eauto|].
      apply with_extract_None in Ex. congruence.
    + intros [_ H]. cbn [mapM].
      rewrite (proj2 (with_extract_None extractData a) H). reflexivity.
Qed.

(** X19.  When the landmark lookup rejects, and when it gives up early.
    [getNearbyLandmarks] rejects exactly when the first request fails,
    or the answer lists articles and the second request fails, or the
    answer lists at least one article and the second answer has no
    [query.pages].  An answer without [query.geosearch] resolves to the
    empty list whatever the second request would give; and so does an
    empty list of articles as soon as the second request resolves, even
    to a body without [query]. *)
Theorem landmarks_reject_exactly_when
    (fetch_geo : Location -> option Wiki.GeoData)
    (fetch_extracts : list JS.num -> option Wiki.ExtractData)
    (loc : Location) :
  (Wiki.getNearbyLandmarks fetch_geo fetch_extracts loc = None <->
   fetch_geo loc = None \/
   exists (data : Wiki.GeoData) (query : Wiki.GeoQuery)
          (articles : list WikiArticle),
     fetch_geo loc = Some data /\ Wiki.geo_query data = Some query /\
     Wiki.geosearch query = Some articles /\
     (fetch_extracts (map pageid articles) = None \/
      articles <> [] /\
      exists extractData : Wiki.ExtractData,
        fetch_extracts (map pageid articles) = Some extractData /\
        (Wiki.extract_query extractData ≫= Wiki.pages) = None)) /\
  (forall data : Wiki.GeoData,
     fetch_geo loc = Some data ->
     (Wiki.geo_query data ≫= Wiki.geosearch) = None ->
     Wiki.getNearbyLandmarks fetch_geo fetch_extracts loc = Some []) /\
  (forall (data : Wiki.GeoData) (query : Wiki.GeoQuery)
          (extractData : Wiki.ExtractData),
     fetch_geo loc = Some data -> Wiki.geo_query data = Some query ->
     Wiki.geosearch query = Some [] ->
     fetch_extracts [] = Some extractData ->
     Wiki.getNearbyLandmarks fetch_geo fetch_extracts loc = Some []).
Proof.
  split; [|split].
  - unfold Wiki.getNearbyLandmarks.
    destruct (fetch_geo loc) as [data|] eqn:Eg;
      [|split; intros _; [left; reflexivity | reflexivity]].
    cbn [mbind option_bind].
    destruct (Wiki.geo_query data) as [query|] eqn:Eq.
    2:{ split; [discriminate|].
        intros [H|(d & q & l & H1 & H2 & _)]; [discriminate|].
        injection H1 as <-. congruence. }
    destruct (Wiki.geosearch query) as [articles|] eqn:Ea.
    2:{ split; [discriminate|].
        intros [H|(d & q & l & H1 & H2 & H3 & _)]; [discriminate|].
        injection H1 as <-. congruence. }
    cbv zeta.
    destruct (fetch_extracts (map pageid articles)) as [extractData|] eqn:Ef.
    + cbn [mbind option_bind]. rewrite mapM_with_extract_None. split.
      * intros [Hne Hnone]. right. exists data, query, articles.
        split; [reflexivity|]. split; [exact Eq|]. split; [exact Ea|].
        right. split; [exact Hne|].
        exists extractData. split; [exact Ef | exact Hnone].
      * intros [H|(d & q & l & H1 & H2 & H3 & H4)]; [discriminate|].
        injection H1 as <-. rewrite Eq in H2. injection H2 as <-.
        rewrite Ea in H3. injection H3 as <-.
        destruct H4 as [H4|(Hne & ed & H5 & H6)]; [congruence|].
        rewrite Ef in H5. injection H5 as <-. split; assumption.
    + split; [|reflexivity]. intros _. right.
      exists data, query, articles.
      split; [reflexivity|]. split; [exact Eq|]. split; [exact Ea|].
      left. exact Ef.
  - intros data Hg Hnone. unfold Wiki.getNearbyLandmarks. rewrite Hg.
    cbn [mbind option_bind].
    destruct (Wiki.geo_query data) as [query|]; [|reflexivity].
    cbn [mbind option_bind] in Hnone. rewrite Hnone. reflexivity.
  - intros data query extractData Hg Hq Ha Hf.
    rewrite (getNearbyLandmarks_found _ _ _ _ _ _ Hg Hq Ha).
    cbn [map]. rewrite Hf. reflexivity.
Qed.

(** X20.  The placeholder is never sent to the embedding model.  For
    every article [getNearbyLandmarks] returns, the text [handleCompose]
    embeds is the article's extract when that has more than 30
    characters and the title otherwise; the placeholder, 25 characters
    long, always gives way to the title. *)
Theorem placeholder_is_never_embedded
    (fetch_geo : Location -> option Wiki.GeoData)
    (fetch_extracts : list JS.num -> option Wiki.ExtractData)
    (loc : Location) (result : list WikiArticle) (b : WikiArticle)
    (Hresolved :
       Wiki.getNearbyLandmarks fetch_geo fetch_extracts loc = Some result)
    (Hin : In b result) :
  exists s : string,
    extract b = Some s /\
    text_of b = (if (30 <? String.length s)%nat then s else title b) /\
    (s = Wiki.placeholder -> text_of b = title b) /\
    (text_of b = Wiki.placeholder -> title b = Wiki.placeholder).
Proof.
  destruct (getNearbyLandmarks_cases _ _ _ _ Hresolved)
    as [->|(articles & extractData & _ & Hall)]; [destruct Hin|].
  apply list_elem_of_In in Hin.
  destruct (proj1 (list_elem_of_lookup _ _) Hin) as [i Hi].
  destruct (Forall2_lookup_r _ _ _ _ _ Hall Hi) as (a & _ & Hab).
  destruct (with_extract_Some _ _ _ Hab)
    as (_ & _ & _ & _ & _ & query & entries & _ & _ & Hex).
  eexists. split; [exact Hex|].
  pose proof (text_of_cases b _ Hex) as Ht.
  split; [exact Ht|]. split.
  - intros Hs. rewrite Ht, Hs. reflexivity.
  - rewrite Ht.
    destruct (30 <? String.length _)%nat eqn:El; [|tauto].
    intros Hs. rewrite Hs in El. discriminate El.
Qed.

Lemma placeholder_is_never_embedded_witness :
  exists b : WikiArticle,
    In b [mkWikiArticle (JS.Fin 1) "Tower" (JS.Fin 120) (JS.Fin 51.5)
            (JS.Fin 0) (Some Wiki.placeholder);
          mkWikiArticle (JS.Fin 2) "Bridge" (JS.Fin 300) (JS.Fin 51.5)
            (JS.Fin 0) (Some Wiki.placeholder)] /\
    text_of b = "Tower"%string.
Proof.
  eexists. split; [left; reflexivity|].
  destruct (placeholder_is_never_embedded geo_answer extracts_answer
              (mkLocation (JS.Fin 51.5) (JS.Fin 0)) _ _ eq_refl
              (or_introl eq_refl)) as (s & Hs & _ & Hp & _).
  injection Hs as <-. exact (Hp eq_refl).
Defined.

End Landmarks.

(** ** The component and the engine *)

Section Component.

Lemma told_last (earlier : list (nat * CompositionPhase))
    (phase : CompositionPhase) :
  foldl told idle (earlier ++ [(setPlayingPhase, phase)]) = phase.
Proof. rewrite foldl_app. reflexivity. Qed.

Lemma stepped_shown (e : MusicEngine) :
  stepped e -> foldl told idle (notified e) = currentPhase e.
Proof.
  intros ((_ & [[-> ->]|[earlier Hn]]) & _); [reflexivity|].
  rewrite Hn at 1. apply told_last.
Qed.

Lemma in_step_shown (w : AppState) :
  in_step w -> playingPhase w = currentPhase (engine w).
Proof. apply stepped_shown. Qed.

Lemma stepped_observer (e : MusicEngine) :
  stepped e -> onPhaseChange e = Some setPlayingPhase.
Proof. intros ((H & _) & _). exact H. Qed.

Lemma stepped_idle (e : MusicEngine) :
  stepped e ->
  (currentPhase e = idle <-> loop e = None) /\
  (loop e = None <-> Tone.started (transport e) = false).
Proof.
  intros (_ & Hc & Hi). unfold consistent in Hc.
  destruct (loop e) as [l|].
  - destruct Hc as [Hs _]. split; split; intros H;
      [exact (Hi H) | discriminate | discriminate | congruence].
  - destruct Hc as [Hp Hs]. split; split; intros _;
      [reflexivity | exact Hp | exact Hs | reflexivity].
Qed.

Lemma stepped_stop (e : MusicEngine) :
  onPhaseChange e = Some setPlayingPhase -> stepped (Services.stop e).
Proof.
  intros H. split; [exact (Services_stop_in_sync _ e H)|].
  split; [apply Services_stop_consistent|].
  intros _. destruct (Services_stop_instruments e) as (_ & _ & _ & Hl & _).
  exact Hl.
Qed.

Lemma stepped_play (v : list JS.num) (phase : CompositionPhase)
    (e : MusicEngine) :
  stepped e -> phase <> idle -> stepped (Services.play v phase e).
Proof.
  intros (Hs & _) Hp. split; [|split].
  - exact (perform_in_sync services (call_play v phase) _ e _
             eq_refl Hs eq_refl).
  - apply Services_play_consistent.
  - rewrite Services_play_phase. intros H. contradiction.
Qed.

Lemma stepped_frame (e e' : MusicEngine) :
  loop e' = loop e -> currentMelodies e' = currentMelodies e ->
  currentPhase e' = currentPhase e -> notified e' = notified e ->
  onPhaseChange e' = onPhaseChange e -> transport e' = transport e ->
  stepped e -> stepped e'.
Proof.
  intros Hl Hm Hp Hn Ho Ht (Hs & Hc & Hi). split; [|split].
  - exact (in_sync_frame _ e e' Hp Hn Ho Hs).
  - exact (consistent_frame e e' Hl Hm Hp Ht Hc).
  - rewrite Hl, Hp. exact Hi.
Qed.

Lemma stepped_load (outcome : string -> load_event) (e : MusicEngine) :
  stepped e -> stepped (Services.load outcome e).1.
Proof.
  destruct (Services_load_frame outcome e)
    as (Hl & Hm & Hp & Hn & Ho & Ht & _).
  apply stepped_frame; assumption.
Qed.

Lemma stepped_reset (outcome : string -> load_event) (e : MusicEngine) :
  stepped e -> stepped (Services.reset outcome e).1.
Proof.
  intros H.
  destruct (Services_reset_frame outcome e)
    as (Hl & Hm & Hp & Hn & Ho & Ht & _).
  apply (stepped_frame (Services.stop e)); try assumption.
  apply stepped_stop. apply stepped_observer. exact H.
Qed.

Lemma stepped_tick (time : R) (e : MusicEngine) :
  stepped e ->
  exists e' : MusicEngine, Services.tick time e = Some e' /\ stepped e'.
Proof.
  intros (Hs & Hc & Hi).
  destruct (Services_tick_consistent time e Hc) as (e' & Ht & Hc').
  exists e'. split; [exact Ht|]. split; [|split; [exact Hc'|]].
  - exact (perform_in_sync services (clock_tick time) _ e e' eq_refl Hs Ht).
  - destruct (Services_tick_untouched _ _ _ Ht) as (_ & Hp & _).
    rewrite Hp. intros Hidle. specialize (Hi Hidle).
    unfold Services.tick in Ht. rewrite Hi in Ht. injection Ht as <-.
    exact Hi.
Qed.

Lemma Services_load_settles (outcome : string -> load_event)
    (e : MusicEngine) :
  (Services.load outcome e).2 = true <-> all_settle outcome.
Proof.
  destruct (Services_load_fields outcome e) as (_ & _ & _ & ->).
  unfold all_settle. rewrite forallb_forall.
  split; intros H k Hk; specialize (H k Hk).
  - intros Heq. rewrite Heq in H. discriminate H.
  - destruct (outcome k); [reflexivity | reflexivity | contradiction].
Qed.

(** [handleInitAudio], field by field. *)
Lemma handleInitAudio_fields (outcome : string -> load_event) (w : AppState) :
  let r := handleInitAudio outcome w in
  engine r.1 = (Services.load outcome (engine w)).1 /\
  r.2 = (Services.load outcome (engine w)).2 /\
  engineInitialized r.1 = (if r.2 then true else engineInitialized w) /\
  selection r.1 = selection w /\ embeddings r.1 = embeddings w /\
  isGenerating r.1 = isGenerating w /\ error r.1 = error w.
Proof.
  unfold handleInitAudio. cbv zeta.
  destruct (Services.load outcome (engine w)).2; cbn; repeat split.
Qed.

Lemma phase_eqb_eq (a b : CompositionPhase) :
  phase_eqb a b = true <-> a = b.
Proof. destruct a, b; cbn; split; congruence. Qed.

Lemma is_idle_eq (a : CompositionPhase) : is_idle a = true <-> a = idle.
Proof. destruct a; cbn; split; congruence. Qed.

Lemma in_step_stop (w : AppState) :
  in_step w ->
  in_step (on_engine Services.stop w) /\
  playingPhase (on_engine Services.stop w) = idle /\
  loop (engine (on_engine Services.stop w)) = None /\
  Tone.started (transport (engine (on_engine Services.stop w))) = false.
Proof.
  intros H. pose proof (stepped_stop _ (stepped_observer _ H)) as Hs.
  split; [exact Hs|].
  destruct (Services_stop_instruments (engine w)) as (_ & _ & _ & Hl & Hp & Ht).
  split; [|split; [exact Hl | exact Ht]].
  rewrite (in_step_shown (on_engine Services.stop w) Hs). exact Hp.
Qed.

(** The engine a handler leaves is the one it found, possibly loaded,
    possibly stopped after that. *)
Lemma handleSelect_fields (l : WikiArticle) (w : AppState) :
  let w1 := handleSelect l w in
  engine w1 = (if is_idle (playingPhase w) then engine w
               else Services.stop (engine w)) /\
  embeddings w1 = no_embeddings /\
  engineInitialized w1 = engineInitialized w /\
  isGenerating w1 = isGenerating w /\ error w1 = error w.
Proof.
  unfold handleSelect. cbv zeta.
  destruct (Selection.start (selection w)) as [first|];
    [destruct (strict_eq (pageid first) (pageid l));
     [|destruct (Selection.end_ (selection w)) as [second|];
       [destruct (strict_eq (pageid second) (pageid l))|]]|];
    destruct (is_idle (playingPhase w)); repeat split.
Qed.

Lemma in_step_select (l : WikiArticle) (w : AppState) :
  in_step w ->
  in_step (handleSelect l w) /\
  playingPhase (handleSelect l w) = idle /\
  loop (engine (handleSelect l w)) = None /\
  Tone.started (transport (engine (handleSelect l w))) = false.
Proof.
  intros H. destruct (handleSelect_fields l w) as (He & _).
  unfold in_step, playingPhase. rewrite He.
  destruct (is_idle (playingPhase w)) eqn:Ei.
  - apply is_idle_eq in Ei. rewrite (in_step_shown w H) in Ei.
    split; [exact H|]. split; [rewrite (stepped_shown _ H); exact Ei|].
    destruct (stepped_idle _ H) as [H1 H2].
    pose proof (proj1 H1 Ei) as Hl. split; [exact Hl | exact (proj1 H2 Hl)].
  - exact (in_step_stop w H).
Qed.

(** X23.  Choosing an article silences the component.  From a state in
    which the display follows the engine, [handleSelect] leaves no
    embeddings, the displayed phase idle, no loop and a stopped
    transport, whatever was playing; and after it no play button does
    anything, whatever the samples do: [togglePlayback] returns the state
    unchanged until a composition has succeeded. *)
Theorem select_silences (l : WikiArticle) (w : AppState)
    (Hstep : in_step w) :
  let w1 := handleSelect l w in
  in_step w1 /\
  embeddings w1 = no_embeddings /\
  playingPhase w1 = idle /\
  loop (engine w1) = None /\
  Tone.started (transport (engine w1)) = false /\
  forall (outcome : string -> load_event) (phase : CompositionPhase),
    phase <> idle -> togglePlayback outcome phase w1 = w1.
Proof.
  cbv zeta. destruct (in_step_select l w Hstep) as (H1 & H2 & H3 & H4).
  destruct (handleSelect_fields l w) as (_ & He & _).
  split; [exact H1|]. split; [exact He|]. split; [exact H2|].
  split; [exact H3|]. split; [exact H4|].
  intros outcome phase Hp. unfold togglePlayback. rewrite H2, He.
  destruct phase; [reflexivity | reflexivity | reflexivity | contradiction].
Qed.

Lemma mount_in_step : in_step mount.
Proof.
  split; [split; [reflexivity | left; split; reflexivity]|].
  split; [split; reflexivity | reflexivity].
Qed.

Lemma select_silences_witness :
  playingPhase (handleSelect tower mount) = idle /\
  embeddings (handleSelect tower mount) = no_embeddings.
Proof.
  destruct (select_silences tower mount mount_in_step) as (_ & H1 & H2 & _).
  split; [exact H2 | exact H1].
Defined.

Lemma togglePlayback_playing (outcome : string -> load_event)
    (phase : CompositionPhase) (w : AppState) :
  playingPhase w = phase ->
  togglePlayback outcome phase w = on_engine Services.stop w.
Proof.
  intros H. unfold togglePlayback.
  rewrite (proj2 (phase_eqb_eq _ _) H). reflexivity.
Qed.

Lemma togglePlayback_other (outcome : string -> load_event)
    (phase : CompositionPhase) (w : AppState) :
  playingPhase w <> phase ->
  togglePlayback outcome phase w
  = match vector_for phase (embeddings w) with
    | Some vec =>
        if engineInitialized w
        then on_engine (Services.play vec phase) w
        else if (Services.load outcome (engine w)).2
             then on_engine (Services.play vec phase)
                    (handleInitAudio outcome w).1
             else (handleInitAudio outcome w).1
    | None => w
    end.
Proof.
  intros H. unfold togglePlayback.
  destruct (phase_eqb (playingPhase w) phase) eqn:E;
    [apply phase_eqb_eq in E; contradiction|].
  cbv zeta. destruct (vector_for phase (embeddings w)) as [vec|];
    [|reflexivity].
  destruct (engineInitialized w); [reflexivity|].
  destruct (handleInitAudio_fields outcome w) as (_ & H2 & _).
  cbv zeta in H2. rewrite <- H2.
  destruct (handleInitAudio outcome w) as [w' settled]. cbn [fst snd].
  destruct settled; reflexivity.
Qed.

Lemma in_step_play (v : list JS.num) (phase : CompositionPhase)
    (w : AppState) :
  in_step w -> phase <> idle ->
  in_step (on_engine (Services.play v phase) w) /\
  playingPhase (on_engine (Services.play v phase) w) = phase /\
  loop (engine (on_engine (Services.play v phase) w))
  = Some (Tone.mkLoop 0) /\
  currentMelodies (engine (on_engine (Services.play v phase) w))
  = melodies_of v.
Proof.
  intros H Hp. pose proof (stepped_play v phase _ H Hp) as Hs.
  split; [exact Hs|]. split; [|split].
  - rewrite (in_step_shown (on_engine (Services.play v phase) w) Hs).
    apply Services_play_phase.
  - apply Services_play_live.
  - apply Services_play_melodies.
Qed.

Lemma in_step_init (outcome : string -> load_event) (w : AppState) :
  in_step w ->
  in_step (handleInitAudio outcome w).1 /\
  playingPhase (handleInitAudio outcome w).1 = playingPhase w /\
  loop (engine (handleInitAudio outcome w).1) = loop (engine w) /\
  currentMelodies (engine (handleInitAudio outcome w).1)
  = currentMelodies (engine w).
Proof.
  intros H. destruct (handleInitAudio_fields outcome w) as (He & _).
  cbv zeta in He. unfold in_step, playingPhase. rewrite He.
  destruct (Services_load_frame outcome (engine w))
    as (Hl & Hm & _ & Hn & _).
  rewrite Hl, Hm, Hn. split; [apply stepped_load; exact H|].
  repeat split.
Qed.

Lemma in_step_toggle (outcome : string -> load_event)
    (phase : CompositionPhase) (w : AppState) :
  in_step w -> phase <> idle -> in_step (togglePlayback outcome phase w).
Proof.
  intros H Hp.
  destruct (phase_eqb (playingPhase w) phase) eqn:E.
  - apply phase_eqb_eq in E. rewrite (togglePlayback_playing _ _ _ E).
    apply in_step_stop. exact H.
  - assert (playingPhase w <> phase) as Hne
      by (intros Heq; apply phase_eqb_eq in Heq; congruence).
    rewrite (togglePlayback_other _ _ _ Hne).
    destruct (vector_for phase (embeddings w)) as [vec|]; [|exact H].
    destruct (engineInitialized w); [apply in_step_play; assumption|].
    destruct (Services.load outcome (engine w)).2.
    + apply in_step_play; [|exact Hp]. apply in_step_init. exact H.
    + apply in_step_init. exact H.
Qed.

(** X22.  A play button toggles its phase.  From a state in which the
    display follows the engine, [togglePlayback] for one of the three
    phases keeps it so, and: when that phase is the one shown, it stops
    the engine; when another phase or none is shown and the phase's
    vector is there, it plays the vector (stopping what played), provided
    the audio was initialized or every sample settles now, and otherwise,
    when a sample never settles, leaves what is shown and the loop as
    they were; when the vector is missing, it changes nothing, even while
    another phase is playing. *)
Theorem play_button_toggles (outcome : string -> load_event)
    (phase : CompositionPhase) (w : AppState)
    (Hstep : in_step w) (Hphase : phase <> idle) :
  let w1 := togglePlayback outcome phase w in
  in_step w1 /\
  (playingPhase w = phase ->
   playingPhase w1 = idle /\ loop (engine w1) = None /\
   Tone.started (transport (engine w1)) = false) /\
  (playingPhase w <> phase ->
   forall vec : list JS.num,
     vector_for phase (embeddings w) = Some vec ->
     (engineInitialized w = true \/ all_settle outcome ->
      playingPhase w1 = phase /\
      loop (engine w1) = Some (Tone.mkLoop 0) /\
      currentMelodies (engine w1) = melodies_of vec /\
      engineInitialized w1 = true) /\
     (engineInitialized w = false -> ~ all_settle outcome ->
      playingPhase w1 = playingPhase w /\
      loop (engine w1) = loop (engine w) /\
      currentMelodies (engine w1) = currentMelodies (engine w) /\
      engineInitialized w1 = false)) /\
  (playingPhase w <> phase -> vector_for phase (embeddings w) = None ->
   w1 = w).
Proof.
  cbv zeta. split; [exact (in_step_toggle outcome phase w Hstep Hphase)|].
  split; [|split].
  - intros H. rewrite (togglePlayback_playing _ _ _ H).
    destruct (in_step_stop w Hstep) as (_ & H1 & H2 & H3).
    split; [exact H1|]. split; [exact H2 | exact H3].
  - intros Hne vec Hvec. rewrite (togglePlayback_other _ _ _ Hne), Hvec.
    destruct (handleInitAudio_fields outcome w)
      as (_ & Hr & Hi & _).
    cbv zeta in Hr, Hi. rewrite Hr in Hi.
    pose proof (Services_load_settles outcome (engine w)) as Hset.
    destruct (in_step_init outcome w Hstep) as (Hs' & Hp' & Hl' & Hm').
    split.
    + intros Hready.
      destruct (engineInitialized w) eqn:Einit.
      * destruct (in_step_play vec phase w Hstep Hphase)
          as (_ & H1 & H2 & H3).
        split; [exact H1|]. split; [exact H2|]. split; [exact H3|].
        exact Einit.
      * destruct Hready as [Hready|Hready]; [discriminate|].
        apply Hset in Hready. rewrite Hready in Hi |- *.
        destruct (in_step_play vec phase _ Hs' Hphase)
          as (_ & H1 & H2 & H3).
        split; [exact H1|]. split; [exact H2|]. split; [exact H3|].
        exact Hi.
    + intros Hinit Hpend. rewrite Hinit in Hi |- *.
      destruct (Services.load outcome (engine w)).2 eqn:Eres;
        [exfalso; apply Hpend; apply Hset; reflexivity|].
      split; [exact Hp'|]. split; [exact Hl'|]. split; [exact Hm'|].
      exact Hi.
  - intros Hne Hvec. rewrite (togglePlayback_other _ _ _ Hne), Hvec.
    reflexivity.
Qed.

Lemma play_button_toggles_witness :
  togglePlayback (fun _ => onload) start mount = mount /\
  in_step (togglePlayback (fun _ => onload) start mount).
Proof.
  destruct (play_button_toggles (fun _ => onload) start mount mount_in_step
              ltac:(discriminate)) as (H1 & _ & _ & H2).
  split; [|exact H1].
  apply H2; [|reflexivity].
  rewrite (in_step_shown mount mount_in_step). discriminate.
Defined.

Lemma strict_eq_refl (x : JS.num) (p : R) :
  x = JS.Fin p -> strict_eq x x = true.
Proof.
  intros ->. unfold strict_eq. destruct (Req_dec_T p p); [reflexivity|].
  contradiction.
Qed.

Lemma strict_eq_differ (x y : JS.num) (p q : R) :
  x = JS.Fin p -> y = JS.Fin q -> p <> q -> strict_eq x y = false.
Proof.
  intros -> -> H. unfold strict_eq. destruct (Req_dec_T p q); [|reflexivity].
  contradiction.
Qed.

Lemma handleSelect_selection (l : WikiArticle) (w : AppState) :
  selection (handleSelect l w)
  = match Selection.start (selection w) with
    | None => Selection.mk (Some l) (Selection.end_ (selection w))
    | Some first =>
        if strict_eq (pageid first) (pageid l)
        then Selection.mk None (Selection.end_ (selection w))
        else
          match Selection.end_ (selection w) with
          | None => Selection.mk (Selection.start (selection w)) (Some l)
          | Some second =>
              if strict_eq (pageid second) (pageid l)
              then Selection.mk (Selection.start (selection w)) None
              else Selection.mk (Some l) None
          end
    end.
Proof.
  unfold handleSelect. cbv zeta.
  destruct (Selection.start (selection w)) as [first|];
    [destruct (strict_eq (pageid first) (pageid l));
     [|destruct (Selection.end_ (selection w)) as [second|];
       [destruct (strict_eq (pageid second) (pageid l))|]]|];
    destruct (is_idle (playingPhase w)); reflexivity.
Qed.

(** X24.  A second click undoes the first, and the two slots are not
    kept apart.  Clicking twice in a row an article that has a page id
    and is in neither slot restores the selection, except when both
    slots were taken: then the selection ends empty.  And from an empty
    selection, clicking [a], [b], [a], [b], two articles with different
    page ids, leaves [b] in both slots. *)
Theorem second_click_undoes_first (l : WikiArticle) (w : AppState) (p : R)
    (Hnum : pageid l = JS.Fin p) :
  ((forall a : WikiArticle,
      Selection.start (selection w) = Some a \/
      Selection.end_ (selection w) = Some a ->
      strict_eq (pageid a) (pageid l) = false) ->
   selection (handleSelect l (handleSelect l w))
   = match Selection.start (selection w), Selection.end_ (selection w) with
     | Some _, Some _ => Selection.mk None None
     | _, _ => selection w
     end) /\
  (forall (other : WikiArticle) (q : R),
     pageid other = JS.Fin q -> q <> p ->
     selection w = Selection.mk None None ->
     selection (handleSelect l (handleSelect other
                  (handleSelect l (handleSelect other w))))
     = Selection.mk (Some l) (Some l)).
Proof.
  pose proof (strict_eq_refl _ _ Hnum) as Hrefl. split.
  - intros Hnew. rewrite !handleSelect_selection.
    destruct (selection w) as [[first|] [second|]];
      cbn [Selection.start Selection.end_] in *.
    + rewrite (Hnew first (or_introl eq_refl)),
        (Hnew second (or_intror eq_refl)).
      cbn [Selection.start Selection.end_]. rewrite Hrefl. reflexivity.
    + rewrite (Hnew first (or_introl eq_refl)).
      cbn [Selection.start Selection.end_].
      rewrite (Hnew first (or_introl eq_refl)), Hrefl. reflexivity.
    + rewrite Hrefl. reflexivity.
    + rewrite Hrefl. reflexivity.
  - intros other q Hq Hne Hempty. rewrite !handleSelect_selection, Hempty.
    cbn [Selection.start Selection.end_].
    rewrite (strict_eq_differ _ _ _ _ Hq Hnum Hne).
    cbn [Selection.start Selection.end_].
    rewrite (strict_eq_refl _ _ Hq). reflexivity.
Qed.

Lemma second_click_undoes_first_witness :
  selection (handleSelect tower (handleSelect bridge
               (handleSelect tower (handleSelect bridge mount))))
  = Selection.mk (Some tower) (Some tower).
Proof.
  destruct (second_click_undoes_first tower mount 1 eq_refl) as [_ H].
  apply (H bridge 2); [reflexivity | lra | reflexivity].
Defined.

Section Composing.

Variable getEmbedding : string -> option (list JS.num).
Variable calculateDifference :
  list JS.num -> list JS.num -> option (list JS.num).

(** The state [handleCompose] has reached when it turns to the texts, and
    whether it gets there. *)
Lemma compose_prelude (outcome : string -> load_event) (w : AppState) :
  let w0 := setError None (setIsGenerating true w) in
  let r := if engineInitialized w then (w0, true)
           else handleInitAudio outcome w0 in
  in_step w ->
  in_step r.1 /\ playingPhase r.1 = playingPhase w /\
  loop (engine r.1) = loop (engine w) /\
  selection r.1 = selection w /\ embeddings r.1 = embeddings w /\
  error r.1 = None /\ isGenerating r.1 = true /\
  engineInitialized r.1 = r.2 /\
  (r.2 = true <-> engineInitialized w = true \/ all_settle outcome).
Proof.
  cbv zeta. intros H. destruct (engineInitialized w) eqn:Einit.
  - cbn [fst snd]. split; [exact H|]. repeat (split; [reflexivity|]).
    split; [exact Einit|]. split; [left|]; reflexivity.
  - set (w0 := setError None (setIsGenerating true w)).
    assert (in_step w0) as H0 by exact H.
    destruct (in_step_init outcome w0 H0) as (H1 & H2 & H3 & _).
    destruct (handleInitAudio_fields outcome w0)
      as (_ & Hr & Hi & Hsel & Hemb & Hgen & Herr).
    cbv zeta in Hr, Hi, Hsel, Hemb, Hgen, Herr.
    split; [exact H1|]. split; [exact H2|]. split; [exact H3|].
    split; [exact Hsel|]. split; [exact Hemb|]. split; [exact Herr|].
    split; [exact Hgen|]. split.
    + rewrite Hi.
      destruct (handleInitAudio outcome w0).2; [reflexivity | exact Einit].
    + rewrite Hr.
      rewrite (Services_load_settles outcome (engine w0)).
      split; [right; assumption | intros [Hd|Hs]; [discriminate | exact Hs]].
Qed.

Lemma handleCompose_unfold (outcome : string -> load_event) (w : AppState)
    (first second : WikiArticle) :
  Selection.start (selection w) = Some first ->
  Selection.end_ (selection w) = Some second ->
  let w0 := setError None (setIsGenerating true w) in
  let r := if engineInitialized w then (w0, true)
           else handleInitAudio outcome w0 in
  handleCompose getEmbedding calculateDifference outcome w
  = if r.2 then
      match getEmbedding (text_of first) ≫= fun embA =>
            getEmbedding (text_of second) ≫= fun embB =>
            calculateDifference embA embB ≫= fun diff =>
            Some (embA, embB, diff) with
      | Some (embA, embB, diff) =>
          let w1 := setEmbeddings
                      (Embeddings.mk (Some embA) (Some embB) (Some diff))
                      r.1 in
          setIsGenerating false
            (if is_idle (playingPhase w) then w1
             else on_engine Services.stop w1)
      | None =>
          setIsGenerating false
            (setError (Some "Semantic analysis failed."%string) r.1)
      end
    else r.1.
Proof.
  intros H1 H2. cbv zeta. unfold handleCompose. rewrite H1, H2. cbv zeta.
  destruct (if engineInitialized w
            then (setError None (setIsGenerating true w), true)
            else handleInitAudio outcome
                   (setError None (setIsGenerating true w)))
    as [w' settled].
  cbn [fst snd]. destruct settled; [|reflexivity].
  destruct (getEmbedding (text_of first)) as [embA|]; cbn;
    [|destruct (getEmbedding (text_of second)); reflexivity].
  destruct (getEmbedding (text_of second)) as [embB|]; cbn; [|reflexivity].
  destruct (calculateDifference embA embB) as [diff|]; reflexivity.
Qed.

Lemma in_step_compose (outcome : string -> load_event) (w : AppState) :
  in_step w ->
  in_step (handleCompose getEmbedding calculateDifference outcome w).
Proof.
  intros Hstep.
  destruct (compose_prelude outcome w Hstep) as (Hs & _).
  cbv zeta in Hs.
  destruct (Selection.start (selection w)) as [first|] eqn:E1;
    [|unfold handleCompose; rewrite E1; exact Hstep].
  destruct (Selection.end_ (selection w)) as [second|] eqn:E2;
    [|unfold handleCompose; rewrite E1, E2; exact Hstep].
  rewrite (handleCompose_unfold outcome w first second E1 E2). cbv zeta.
  revert Hs.
  generalize (if engineInitialized w
              then (setError None (setIsGenerating true w), true)
              else handleInitAudio outcome
                     (setError None (setIsGenerating true w))).
  intros [w' settled]. cbn [fst snd]. intros Hs.
  destruct settled; [|exact Hs].
  destruct (getEmbedding (text_of first) ≫= _) as [[[embA embB] diff]|];
    [|exact Hs].
  destruct (is_idle (playingPhase w)); [exact Hs|].
  exact (proj1 (in_step_stop w' Hs)).
Qed.

(** X25.  What composing leaves.  From a state in which the display
    follows the engine, [handleCompose] keeps it so and keeps the
    selection; it does nothing unless both slots are filled.  With both
    filled and the audio initialized, or every sample settling now: when
    both embeddings and their difference are obtained, the three vectors
    are stored, nothing plays any more and no error is shown; when one
    of them fails, the error is shown, the stored vectors stay and what
    was playing goes on.  When the audio was not initialized and a sample
    never settles, the component stays in its generating state, no
    vector stored. *)
Theorem compose_outcomes (outcome : string -> load_event) (w : AppState)
    (Hstep : in_step w) :
  let w1 := handleCompose getEmbedding calculateDifference outcome w in
  in_step w1 /\ selection w1 = selection w /\
  (Selection.start (selection w) = None \/
   Selection.end_ (selection w) = None -> w1 = w) /\
  (forall first second : WikiArticle,
     Selection.start (selection w) = Some first ->
     Selection.end_ (selection w) = Some second ->
     (engineInitialized w = true \/ all_settle outcome ->
      (forall embA embB diff : list JS.num,
         getEmbedding (text_of first) = Some embA ->
         getEmbedding (text_of second) = Some embB ->
         calculateDifference embA embB = Some diff ->
         embeddings w1 = Embeddings.mk (Some embA) (Some embB) (Some diff) /\
         error w1 = None /\ isGenerating w1 = false /\
         engineInitialized w1 = true /\
         playingPhase w1 = idle /\ loop (engine w1) = None) /\
      ((getEmbedding (text_of first) ≫= fun embA =>
        getEmbedding (text_of second) ≫= fun embB =>
        calculateDifference embA embB) = None ->
       embeddings w1 = embeddings w /\
       error w1 = Some "Semantic analysis failed."%string /\
       isGenerating w1 = false /\
       playingPhase w1 = playingPhase w /\
       loop (engine w1) = loop (engine w))) /\
     (engineInitialized w = false -> ~ all_settle outcome ->
      isGenerating w1 = true /\ error w1 = None /\
      embeddings w1 = embeddings w /\
      playingPhase w1 = playingPhase w /\
      loop (engine w1) = loop (engine w))).
Proof.
  cbv zeta. pose proof (in_step_compose outcome w Hstep) as Hkeep.
  destruct (compose_prelude outcome w Hstep)
    as (Hs & Hp & Hl & Hsel & Hemb & Herr & Hgen & Hinit & Hset).
  cbv zeta in Hs, Hp, Hl, Hsel, Hemb, Herr, Hgen, Hinit, Hset.
  destruct (Selection.start (selection w)) as [first|] eqn:E1.
  2:{ assert (handleCompose getEmbedding calculateDifference outcome w = w)
        as -> by (unfold handleCompose; rewrite E1; reflexivity).
      split; [exact Hstep|]. split; [reflexivity|].
      split; [reflexivity|]. intros first second H. discriminate H. }
  destruct (Selection.end_ (selection w)) as [second|] eqn:E2.
  2:{ assert (handleCompose getEmbedding calculateDifference outcome w = w)
        as -> by (unfold handleCompose; rewrite E1, E2; reflexivity).
      split; [exact Hstep|]. split; [reflexivity|].
      split; [reflexivity|]. intros a b _ H. discriminate H. }
  rewrite (handleCompose_unfold outcome w first second E1 E2) in Hkeep |- *.
  cbv zeta in Hkeep |- *.
  revert Hkeep Hs Hp Hl Hsel Hemb Herr Hgen Hinit Hset.
  generalize (if engineInitialized w
              then (setError None (setIsGenerating true w), true)
              else handleInitAudio outcome
                     (setError None (setIsGenerating true w))).
  intros [w' settled]. cbn [fst snd].
  intros Hkeep Hs Hp Hl Hsel Hemb Herr Hgen Hinit Hset.
  split; [exact Hkeep|]. split.
  { destruct settled; [|exact Hsel].
    destruct (getEmbedding (text_of first) ≫= _) as [[[embA embB] diff]|];
      [|exact Hsel].
    destruct (is_idle (playingPhase w)); exact Hsel. }
  split; [intros [H|H]; discriminate H|].
  intros a b Ha Hb. injection Ha as <-. injection Hb as <-. split.
  - intros Hready. apply Hset in Hready. rewrite Hready in Hinit |- *.
    split.
    + intros embA embB diff HA HB HD. rewrite HA. cbn [mbind option_bind].
      rewrite HB. cbn [mbind option_bind]. rewrite HD.
      cbn [mbind option_bind].
      destruct (is_idle (playingPhase w)) eqn:Ei.
      * cbn [embeddings error isGenerating engineInitialized
             setIsGenerating setEmbeddings].
        do 4 (split; [first [reflexivity | assumption]|]).
        apply is_idle_eq in Ei. rewrite Ei in Hp.
        split; [exact Hp|].
        rewrite (in_step_shown w' Hs) in Hp.
        exact (proj1 (proj1 (stepped_idle _ Hs)) Hp).
      * destruct (in_step_stop w' Hs) as (_ & H1 & H2 & _).
        cbn [embeddings error isGenerating engineInitialized
             setIsGenerating setEmbeddings on_engine].
        do 4 (split; [first [reflexivity | assumption]|]).
        split; [exact H1 | exact H2].
    + intros Hfail.
      assert ((getEmbedding (text_of first) ≫= fun embA =>
               getEmbedding (text_of second) ≫= fun embB =>
               calculateDifference embA embB ≫= fun diff =>
               Some (embA, embB, diff)) = None) as ->.
      { destruct (getEmbedding (text_of first)) as [embA|]; [|reflexivity].
        cbn [mbind option_bind] in Hfail |- *.
        destruct (getEmbedding (text_of second)) as [embB|]; [|reflexivity].
        cbn [mbind option_bind] in Hfail |- *. rewrite Hfail. reflexivity. }
      cbn [embeddings error isGenerating setIsGenerating setError].
      split; [exact Hemb|]. split; [reflexivity|]. split; [reflexivity|].
      split; [exact Hp | exact Hl].
  - intros Hno Hpend. destruct settled.
    + exfalso. destruct (proj1 Hset eq_refl) as [H|H];
        [congruence | contradiction].
    + split; [exact Hgen|]. split; [exact Herr|]. split; [exact Hemb|].
      split; [exact Hp | exact Hl].
Qed.

(** One event keeps the display in step with the engine. *)
Lemma handle_in_step (c : click) (w : AppState) :
  offered c = true -> in_step w ->
  exists w' : AppState,
    handle getEmbedding calculateDifference c w = Some w' /\ in_step w'.
Proof.
  intros Hc H. destruct c as [l|outcome|phase outcome| |outcome| |time];
    cbn [handle].
  - eexists. split; [reflexivity|]. apply in_step_select. exact H.
  - eexists. split; [reflexivity|].
    exact (in_step_compose outcome w H).
  - eexists. split; [reflexivity|]. apply in_step_toggle; [exact H|].
    intros ->. discriminate Hc.
  - eexists. split; [reflexivity|]. apply in_step_stop. exact H.
  - eexists. split; [reflexivity|]. exact (stepped_reset outcome _ H).
  - eexists. split; [reflexivity|]. exact H.
  - destruct (stepped_tick time _ H) as (e' & Ht & Hs').
    rewrite Ht. eexists. split; [reflexivity|]. exact Hs'.
Qed.

Lemma session_in_step (clicks : list click) (w : AppState) :
  forallb offered clicks = true -> in_step w ->
  exists w' : AppState,
    session getEmbedding calculateDifference clicks w = Some w' /\
    in_step w'.
Proof.
  revert w. induction clicks as [|c clicks IH]; intros w Hc H.
  - exists w. split; [reflexivity | exact H].
  - cbn [forallb] in Hc. apply andb_prop in Hc. destruct Hc as [Hc Hcs].
    destruct (handle_in_step c w Hc H) as (w1 & H1 & Hs1).
    destruct (IH w1 Hcs Hs1) as (w' & H' & Hs').
    exists w'. cbn [session]. rewrite H1. split; [exact H' | exact Hs'].
Qed.

(** X21.  What is shown is what plays.  From the component as it mounts,
    through any sequence of article clicks, compositions, presses of the
    three play buttons, of the stop, re-sync and clear buttons and ticks
    of the transport, whatever the samples and the embedding service do:
    no tick throws, the phase displayed is the engine's current phase,
    it is idle exactly when the engine has no loop, and there is no loop
    exactly when the transport is stopped. *)
Theorem display_follows_engine (clicks : list click) (w0 : AppState)
    (Hmounted : mounted w0)
    (Hoffered : forallb offered clicks = true) :
  exists w : AppState,
    session getEmbedding calculateDifference clicks w0 = Some w /\
    playingPhase w = currentPhase (engine w) /\
    (playingPhase w = idle <-> loop (engine w) = None) /\
    (loop (engine w) = None <->
     Tone.started (transport (engine w)) = false).
Proof.
  assert (in_step w0) as H0.
  { destruct Hmounted as (_ & _ & _ & He). unfold in_step. rewrite He.
    exact mount_in_step. }
  destruct (session_in_step clicks w0 Hoffered H0) as (w & Hrun & Hs).
  exists w. split; [exact Hrun|].
  pose proof (in_step_shown w Hs) as Hshown.
  destruct (stepped_idle _ Hs) as [H1 H2].
  split; [exact Hshown|]. rewrite Hshown. split; [exact H1 | exact H2].
Qed.

End Composing.

Lemma compose_outcomes_witness :
  handleCompose (fun _ => None) (fun _ _ => None) (fun _ => onload) mount
  = mount.
Proof.
  destruct (compose_outcomes (fun _ => None) (fun _ _ => None)
              (fun _ => onload) mount mount_in_step) as (_ & _ & H & _).
  apply H. left. reflexivity.
Defined.

Lemma display_follows_engine_witness :
  exists w : AppState,
    session (fun _ => Some []) (fun _ _ => Some [])
      [click_article tower; click_article bridge;
       click_compose (fun _ => onload);
       click_play start (fun _ => onload); transport_tick 0;
       click_play start (fun _ => onload)] mount = Some w /\
    playingPhase w = currentPhase (engine w).
Proof.
  destruct (display_follows_engine (fun _ => Some []) (fun _ _ => Some [])
              [click_article tower; click_article bridge;
               click_compose (fun _ => onload);
               click_play start (fun _ => onload); transport_tick 0;
               click_play start (fun _ => onload)] mount
              (conj eq_refl (conj eq_refl (conj eq_refl eq_refl))) eq_refl)
    as (w & H1 & H2 & _).
  exists w. split; [exact H1 | exact H2].
Defined.

End Component.

(** ** Where a trigger lands *)

Section Landing.

Lemma Services_route_fallbacks_present (time : R) (noteData : NoteEvent)
    (v : string) (i : nat) (e : MusicEngine) :
  fallbacks_present e ->
  fallbacks_present (Services.route time noteData v i e).
Proof.
  intros H k Hk. destruct (decide (k = v)) as [->|Hne].
  - destruct (Services_route_self time noteData v i e) as [_ Hf].
    rewrite Hf. destruct (Services_ready e v); [exact (H v Hk)|].
    destruct (H v Hk) as [s ->]. eauto.
  - destruct (Services_route_others time noteData v i e k Hne) as [_ ->].
    exact (H k Hk).
Qed.

Lemma Root_route_fallbacks_present (time : R) (noteData : NoteEvent)
    (v : string) (i : nat) (e : MusicEngine) :
  fallbacks_present e ->
  fallbacks_present (Root.route time noteData v i e).
Proof.
  intros H k Hk. destruct (decide (k = v)) as [->|Hne].
  - destruct (Root_route_self time noteData v i e) as [_ Hf].
    rewrite Hf. destruct (Root_ready e v); [exact (H v Hk)|].
    destruct (H v Hk) as [s ->]. eauto.
  - destruct (Root_route_others time noteData v i e k Hne) as [_ ->].
    exact (H k Hk).
Qed.

Lemma Services_tick_fallbacks_present (time : R) (e e' : MusicEngine) :
  Services.tick time e = Some e' ->
  fallbacks_present e -> fallbacks_present e'.
Proof.
  unfold Services.tick, Services.callback. intros H Hp.
  destruct (loop e) as [l|]; [|injection H as <-; exact Hp].
  destruct (Tone.started (transport e)); [|injection H as <-; exact Hp].
  destruct (forEach (Services.voice_callback time (Tone.step l)) voices
              0%nat e) as [e1|] eqn:E; [|discriminate].
  cbn in H. injection H as <-.
  change (fallbacks_present e1).
  apply (forEach_invariant fallbacks_present
           (Services.voice_callback time (Tone.step l)) voices)
    with (i := 0%nat) (s := e); [|exact E|exact Hp].
  intros v i s s' Hv Hs.
  destruct (Services_voice_callback_cases _ _ _ _ _ _ Hv) as [->|[nd ->]];
    [exact Hs | apply Services_route_fallbacks_present; exact Hs].
Qed.

Lemma Root_tick_fallbacks_present (time : R) (e e' : MusicEngine) :
  Root.tick time e = Some e' ->
  fallbacks_present e -> fallbacks_present e'.
Proof.
  unfold Root.tick, Root.callback. intros H Hp.
  destruct (loop e) as [l|]; [|injection H as <-; exact Hp].
  destruct (Tone.started (transport e)); [|injection H as <-; exact Hp].
  destruct (forEach (Root.voice_callback time (Tone.step l)) voices
              0%nat e) as [e1|] eqn:E; [|discriminate].
  cbn in H. injection H as <-.
  change (fallbacks_present e1).
  apply (forEach_invariant fallbacks_present
           (Root.voice_callback time (Tone.step l)) voices)
    with (i := 0%nat) (s := e); [|exact E|exact Hp].
  intros v i s s' Hv Hs.
  destruct (Root_voice_callback_cases _ _ _ _ _ _ Hv) as [->|[nd ->]];
    [exact Hs | apply Root_route_fallbacks_present; exact Hs].
Qed.

Lemma fallbacks_present_eq (e e' : MusicEngine) :
  fallbacks e' = fallbacks e -> fallbacks_present e -> fallbacks_present e'.
Proof. unfold fallbacks_present. intros ->. tauto. Qed.

Lemma fallbacks_present_released (e e' : MusicEngine) :
  fallbacks e' = Tone.synth_do (Tone.releaseAll None) <$> fallbacks e ->
  fallbacks_present e -> fallbacks_present e'.
Proof.
  unfold fallbacks_present. intros -> H k Hk. rewrite lookup_fmap.
  destruct (H k Hk) as [s ->]. eauto.
Qed.

Lemma perform_fallbacks_present (r : revision) (a : action)
    (e e' : MusicEngine) :
  perform r a e = Some e' -> fallbacks_present e -> fallbacks_present e'.
Proof.
  intros H Hp.
  destruct a as [outcome|outcome|v phase| |cb|time], r; cbn [perform] in H;
    try (injection H as <-).
  - destruct (Services_load_frame outcome e) as (_ & _ & _ & _ & _ & _ & Hf & _).
    exact (fallbacks_present_eq _ _ Hf Hp).
  - destruct (Root_load_frame outcome e) as (_ & _ & _ & _ & _ & _ & Hf & _).
    exact (fallbacks_present_eq _ _ Hf Hp).
  - destruct (Services_reset_frame outcome e) as (_ & _ & _ & _ & _ & _ & Hf).
    destruct (Services_stop_instruments e) as (_ & Hs & _).
    apply (fallbacks_present_eq e); [|exact Hp]. rewrite <- Hs. exact Hf.
  - destruct (Root_reset_frame outcome e) as (_ & _ & _ & _ & _ & _ & Hf).
    destruct (Root_stop_fields e) as (_ & Hs & _).
    apply (fallbacks_present_released e); [|exact Hp]. rewrite <- Hs.
    exact Hf.
  - destruct (Services_play_instruments v phase e) as (_ & Hf & _).
    exact (fallbacks_present_eq _ _ Hf Hp).
  - destruct (Root_play_instruments v phase e) as (_ & Hf & _).
    destruct (Root_stop_fields e) as (_ & Hs & _).
    apply (fallbacks_present_released e); [|exact Hp]. rewrite <- Hs.
    exact Hf.
  - destruct (Services_stop_instruments e) as (_ & Hs & _).
    exact (fallbacks_present_eq _ _ Hs Hp).
  - destruct (Root_stop_fields e) as (_ & Hs & _).
    exact (fallbacks_present_released _ _ Hs Hp).
  - exact Hp.
  - exact Hp.
  - exact (Services_tick_fallbacks_present _ _ _ H Hp).
  - exact (Root_tick_fallbacks_present _ _ _ H Hp).
Qed.

Lemma perform_all_fallbacks_present (r : revision) (actions : list action)
    (e e' : MusicEngine) :
  perform_all r actions e = Some e' ->
  fallbacks_present e -> fallbacks_present e'.
Proof.
  revert e. induction actions as [|a actions IH]; intros e H Hp.
  - injection H as <-. exact Hp.
  - cbn [perform_all] in H. destruct (perform r a e) as [e1|] eqn:E;
      [|discriminate].
    exact (IH e1 H (perform_fallbacks_present r a e e1 E Hp)).
Qed.

Lemma fresh_fallbacks_present (r : revision) : fallbacks_present (fresh r).
Proof.
  destruct r; intros k Hk;
    [exact (Services_new_fallbacks k Hk) | exact (Root_new_fallbacks k Hk)].
Qed.

Lemma voice_calls_land (r : revision) (time : R) (step : nat)
    (noteData : NoteEvent) (k : string) (i : nat) (e : MusicEngine) :
  is_Some (fallbacks e !! k) ->
  let calls := voice_calls r time step noteData k i e in
  (length calls.1 + length calls.2
   = if gate noteData || (step mod pulse_every r =? 0)
     then calls_per_trigger r else 0)%nat /\
  (calls.1 = [] \/ calls.2 = []).
Proof.
  intros [s Hs]. cbv zeta. unfold voice_calls, pulse_every, calls_per_trigger.
  rewrite Hs.
  destruct r;
    [destruct (gate noteData || (step mod 4 =? 0)%nat);
     [destruct (Services_ready e k)|]
    |destruct (gate noteData || (step mod 16 =? 0)%nat);
     [destruct (Root_ready e k)|]];
    cbn; split; auto.
Qed.

(** X26.  A voice that fires is heard on exactly one instrument.  The
    constructor gives every voice a fallback synth and nothing ever
    removes one: in every state a freshly built engine of either
    revision reaches through [load], [reset], [play], [stop],
    [setPhaseCallback] and ticks, a tick on a live loop makes, for each
    voice, the calls of one trigger (one call in
    [services/musicEngine.ts], two in [musicEngine.ts]) when the gate is
    open or the step is on the pulse, and none otherwise; and the calls
    all go to the sampler or all to the fallback, never to both and
    never to neither. *)
Theorem every_trigger_lands (r : revision) (actions : list action)
    (e : MusicEngine) (time : R) (step : nat) (nd0 nd1 nd2 nd3 : NoteEvent)
    (Hreached : perform_all r actions (fresh r) = Some e)
    (Hlive : live_at e step)
    (Hevents : events_at e step nd0 nd1 nd2 nd3) :
  exists e' : MusicEngine,
    perform r (clock_tick time) e = Some e' /\
    forall (k : string) (i : nat) (noteData : NoteEvent),
      In (k, i, noteData) (pulse_entries nd0 nd1 nd2 nd3) ->
      (length (sampler_history e' k) + length (fallback_history e' k)
       = length (sampler_history e k) + length (fallback_history e k)
         + (if gate noteData || (step mod pulse_every r =? 0)
            then calls_per_trigger r else 0))%nat /\
      (sampler_history e' k = sampler_history e k \/
       fallback_history e' k = fallback_history e k).
Proof.
  pose proof (perform_all_fallbacks_present r actions _ e Hreached
                (fresh_fallbacks_present r)) as Hp.
  destruct Hlive as [Hl Hs]. destruct Hevents as (H0 & H1 & H2 & H3).
  assert (forall (k : string) (i : nat) (noteData : NoteEvent),
            In (k, i, noteData) (pulse_entries nd0 nd1 nd2 nd3) ->
            In k voices) as Hvoices.
  { intros k i nd [H|[H|[H|[H|[]]]]]; injection H as <- _ _; cbn; tauto. }
  assert (forall (e' : MusicEngine) (k : string) (i : nat)
                 (noteData : NoteEvent),
            In k voices ->
            sampler_history e' k
            = sampler_history e k
              ++ (voice_calls r time step noteData k i e).1 /\
            fallback_history e' k
            = fallback_history e k
              ++ (voice_calls r time step noteData k i e).2 ->
            (length (sampler_history e' k) + length (fallback_history e' k)
             = length (sampler_history e k) + length (fallback_history e k)
               + (if gate noteData || (step mod pulse_every r =? 0)
                  then calls_per_trigger r else 0))%nat /\
            (sampler_history e' k = sampler_history e k \/
             fallback_history e' k = fallback_history e k)) as Hcount.
  { intros e' k i nd Hk [Hsh Hfh].
    destruct (voice_calls_land r time step nd k i e (Hp k Hk)) as [Hn Hor].
    cbv zeta in Hn, Hor. rewrite Hsh, Hfh, !length_app. split; [lia|].
    destruct Hor as [-> | ->]; rewrite app_nil_r; [left | right];
      reflexivity. }
  destruct r; cbn [perform].
  - rewrite (Services_tick_unrolled time e step nd0 nd1 nd2 nd3
               Hl Hs H0 H1 H2 H3).
    eexists. split; [reflexivity|]. intros k i nd Hin.
    apply (Hcount _ k i nd (Hvoices k i nd Hin)).
    exact (four_passes services time step (Services_fire time step)
             (Services_fire_self time step) (Services_fire_other time step)
             nd0 nd1 nd2 nd3 e k i nd Hin).
  - rewrite (Root_tick_unrolled time e step nd0 nd1 nd2 nd3
               Hl Hs H0 H1 H2 H3).
    eexists. split; [reflexivity|]. intros k i nd Hin.
    apply (Hcount _ k i nd (Hvoices k i nd Hin)).
    exact (four_passes root time step (Root_fire time step)
             (Root_fire_self time step) (Root_fire_other time step)
             nd0 nd1 nd2 nd3 e k i nd Hin).
Qed.

Lemma every_trigger_lands_witness :
  exists e' : MusicEngine,
    perform services (clock_tick 0)
      (Services.play (zeros 384) start Services.new) = Some e'.
Proof.
  pose proof (Services_play_tuned (zeros 384) start Services.new) as Ht.
  destruct (Ht 0%nat 0%nat ltac:(lia)) as [nd0 H0].
  destruct (Ht 0%nat 1%nat ltac:(lia)) as [nd1 H1].
  destruct (Ht 0%nat 2%nat ltac:(lia)) as [nd2 H2].
  destruct (Ht 0%nat 3%nat ltac:(lia)) as [nd3 H3].
  destruct (every_trigger_lands services [call_play (zeros 384) start]
              (Services.play (zeros 384) start Services.new) 0 0
              nd0 nd1 nd2 nd3 eq_refl
              (Services_play_live (zeros 384) start Services.new)
              (conj H0 (conj H1 (conj H2 H3))))
    as (e' & Htick & _).
  exists e'. exact Htick.
Defined.

End Landing.

(** ** A reload in flight *)

Section Reload.

Lemma voice_entry (i : nat) (k : string) (nd0 nd1 nd2 nd3 : NoteEvent) :
  voices !! i = Some k ->
  exists noteData : NoteEvent,
    [nd0; nd1; nd2; nd3] !! i = Some noteData /\
    In (k, i, noteData) (pulse_entries nd0 nd1 nd2 nd3).
Proof.
  intros H. destruct i as [|[|[|[|i]]]]; cbn in H; try discriminate;
    injection H as <-; eexists; (split; [reflexivity|]); cbn; tauto.
Qed.

Lemma voice_is_voice (i : nat) (k : string) :
  voices !! i = Some k -> In k voices /\ (i < 4)%nat.
Proof.
  intros H. split.
  - apply list_elem_of_In. exact (list_elem_of_lookup_2 _ _ _ H).
  - exact (lookup_lt_Some _ _ _ H).
Qed.

(** The first tick of a live loop at step 0, for one voice. *)
Lemma first_events (e : MusicEngine) (i : nat) (k : string) :
  voices !! i = Some k -> tuned e ->
  exists nd0 nd1 nd2 nd3 noteData : NoteEvent,
    events_at e 0 nd0 nd1 nd2 nd3 /\
    note_at e 0 i = Some noteData /\
    In (k, i, noteData) (pulse_entries nd0 nd1 nd2 nd3).
Proof.
  intros Hk Ht.
  destruct (Ht 0%nat 0%nat ltac:(lia)) as [nd0 H0].
  destruct (Ht 0%nat 1%nat ltac:(lia)) as [nd1 H1].
  destruct (Ht 0%nat 2%nat ltac:(lia)) as [nd2 H2].
  destruct (Ht 0%nat 3%nat ltac:(lia)) as [nd3 H3].
  destruct (voice_entry i k nd0 nd1 nd2 nd3 Hk) as (nd & Hnd & Hin).
  exists nd0, nd1, nd2, nd3, nd. split; [repeat split; assumption|].
  split; [|exact Hin].
  destruct i as [|[|[|[|i]]]]; cbn in Hnd; try discriminate;
    injection Hnd as <-; assumption.
Qed.

Lemma Services_first_tick_voice (time : R) (e : MusicEngine)
    (i : nat) (k : string) :
  voices !! i = Some k -> live_at e 0 -> tuned e ->
  exists (e' : MusicEngine) (noteData : NoteEvent),
    Services.tick time e = Some e' /\
    note_at e 0 i = Some noteData /\
    sampler_history e' k
    = sampler_history e k
      ++ (voice_calls services time 0 noteData k i e).1 /\
    fallback_history e' k
    = fallback_history e k
      ++ (voice_calls services time 0 noteData k i e).2.
Proof.
  intros Hk [Hl Hs] Ht.
  destruct (first_events e i k Hk Ht)
    as (nd0 & nd1 & nd2 & nd3 & nd & (H0 & H1 & H2 & H3) & Hat & Hin).
  rewrite (Services_tick_unrolled time e 0 nd0 nd1 nd2 nd3
             Hl Hs H0 H1 H2 H3).
  eexists. exists nd. split; [reflexivity|]. split; [exact Hat|].
  exact (four_passes services time 0 (Services_fire time 0)
           (Services_fire_self time 0) (Services_fire_other time 0)
           nd0 nd1 nd2 nd3 e k i nd Hin).
Qed.

Lemma Root_first_tick_voice (time : R) (e : MusicEngine)
    (i : nat) (k : string) :
  voices !! i = Some k -> live_at e 0 -> tuned e ->
  exists (e' : MusicEngine) (noteData : NoteEvent),
    Root.tick time e = Some e' /\
    note_at e 0 i = Some noteData /\
    sampler_history e' k
    = sampler_history e k ++ (voice_calls root time 0 noteData k i e).1 /\
    fallback_history e' k
    = fallback_history e k ++ (voice_calls root time 0 noteData k i e).2.
Proof.
  intros Hk [Hl Hs] Ht.
  destruct (first_events e i k Hk Ht)
    as (nd0 & nd1 & nd2 & nd3 & nd & (H0 & H1 & H2 & H3) & Hat & Hin).
  rewrite (Root_tick_unrolled time e 0 nd0 nd1 nd2 nd3 Hl Hs H0 H1 H2 H3).
  eexists. exists nd. split; [reflexivity|]. split; [exact Hat|].
  exact (four_passes root time 0 (Root_fire time 0)
           (Root_fire_self time 0) (Root_fire_other time 0)
           nd0 nd1 nd2 nd3 e k i nd Hin).
Qed.

Lemma Root_route_loaded (time : R) (noteData : NoteEvent) (v : string)
    (i : nat) (e : MusicEngine) (k : string) :
  Tone.loaded <$> samplers (Root.route time noteData v i e) !! k
  = Tone.loaded <$> samplers e !! k.
Proof.
  destruct (decide (k = v)) as [->|Hne].
  - destruct (Root_route_self time noteData v i e) as [-> _].
    destruct (Root_ready e v); [|reflexivity].
    destruct (samplers e !! v); reflexivity.
  - destruct (Root_route_others time noteData v i e k Hne) as [-> _].
    reflexivity.
Qed.

Lemma Root_tick_loaded (time : R) (e e' : MusicEngine) (k : string) :
  Root.tick time e = Some e' ->
  Tone.loaded <$> samplers e' !! k = Tone.loaded <$> samplers e !! k.
Proof.
  unfold Root.tick, Root.callback. intros H.
  destruct (loop e) as [l|]; [|injection H as <-; reflexivity].
  destruct (Tone.started (transport e)); [|injection H as <-; reflexivity].
  destruct (forEach (Root.voice_callback time (Tone.step l)) voices
              0%nat e) as [e1|] eqn:E; [|discriminate].
  cbn in H. injection H as <-.
  change (Tone.loaded <$> samplers e1 !! k = Tone.loaded <$> samplers e !! k).
  apply (forEach_invariant
           (fun s => Tone.loaded <$> samplers s !! k
                     = Tone.loaded <$> samplers e !! k)
           (Root.voice_callback time (Tone.step l)) voices)
    with (i := 0%nat) (s := e); [|exact E|reflexivity].
  intros v i s s' Hv Hs.
  destruct (Root_voice_callback_cases _ _ _ _ _ _ Hv) as [->|[nd ->]];
    [exact Hs | rewrite Root_route_loaded; exact Hs].
Qed.

Lemma Root_stale_core (time : R) (e2 : MusicEngine) (i : nat) (k : string)
    (config : string * string) :
  voices !! i = Some k -> live_at e2 0 -> tuned e2 ->
  samplers e2 !! k
  = Some (Tone.sampler_do (Tone.releaseAll None)
            (Tone.mkSampler config false [])) ->
  loadedStates e2 !! k = Some true ->
  exists (e3 : MusicEngine) (noteData : NoteEvent) (smp : Tone.Sampler),
    Root.tick time e2 = Some e3 /\
    note_at e2 0 i = Some noteData /\
    samplers e3 !! k = Some smp /\ Tone.loaded smp = false /\
    Tone.sampler_calls smp
    = [Tone.releaseAll None; Tone.releaseAll (Some time);
       Tone.triggerAttackRelease (Root.finalNote noteData i)
         (Root.durations !! i) time (velocity noteData)] /\
    fallback_history e3 k = fallback_history e2 k.
Proof.
  intros Hvoice Hlive Htuned Hs2 Hfl.
  destruct (Root_first_tick_voice time e2 i k Hvoice Hlive Htuned)
    as (e3 & nd & Htick & Hat & Hsh & Hfh).
  assert (Root_ready e2 k = true) as Hready
    by (unfold Root_ready; rewrite Hs2, Hfl; reflexivity).
  unfold voice_calls in Hsh, Hfh.
  rewrite Nat.Div0.mod_0_l, orb_true_r, Hready in Hsh, Hfh.
  cbn [fst snd] in Hsh, Hfh. rewrite app_nil_r in Hfh.
  unfold sampler_history in Hsh. rewrite Hs2 in Hsh.
  destruct (samplers e3 !! k) as [smp|] eqn:E3; [|discriminate Hsh].
  exists e3, nd, smp. split; [exact Htick|]. split; [exact Hat|].
  split; [exact E3|]. split; [|split; [exact Hsh | exact Hfh]].
  pose proof (Root_tick_loaded time e2 e3 k Htick) as Hld.
  rewrite E3, Hs2 in Hld. injection Hld as ->. reflexivity.
Qed.

Lemma Services_stale_core (time : R) (e2 : MusicEngine) (i : nat)
    (k : string) (config : string * string) :
  voices !! i = Some k -> live_at e2 0 -> tuned e2 ->
  samplers e2 !! k = Some (Tone.mkSampler config false []) ->
  exists (e3 : MusicEngine) (noteData : NoteEvent),
    Services.tick time e2 = Some e3 /\
    note_at e2 0 i = Some noteData /\
    sampler_history e3 k = [] /\
    (is_Some (fallbacks e2 !! k) ->
     fallback_history e3 k
     = fallback_history e2 k
       ++ [Tone.triggerAttackRelease (Services.finalNote noteData i)
             (Services.durations !! i) time
             (JS.mul (velocity noteData) (JS.Fin 0.4))]).
Proof.
  intros Hvoice Hlive Htuned Hs2.
  destruct (Services_first_tick_voice time e2 i k Hvoice Hlive Htuned)
    as (e3 & nd & Htick & Hat & Hsh & Hfh).
  assert (Services_ready e2 k = false) as Hready
    by (unfold Services_ready; rewrite Hs2; reflexivity).
  unfold voice_calls in Hsh, Hfh.
  rewrite Nat.Div0.mod_0_l, orb_true_r, Hready in Hsh, Hfh.
  unfold sampler_history in Hsh at 2. rewrite Hs2 in Hsh.
  exists e3, nd. split; [exact Htick|]. split; [exact Hat|]. split.
  - rewrite Hsh. destruct (fallbacks e2 !! k); reflexivity.
  - intros [s Hs]. rewrite Hfh, Hs. reflexivity.
Qed.

(** X27.  A reload in flight: [musicEngine.ts] trusts the old flag,
    [services/musicEngine.ts] asks the sampler.  Let a voice's readiness
    flag be true and [load] be called again, the voice's new sample not
    yet settled.  After [play], the first tick in [musicEngine.ts] sends
    the voice's release and trigger to the new sampler, which is not
    loaded, and nothing to the fallback; in [services/musicEngine.ts]
    the new sampler gets no call and the note goes to the fallback, at
    0.4 of its velocity. *)
Theorem Root_trusts_stale_flag (outcome : string -> load_event)
    (v : list JS.num) (phase : CompositionPhase) (time : R)
    (e : MusicEngine) (i : nat) (k : string)
    (Hvoice : voices !! i = Some k)
    (Hflag : loadedStates e !! k = Some true)
    (Hpending : outcome k = pending) :
  (let e2 := Root.play v phase (Root.load outcome e).1 in
   exists (e3 : MusicEngine) (noteData : NoteEvent) (smp : Tone.Sampler),
     Root.tick time e2 = Some e3 /\
     note_at e2 0 i = Some noteData /\
     samplers e3 !! k = Some smp /\ Tone.loaded smp = false /\
     Tone.sampler_calls smp
     = [Tone.releaseAll None; Tone.releaseAll (Some time);
        Tone.triggerAttackRelease (Root.finalNote noteData i)
          (Root.durations !! i) time (velocity noteData)] /\
     fallback_history e3 k = fallback_history e2 k) /\
  (let e2 := Services.play v phase (Services.load outcome e).1 in
   exists (e3 : MusicEngine) (noteData : NoteEvent),
     Services.tick time e2 = Some e3 /\
     note_at e2 0 i = Some noteData /\
     sampler_history e3 k = [] /\
     (is_Some (fallbacks e !! k) ->
      fallback_history e3 k
      = fallback_history e k
        ++ [Tone.triggerAttackRelease (Services.finalNote noteData i)
              (Services.durations !! i) time
              (JS.mul (velocity noteData) (JS.Fin 0.4))])).
Proof.
  destruct (voice_is_voice i k Hvoice) as [Hk Hi]. split; cbv zeta.
  - destruct (Root_load_fields outcome e) as (_ & Hsm & _).
    destruct (Hsm k Hk) as [config Hcfg]. rewrite Hpending in Hcfg.
    cbn [is_onload] in Hcfg. clear Hsm.
    pose proof (Root_load_flags outcome e k Hk) as Hfl.
    rewrite Hpending, Hflag in Hfl.
    revert Hcfg Hfl. generalize (Root.load outcome e).1. intros e1 Hcfg Hfl.
    destruct (Root_play_instruments v phase e1) as (Hps & _ & Hpl).
    destruct (Root_stop_fields e1) as (Hss & _ & _ & _ & _ & Hsl).
    rewrite Hss in Hps. rewrite Hsl in Hpl.
    pose proof (Root_play_live v phase e1) as Hlive.
    pose proof (Root_play_tuned v phase e1) as Htuned.
    revert Hps Hpl Hlive Htuned.
    generalize (Root.play v phase e1). intros e2 Hps Hpl Hlive Htuned.
    apply (Root_stale_core time e2 i k config Hvoice Hlive Htuned).
    + rewrite Hps, lookup_fmap, Hcfg. reflexivity.
    + rewrite Hpl. exact Hfl.
  - destruct (Services_load_fields outcome e) as (Hfb & Hsm & _).
    destruct (Hsm k Hk) as [config Hcfg]. rewrite Hpending in Hcfg.
    cbn [is_onload] in Hcfg. clear Hsm.
    revert Hcfg Hfb. generalize (Services.load outcome e).1.
    intros e1 Hcfg Hfb.
    destruct (Services_play_instruments v phase e1) as (Hps & Hpf & _).
    pose proof (Services_play_live v phase e1) as Hlive.
    pose proof (Services_play_tuned v phase e1) as Htuned.
    revert Hps Hpf Hlive Htuned.
    generalize (Services.play v phase e1). intros e2 Hps Hpf Hlive Htuned.
    destruct (Services_stale_core time e2 i k config Hvoice Hlive Htuned)
      as (e3 & nd & Htick & Hat & Hsh & Hfh);
      [rewrite Hps; exact Hcfg|].
    exists e3, nd. split; [exact Htick|]. split; [exact Hat|].
    split; [exact Hsh|].
    unfold fallback_history in Hfh |- *. rewrite Hpf, Hfb in Hfh.
    exact Hfh.
Qed.

Lemma Root_trusts_stale_flag_witness :
  exists (e3 : MusicEngine) (smp : Tone.Sampler),
    Root.tick 0
      (Root.play (zeros 384) start
         (Root.load (fun _ => pending)
            (Root.load (fun _ => onload) Root.new).1).1) = Some e3 /\
    samplers e3 !! "bass"%string = Some smp /\ Tone.loaded smp = false.
Proof.
  destruct (Root_load_fields (fun _ => onload) Root.new) as (_ & _ & Hfl & _).
  destruct (Root_trusts_stale_flag (fun _ => pending) (zeros 384) start 0
              (Root.load (fun _ => onload) Root.new).1 0 "bass" eq_refl
              (Hfl "bass"%string ltac:(cbn; tauto) ltac:(discriminate))
              eq_refl) as [(e3 & nd & smp & H1 & _ & H2 & H3 & _) _].
  exists e3, smp. split; [exact H1|]. split; [exact H2 | exact H3].
Defined.

End Reload.
